(** * Credential lifecycle of google-tasks-mcp: a shallow embedding

    The development follows the three source units of the credential core:

    - [utils/crypto.ts]       (class [CryptoManager]),
    - [auth/token-storage.ts] (class [TokenStorage]),
    - [auth/oauth-manager.ts] (class [OAuthManager]).

    JavaScript strings are sequences of UTF-16 code units, buffers are
    sequences of bytes, numbers are the integer seconds and milliseconds the
    code computes with.  Everything the code obtains from Node.js itself
    (AES-256-GCM, PBKDF2, SHA-256, JSON, the file system, the clock, the
    random source, the network) is a field of [Platform] or of [World]. *)

From Stdlib Require Import String.
From Stdlib Require Import ZArith List Lia Bool DecimalString.
From Stdlib.Strings Require Import Byte.
Import ListNotations.
Open Scope Z_scope.

(* ===================================================================== *)
(** * Part I: definitions                                                  *)
(* ===================================================================== *)

(** ** Bytes and JavaScript strings *)

Definition byte := Byte.byte.

(** A JavaScript string: its UTF-16 code units, each in [0, 65535]. *)
Definition jsstring := list Z.

Definition byte_of_Z (z : Z) : byte :=
  match Byte.of_N (Z.to_N (z mod 256)) with
  | Some b => b
  | None => Byte.x00
  end.

Definition Z_of_byte (b : byte) : Z := Z.of_N (Byte.to_N b).

Definition byte_xor (a b : byte) : byte :=
  let '(a0, (a1, (a2, (a3, (a4, (a5, (a6, a7))))))) := Byte.to_bits a in
  let '(b0, (b1, (b2, (b3, (b4, (b5, (b6, b7))))))) := Byte.to_bits b in
  Byte.of_bits (xorb a0 b0, (xorb a1 b1, (xorb a2 b2, (xorb a3 b3,
               (xorb a4 b4, (xorb a5 b5, (xorb a6 b6, xorb a7 b7))))))).

(** The code units of an ASCII literal. *)
Fixpoint js (s : string) : jsstring :=
  match s with
  | EmptyString => []
  | String c rest => Z.of_N (Ascii.N_of_ascii c) :: js rest
  end.

Definition jsstring_eqb (a b : jsstring) : bool :=
  if list_eq_dec Z.eq_dec a b then true else false.

(** JavaScript truthiness of the values the code tests with [!x], [if (x)]
    and [a || b]: [undefined], the empty string and the number 0 are falsy. *)
Definition truthy_string (o : option jsstring) : bool :=
  match o with
  | Some (_ :: _) => true
  | _ => false
  end.

Definition truthy_number (o : option Z) : bool :=
  match o with
  | Some n => negb (n =? 0)
  | None => false
  end.

(** ** [String.prototype.slice] *)

(** [slice s start end_]: a negative index counts from the end of the string,
    both indices are clamped to [0, length s], [end_ = None] stands for an
    omitted second argument. *)
Definition slice_index (len i : Z) : Z :=
  if i <? 0 then Z.max (len + i) 0 else Z.min i len.

Definition slice (s : jsstring) (start : Z) (end_ : option Z) : jsstring :=
  let len := Z.of_nat (length s) in
  let from := slice_index len start in
  let to := match end_ with
            | Some e => slice_index len e
            | None => len
            end in
  firstn (Z.to_nat (Z.max (to - from) 0)) (skipn (Z.to_nat from) s).

(** ** Hexadecimal: [buf.toString('hex')] and [Buffer.from(s, 'hex')] *)

Definition hex_digit (d : Z) : Z := if d <? 10 then 48 + d else 87 + d.

Definition hex_value (c : Z) : option Z :=
  if (48 <=? c) && (c <=? 57) then Some (c - 48)
  else if (97 <=? c) && (c <=? 102) then Some (c - 87)
  else if (65 <=? c) && (c <=? 70) then Some (c - 55)
  else None.

Fixpoint to_hex (bs : list byte) : jsstring :=
  match bs with
  | [] => []
  | b :: rest =>
      hex_digit (Z_of_byte b / 16) :: hex_digit (Z_of_byte b mod 16) :: to_hex rest
  end.

(** Node decodes pairs of hex digits and stops at the first pair that is not
    one; a trailing single character is dropped. *)
Fixpoint from_hex (s : jsstring) : list byte :=
  match s with
  | h :: l :: rest =>
      match hex_value h, hex_value l with
      | Some hv, Some lv => byte_of_Z (16 * hv + lv) :: from_hex rest
      | _, _ => []
      end
  | _ => []
  end.

(** ** Base64url without padding: [buf.toString('base64url')] *)

Definition base64url_digit (d : Z) : Z :=
  if d <? 26 then 65 + d
  else if d <? 52 then 97 + (d - 26)
  else if d <? 62 then 48 + (d - 52)
  else if d =? 62 then 45 (* - *)
  else 95 (* _ *).

Fixpoint to_base64url (bs : list byte) : jsstring :=
  match bs with
  | [] => []
  | [a] =>
      let n := Z_of_byte a in
      [base64url_digit (n / 4); base64url_digit (n mod 4 * 16)]
  | [a; b] =>
      let n := Z_of_byte a * 256 + Z_of_byte b in
      [base64url_digit (n / 1024); base64url_digit (n / 16 mod 64);
       base64url_digit (n mod 16 * 4)]
  | a :: b :: c :: rest =>
      let n := Z_of_byte a * 65536 + Z_of_byte b * 256 + Z_of_byte c in
      base64url_digit (n / 262144) :: base64url_digit (n / 4096 mod 64)
        :: base64url_digit (n / 64 mod 64) :: base64url_digit (n mod 64)
        :: to_base64url rest
  end.

(** ** UTF-16 and UTF-8 *)

Definition is_code_unit (u : Z) : bool := (0 <=? u) && (u <? 65536).
Definition is_high_surrogate (u : Z) : bool := (55296 <=? u) && (u <=? 56319).
Definition is_low_surrogate (u : Z) : bool := (56320 <=? u) && (u <=? 57343).

(** U+FFFD REPLACEMENT CHARACTER and its UTF-8 encoding EF BF BD. *)
Definition replacement_char : Z := 65533.
Definition replacement_utf8 : list Z := [239; 191; 189].

(** A string is well formed when every surrogate is half of a pair. *)
Fixpoint well_formed (s : jsstring) : bool :=
  match s with
  | [] => true
  | u :: rest =>
      if is_high_surrogate u then
        match rest with
        | l :: rest' => is_low_surrogate l && well_formed rest'
        | [] => false
        end
      else if is_low_surrogate u then false
      else is_code_unit u && well_formed rest
  end.

(** The UTF-8 bytes (as numbers) of one scalar value. *)
Definition utf8_encode_scalar (c : Z) : list Z :=
  if c <? 128 then [c]
  else if c <? 2048 then [192 + c / 64; 128 + c mod 64]
  else if c <? 65536 then [224 + c / 4096; 128 + c / 64 mod 64; 128 + c mod 64]
  else [240 + c / 262144; 128 + c / 4096 mod 64; 128 + c / 64 mod 64; 128 + c mod 64].

(** Encoding a string as ['utf8']: a surrogate pair is one scalar value, an
    unpaired surrogate is written as U+FFFD. *)
Fixpoint utf8_encode_units (s : jsstring) : list Z :=
  match s with
  | [] => []
  | u :: rest =>
      if is_high_surrogate u then
        match rest with
        | l :: rest' =>
            if is_low_surrogate l
            then utf8_encode_scalar (65536 + (u - 55296) * 1024 + (l - 56320))
                   ++ utf8_encode_units rest'
            else replacement_utf8 ++ utf8_encode_units rest
        | [] => replacement_utf8
        end
      else if is_low_surrogate u then replacement_utf8 ++ utf8_encode_units rest
      else utf8_encode_scalar u ++ utf8_encode_units rest
  end.

Definition utf8_encode (s : jsstring) : list byte :=
  map byte_of_Z (utf8_encode_units s).

Definition is_continuation (b : Z) : bool := (128 <=? b) && (b <=? 191).

(** The range allowed for the second byte after lead byte [b0]. *)
Definition second_byte_ok (b0 b1 : Z) : bool :=
  if b0 =? 224 then (160 <=? b1) && (b1 <=? 191)
  else if b0 =? 237 then (128 <=? b1) && (b1 <=? 159)
  else if b0 =? 240 then (144 <=? b1) && (b1 <=? 191)
  else if b0 =? 244 then (128 <=? b1) && (b1 <=? 143)
  else is_continuation b1.

(** The code units of a scalar value: itself, or a surrogate pair. *)
Definition utf16_units (c : Z) : jsstring :=
  if c <? 65536 then [c]
  else [55296 + (c - 65536) / 1024; 56320 + (c - 65536) mod 1024].

(** Decoding ['utf8']: every maximal ill-formed prefix yields one U+FFFD and
    decoding resumes at the byte that broke the sequence. *)
Fixpoint utf8_decode_units (bs : list Z) : jsstring :=
  match bs with
  | [] => []
  | b0 :: r0 =>
      if b0 <? 128 then b0 :: utf8_decode_units r0
      else if (194 <=? b0) && (b0 <=? 223) then
        match r0 with
        | b1 :: r1 =>
            if is_continuation b1
            then ((b0 - 192) * 64 + (b1 - 128)) :: utf8_decode_units r1
            else replacement_char :: utf8_decode_units r0
        | [] => [replacement_char]
        end
      else if (224 <=? b0) && (b0 <=? 239) then
        match r0 with
        | b1 :: r1 =>
            if second_byte_ok b0 b1 then
              match r1 with
              | b2 :: r2 =>
                  if is_continuation b2
                  then ((b0 - 224) * 4096 + (b1 - 128) * 64 + (b2 - 128))
                         :: utf8_decode_units r2
                  else replacement_char :: utf8_decode_units r1
              | [] => [replacement_char]
              end
            else replacement_char :: utf8_decode_units r0
        | [] => [replacement_char]
        end
      else if (240 <=? b0) && (b0 <=? 244) then
        match r0 with
        | b1 :: r1 =>
            if second_byte_ok b0 b1 then
              match r1 with
              | b2 :: r2 =>
                  if is_continuation b2 then
                    match r2 with
                    | b3 :: r3 =>
                        if is_continuation b3
                        then utf16_units ((b0 - 240) * 262144 + (b1 - 128) * 4096
                                          + (b2 - 128) * 64 + (b3 - 128))
                               ++ utf8_decode_units r3
                        else replacement_char :: utf8_decode_units r2
                    | [] => [replacement_char]
                    end
                  else replacement_char :: utf8_decode_units r1
              | [] => [replacement_char]
              end
            else replacement_char :: utf8_decode_units r0
        | [] => [replacement_char]
        end
      else replacement_char :: utf8_decode_units r0
  end.

Definition utf8_decode (bs : list byte) : jsstring :=
  utf8_decode_units (map Z_of_byte bs).

(** ** Data model ([auth/auth-types.ts]) *)

Record TokenSet := {
  access_token : jsstring;
  refresh_token : option jsstring;
  expires_in : option Z;
  token_type : option jsstring;
  scope : option jsstring;
  expires_at : option Z  (* Unix timestamp *)
}.

Record PKCEChallenge := {
  verifier : jsstring;
  challenge : jsstring;
  method : jsstring  (* always 'S256' *)
}.

Record OAuthConfig := {
  clientId : jsstring;
  redirectUri : jsstring;
  scopes : list jsstring
}.

Record EncryptedData := {
  data : jsstring;
  iv : jsstring;
  salt : jsstring
}.

(** Field assignments [tokens.f = v]. *)
Definition set_refresh_token (t : TokenSet) (v : option jsstring) : TokenSet :=
  {| access_token := access_token t; refresh_token := v;
     expires_in := expires_in t; token_type := token_type t;
     scope := scope t; expires_at := expires_at t |}.

Definition set_expires_at (t : TokenSet) (v : option Z) : TokenSet :=
  {| access_token := access_token t; refresh_token := refresh_token t;
     expires_in := expires_in t; token_type := token_type t;
     scope := scope t; expires_at := v |}.

Definition set_redirectUri (c : OAuthConfig) (v : jsstring) : OAuthConfig :=
  {| clientId := clientId c; redirectUri := v; scopes := scopes c |}.

(** ** Errors

    One constructor for each failure Node.js raises into this code and one for
    each [throw new Error(...)] of the code itself. *)
Inductive JsError : Type :=
| SystemError (code : string)    (* fs, net and os failures; [code] is their [.code] *)
| SyntaxError                    (* JSON.parse, response.json() *)
| FetchFailed                    (* fetch() rejects *)
| InvalidKeyLength               (* createCipheriv, createDecipheriv *)
| InvalidIV
| InvalidAuthTagLength           (* setAuthTag *)
| UnableToAuthenticate           (* decipher.final(): the tag does not verify *)
| FailedToLoadTokens (cause : JsError)
| FailedToClearTokens (cause : JsError)
| NoPKCEChallenge
| TokenExchangeFailed (status : Z) (body : jsstring)
| NoRefreshToken
| TokenRefreshFailed (status : Z) (body : jsstring)
| ReauthenticationRequired
| NoTokensAvailable
| CallbackServerNotStarted
| OAuthCallbackTimeout
| OAuthError (error : jsstring) (error_description : option jsstring)
| NoAuthorizationCode.

(** The [.code] property the [catch] blocks inspect. *)
Definition error_code (e : JsError) : option string :=
  match e with
  | SystemError c => Some c
  | InvalidKeyLength => Some "ERR_CRYPTO_INVALID_KEYLEN"%string
  | InvalidIV => Some "ERR_CRYPTO_INVALID_IV"%string
  | InvalidAuthTagLength => Some "ERR_CRYPTO_INVALID_AUTH_TAG"%string
  | _ => None
  end.

Definition code_is (e : JsError) (c : string) : bool :=
  match error_code e with
  | Some c' => String.eqb c' c
  | None => false
  end.

Inductive Outcome (A : Type) : Type :=
| Returned (a : A)
| Threw (e : JsError).
Arguments Returned {A} a.
Arguments Threw {A} e.

(** ** The world outside the process *)

(** Failures of a file operation other than "no such file or directory". *)
Inductive io_fault := EACCES | EPERM | EISDIR | ENOTDIR | EIO | EMFILE | ENOSPC | EROFS.

Definition io_fault_code (f : io_fault) : string :=
  match f with
  | EACCES => "EACCES" | EPERM => "EPERM" | EISDIR => "EISDIR"
  | ENOTDIR => "ENOTDIR" | EIO => "EIO" | EMFILE => "EMFILE"
  | ENOSPC => "ENOSPC" | EROFS => "EROFS"
  end%string.

Inductive FileState :=
| Missing                                   (* no such file or directory *)
| Directory (mode : Z)
| Unreadable (fault : io_fault)             (* a file that cannot be read *)
| File (content : list byte) (mode : Z).

Record FileSystem := {
  files : string -> FileState;
  mkdir_fault : option io_fault;   (* the failure of the next mkdir, if any *)
  write_fault : option io_fault;   (* ... of the next writeFile *)
  chmod_fault : option io_fault;
  unlink_fault : option io_fault
}.

Record Clock := {
  readings : nat -> Z;   (* successive values of Date.now(), in milliseconds *)
  ticks : nat            (* how many have been read *)
}.

Record Random := {
  entropy : nat -> byte; (* the bytes crypto.randomBytes hands out *)
  drawn : nat            (* how many have been handed out *)
}.

Record OS := {
  homedir : string;
  hostname : jsstring;
  username : option jsstring   (* [None]: os.userInfo() throws *)
}.

(** The objects of type [TokenSet] on the JavaScript heap, by reference. *)
Definition ref := nat.

Record Heap := {
  objects : ref -> TokenSet;
  allocated : nat
}.

Record HttpRequest := {
  req_url : string;
  req_method : string;
  req_content_type : string;
  req_body : list (string * jsstring)   (* the URLSearchParams, before encoding *)
}.

Record Response := {
  resp_ok : bool;
  resp_status : Z;
  resp_text : jsstring;                (* response.text() *)
  resp_json : option TokenSet          (* response.json(); [None]: it rejects *)
}.

Inductive FetchOutcome :=
| Rejected
| Responded (r : Response).

Record Network := {
  replies : list FetchOutcome;   (* what the token endpoint will answer, in order *)
  sent : list HttpRequest        (* the requests made so far, latest first *)
}.

Inductive ListenOutcome :=
| Bound
| ListenError (code : string).   (* the server's 'error' event, with its [.code] *)

(** A request the browser makes to the callback server. *)
Record IncomingRequest := {
  pathname : string;
  query_code : option jsstring;
  query_error : option jsstring;
  query_error_description : option jsstring
}.

Definition Server := nat.

Record Sockets := {
  listen_script : list ListenOutcome;  (* outcomes of the coming listen() calls *)
  incoming : list IncomingRequest;     (* requests arriving before the timeout *)
  listening : list (Server * Z);       (* servers accepting connections, with port *)
  created : nat;                       (* servers created so far *)
  served : list Z                      (* status codes answered, latest first *)
}.

Record World := {
  clock : Clock;
  random : Random;
  os : OS;
  fs : FileSystem;
  heap : Heap;
  network : Network;
  sockets : Sockets
}.

Definition set_clock (w : World) (v : Clock) : World :=
  {| clock := v; random := random w; os := os w; fs := fs w; heap := heap w;
     network := network w; sockets := sockets w |}.
Definition set_random (w : World) (v : Random) : World :=
  {| clock := clock w; random := v; os := os w; fs := fs w; heap := heap w;
     network := network w; sockets := sockets w |}.
Definition set_fs (w : World) (v : FileSystem) : World :=
  {| clock := clock w; random := random w; os := os w; fs := v; heap := heap w;
     network := network w; sockets := sockets w |}.
Definition set_heap (w : World) (v : Heap) : World :=
  {| clock := clock w; random := random w; os := os w; fs := fs w; heap := v;
     network := network w; sockets := sockets w |}.
Definition set_network (w : World) (v : Network) : World :=
  {| clock := clock w; random := random w; os := os w; fs := fs w; heap := heap w;
     network := v; sockets := sockets w |}.
Definition set_sockets (w : World) (v : Sockets) : World :=
  {| clock := clock w; random := random w; os := os w; fs := fs w; heap := heap w;
     network := network w; sockets := v |}.

Definition set_file (f : FileSystem) (path : string) (st : FileState) : FileSystem :=
  {| files := fun p => if String.eqb p path then st else files f p;
     mkdir_fault := mkdir_fault f; write_fault := write_fault f;
     chmod_fault := chmod_fault f; unlink_fault := unlink_fault f |}.

(** ** Computations: state passing with exceptions

    A method of an object with state [S] is a function from the state before
    to an outcome and the state after; a [throw] keeps the state reached. *)
Definition M (S A : Type) : Type := S -> Outcome A * S.

Definition ret {S A : Type} (a : A) : M S A := fun s => (Returned a, s).

Definition throw {S A : Type} (e : JsError) : M S A := fun s => (Threw e, s).

Definition bind {S A B : Type} (c : M S A) (k : A -> M S B) : M S B :=
  fun s =>
    match fst (c s) with
    | Returned a => k a (snd (c s))
    | Threw e => (Threw e, snd (c s))
    end.

Notation "x <- c ;; k" := (bind c (fun x => k))
  (at level 61, c at next level, right associativity).
Notation "c ;;; k" := (bind c (fun _ => k))
  (at level 61, right associativity).

(** [try { c } catch (e) { h e }] *)
Definition try_catch {S A : Type} (c : M S A) (h : JsError -> M S A) : M S A :=
  fun s =>
    match fst (c s) with
    | Returned a => (Returned a, snd (c s))
    | Threw e => h e (snd (c s))
    end.

(** [try { c } finally { f }]: [f] runs on every exit of [c]; the outcome is
    that of [c] unless [f] itself throws. *)
Definition try_finally {S A : Type} (c : M S A) (f : M S unit) : M S A :=
  fun s =>
    match fst (f (snd (c s))) with
    | Returned _ => (fst (c s), snd (f (snd (c s))))
    | Threw e => (Threw e, snd (f (snd (c s))))
    end.

Definition gets {S A : Type} (f : S -> A) : M S A := fun s => (Returned (f s), s).

Definition modify {S : Type} (f : S -> S) : M S unit := fun s => (Returned tt, f s).

(** A computation on the world, run by an object with fields [S]. *)
Definition in_world {S A : Type} (c : M World A) : M (S * World) A :=
  fun s => (fst (c (snd s)), (fst s, snd (c (snd s)))).

Definition this {S : Type} : M (S * World) S := gets fst.

Definition set_this {S : Type} (f : S -> S) : M (S * World) unit :=
  modify (fun s => (f (fst s), snd s)).

Definition lift {S A : Type} (o : Outcome A) : M S A := fun s => (o, s).

(** *** Node.js primitives on the world *)

(** [Date.now()] *)
Definition Date_now : M World Z :=
  fun w =>
    (Returned (readings (clock w) (ticks (clock w))),
     set_clock w {| readings := readings (clock w); ticks := S (ticks (clock w)) |}).

(** [Math.floor(Date.now() / 1000)], as the next reading of the clock gives it. *)
Definition current_seconds (w : World) : Z :=
  readings (clock w) (ticks (clock w)) / 1000.

(** The next [n] bytes of the random source, and the source after them. *)
Definition next_bytes (r : Random) (n : nat) : list byte :=
  map (entropy r) (seq (drawn r) n).

Definition advance (r : Random) (n : nat) : Random :=
  {| entropy := entropy r; drawn := (drawn r + n)%nat |}.

(** [crypto.randomBytes(n)] *)
Definition randomBytes (n : nat) : M World (list byte) :=
  fun w => (Returned (next_bytes (random w) n), set_random w (advance (random w) n)).

(** A fresh object holding [t]: an object literal, or the result of
    [JSON.parse] or [response.json()]. *)
Definition new_object (t : TokenSet) : M World ref :=
  fun w =>
    (Returned (allocated (heap w)),
     set_heap w {| objects := fun r => if Nat.eqb r (allocated (heap w)) then t
                                       else objects (heap w) r;
                   allocated := S (allocated (heap w)) |}).

Definition read_object (r : ref) : M World TokenSet :=
  gets (fun w => objects (heap w) r).

Definition write_object (r : ref) (t : TokenSet) : M World unit :=
  modify (fun w =>
    set_heap w {| objects := fun r' => if Nat.eqb r' r then t else objects (heap w) r';
                  allocated := allocated (heap w) |}).

Definition ENOENT : JsError := SystemError "ENOENT".

Definition fault (f : io_fault) : JsError := SystemError (io_fault_code f).

(** [fs.access(path)] *)
Definition fs_access (path : string) : M World unit :=
  fun w =>
    match files (fs w) path with
    | Missing => (Threw ENOENT, w)
    | _ => (Returned tt, w)
    end.

(** [fs.mkdir(path, { recursive: true, mode })] *)
Definition fs_mkdir (path : string) (mode : Z) : M World unit :=
  fun w =>
    match mkdir_fault (fs w) with
    | Some f => (Threw (fault f), w)
    | None =>
        match files (fs w) path with
        | Missing => (Returned tt, set_fs w (set_file (fs w) path (Directory mode)))
        | Directory _ => (Returned tt, w)
        | _ => (Threw (SystemError "EEXIST"), w)
        end
    end.

(** [fs.writeFile(path, content, { mode })]: the string is written as UTF-8;
    [mode] applies when the file is created. *)
Definition fs_writeFile (path : string) (content : jsstring) (mode : Z) : M World unit :=
  fun w =>
    match write_fault (fs w) with
    | Some f => (Threw (fault f), w)
    | None =>
        match files (fs w) path with
        | Missing => (Returned tt, set_fs w (set_file (fs w) path (File (utf8_encode content) mode)))
        | File _ mode' =>
            (Returned tt, set_fs w (set_file (fs w) path (File (utf8_encode content) mode')))
        | Directory _ => (Threw (fault EISDIR), w)
        | Unreadable f => (Threw (fault f), w)
        end
    end.

(** [fs.readFile(path, 'utf8')] *)
Definition fs_readFile (path : string) : M World jsstring :=
  fun w =>
    match files (fs w) path with
    | Missing => (Threw ENOENT, w)
    | Directory _ => (Threw (fault EISDIR), w)
    | Unreadable f => (Threw (fault f), w)
    | File content _ => (Returned (utf8_decode content), w)
    end.

(** [fs.chmod(path, mode)] *)
Definition fs_chmod (path : string) (mode : Z) : M World unit :=
  fun w =>
    match chmod_fault (fs w) with
    | Some f => (Threw (fault f), w)
    | None =>
        match files (fs w) path with
        | Missing => (Threw ENOENT, w)
        | Directory _ => (Returned tt, set_fs w (set_file (fs w) path (Directory mode)))
        | Unreadable f => (Returned tt, w)
        | File content _ => (Returned tt, set_fs w (set_file (fs w) path (File content mode)))
        end
    end.

(** [fs.unlink(path)] *)
Definition fs_unlink (path : string) : M World unit :=
  fun w =>
    match unlink_fault (fs w) with
    | Some f => (Threw (fault f), w)
    | None =>
        match files (fs w) path with
        | Missing => (Threw ENOENT, w)
        | Directory _ => (Threw (fault EISDIR), w)
        | _ => (Returned tt, set_fs w (set_file (fs w) path Missing))
        end
    end.

(** [os.hostname()] and [os.userInfo().username] *)
Definition os_hostname : M World jsstring := gets (fun w => hostname (os w)).

Definition os_userInfo_username : M World jsstring :=
  fun w =>
    match username (os w) with
    | Some u => (Returned u, w)
    | None => (Threw (SystemError "ERR_SYSTEM_ERROR"), w)
    end.

(** [fetch(url, init)]: the request is recorded, the next scripted reply is
    consumed; with none left the call rejects. *)
Definition fetch (req : HttpRequest) : M World Response :=
  fun w =>
    match replies (network w) with
    | Responded r :: rest =>
        (Returned r, set_network w {| replies := rest; sent := req :: sent (network w) |})
    | Rejected :: rest =>
        (Threw FetchFailed, set_network w {| replies := rest; sent := req :: sent (network w) |})
    | [] =>
        (Threw FetchFailed, set_network w {| replies := []; sent := req :: sent (network w) |})
    end.

(** [await response.json() as TokenSet] *)
Definition response_json (r : Response) : M World ref :=
  match resp_json r with
  | Some t => new_object t
  | None => throw SyntaxError
  end.

(** ** The platform's pure functions *)

Class Platform := {
  (** byte [i] of the AES-256 counter-mode key stream for a key and an IV *)
  aes256_gcm_keystream : list byte -> list byte -> nat -> byte;
  (** byte [i] of the GCM tag of (key, IV, AAD, ciphertext) *)
  aes256_gcm_tag : list byte -> list byte -> list byte -> list byte -> nat -> byte;
  (** [crypto.pbkdf2Sync(password, salt, iterations, keylen, 'sha256')] *)
  pbkdf2_sha256 : list byte -> list byte -> Z -> Z -> list byte;
  (** [crypto.createHash('sha256').update(input).digest()] *)
  sha256 : list byte -> list byte;
  (** [JSON.stringify] and [JSON.parse] at the two types the code uses them
      at.  [JSON.parse(text) as T] is read at [T], the type the code casts its
      result to: [None] is a text on which the use of the result fails (a
      SyntaxError of the parser, or for an envelope a value without the three
      hex strings, on which [Buffer.from] throws a TypeError; either way an
      exception that is not ENOENT), and a text that denotes a record of
      TypeScript type [T] gives that record.  A stored text that parses to a
      value outside [TokenSet] (the store only writes records of that type)
      is not modelled. *)
  JSON_stringify_TokenSet : TokenSet -> jsstring;
  JSON_parse_TokenSet : jsstring -> option TokenSet;
  JSON_stringify_EncryptedData : EncryptedData -> jsstring;
  JSON_parse_EncryptedData : jsstring -> option EncryptedData
}.

(** An envelope as [encrypt] builds it: three strings of hex digits. *)
Definition hex_envelope (e : EncryptedData) : Prop :=
  exists d i s, e = {| data := to_hex d; iv := to_hex i; salt := to_hex s |}.

(** What the code relies on from JSON: [JSON.stringify] returns well-formed
    strings, and [JSON.parse] reads an envelope back from its text. *)
Class JsonFaithful (P : Platform) : Prop := {
  stringify_well_formed :
    forall t, well_formed (JSON_stringify_TokenSet t) = true;
  envelope_well_formed :
    forall e, hex_envelope e -> well_formed (JSON_stringify_EncryptedData e) = true;
  envelope_round_trip :
    forall e, hex_envelope e ->
      JSON_parse_EncryptedData (JSON_stringify_EncryptedData e) = Some e
}.

(** A record is JSON-representable when parsing its JSON text gives it back. *)
Definition json_representable {P : Platform} (t : TokenSet) : Prop :=
  JSON_parse_TokenSet (JSON_stringify_TokenSet t) = Some t.

(** ** [utils/crypto.ts] *)

Definition ALGORITHM : string := "aes-256-gcm".
Definition KEY_LENGTH : Z := 32. (* 256 bits *)
Definition IV_LENGTH : Z := 16. (* 128 bits *)
Definition SALT_LENGTH : Z := 32. (* 256 bits *)
Definition TAG_LENGTH : Z := 16. (* 128 bits *)

(** A cipher or decipher object of [crypto]. *)
Record Cipher := {
  cipher_key : list byte;
  cipher_iv : list byte;
  cipher_aad : list byte;
  cipher_auth_tag : list byte;    (* the tag given to a decipher *)
  cipher_text : list byte         (* the ciphertext that has gone through *)
}.

Definition setAAD (c : Cipher) (aad : list byte) : Cipher :=
  {| cipher_key := cipher_key c; cipher_iv := cipher_iv c; cipher_aad := aad;
     cipher_auth_tag := cipher_auth_tag c; cipher_text := cipher_text c |}.

Definition add_cipher_text (c : Cipher) (bs : list byte) : Cipher :=
  {| cipher_key := cipher_key c; cipher_iv := cipher_iv c; cipher_aad := cipher_aad c;
     cipher_auth_tag := cipher_auth_tag c; cipher_text := cipher_text c ++ bs |}.

(** [crypto.createCipheriv('aes-256-gcm', key, iv)] and [createDecipheriv]:
    the key must have 32 bytes, the IV at least one. *)
Definition createCipheriv (algorithm : string) (key iv_ : list byte) : Outcome Cipher :=
  if negb (Z.of_nat (length key) =? 32) then Threw InvalidKeyLength
  else if Z.of_nat (length iv_) =? 0 then Threw InvalidIV
  else Returned {| cipher_key := key; cipher_iv := iv_; cipher_aad := [];
                   cipher_auth_tag := []; cipher_text := [] |}.

Definition createDecipheriv := createCipheriv.

(** [decipher.setAuthTag(tag)]: GCM tags have 4, 8 or 12 to 16 bytes. *)
Definition valid_tag_length (n : Z) : bool :=
  (n =? 4) || (n =? 8) || ((12 <=? n) && (n <=? 16)).

Definition setAuthTag (c : Cipher) (tag : list byte) : Outcome Cipher :=
  if valid_tag_length (Z.of_nat (length tag))
  then Returned {| cipher_key := cipher_key c; cipher_iv := cipher_iv c;
                   cipher_aad := cipher_aad c; cipher_auth_tag := tag;
                   cipher_text := cipher_text c |}
  else Threw InvalidAuthTagLength.

Section Crypto.
Context {P : Platform}.

(** Counter mode: input byte [i] is xor-ed with key-stream byte [offset + i]. *)
Definition gcm_crypt (key iv_ : list byte) (offset : nat) (input : list byte) : list byte :=
  map (fun ib => byte_xor (snd ib) (aes256_gcm_keystream key iv_ (fst ib)))
      (combine (seq offset (length input)) input).

Definition gcm_auth_tag (key iv_ aad ciphertext : list byte) : list byte :=
  map (aes256_gcm_tag key iv_ aad ciphertext) (seq 0 (Z.to_nat TAG_LENGTH)).

(** [cipher.update(input)]: the next ciphertext bytes. *)
Definition cipher_update (c : Cipher) (input : list byte) : Cipher * list byte :=
  let out := gcm_crypt (cipher_key c) (cipher_iv c) (length (cipher_text c)) input in
  (add_cipher_text c out, out).

(** [cipher.final()]: GCM has no padding, nothing is left to write. *)
Definition cipher_final (c : Cipher) : list byte := [].

Definition getAuthTag (c : Cipher) : list byte :=
  gcm_auth_tag (cipher_key c) (cipher_iv c) (cipher_aad c) (cipher_text c).

(** [decipher.update(input)]: the next plaintext bytes. *)
Definition decipher_update (c : Cipher) (input : list byte) : Cipher * list byte :=
  let out := gcm_crypt (cipher_key c) (cipher_iv c) (length (cipher_text c)) input in
  (add_cipher_text c input, out).

(** [decipher.final()]: throws unless the tag given by [setAuthTag] is the tag
    of what was deciphered, compared over the length of the given tag. *)
Definition decipher_final (c : Cipher) : Outcome (list byte) :=
  if list_eq_dec Byte.byte_eq_dec (cipher_auth_tag c)
       (firstn (length (cipher_auth_tag c)) (getAuthTag c))
  then Returned []
  else Threw UnableToAuthenticate.

(** [CryptoManager.deriveKey] *)
Definition deriveKey (password : jsstring) (salt_ : list byte) (iterations : Z) : list byte :=
  pbkdf2_sha256 (utf8_encode password) salt_ iterations KEY_LENGTH.

(** [CryptoManager.encrypt], for the IV and the salt it has drawn. *)
Definition encrypt_with (iv_ salt_ : list byte) (plaintext : jsstring) (key : list byte)
  : Outcome EncryptedData :=
  match createCipheriv ALGORITHM key iv_ with
  | Threw e => Threw e
  | Returned cipher =>
      let cipher := setAAD cipher salt_ in
      let updated := cipher_update cipher (utf8_encode plaintext) in
      let encrypted := to_hex (snd updated) in
      let encrypted := encrypted ++ to_hex (cipher_final (fst updated)) in
      let authTag := getAuthTag (fst updated) in
      Returned {| data := encrypted ++ to_hex authTag;
                  iv := to_hex iv_;
                  salt := to_hex salt_ |}
  end.

(** [CryptoManager.encrypt] *)
Definition encrypt (plaintext : jsstring) (key : list byte) : M World EncryptedData :=
  iv_ <- randomBytes (Z.to_nat IV_LENGTH) ;;
  salt_ <- randomBytes (Z.to_nat SALT_LENGTH) ;;
  lift (encrypt_with iv_ salt_ plaintext key).

(** [CryptoManager.decrypt]; the two [update]/[final] outputs are decoded as
    one UTF-8 stream. *)
Definition decrypt (encryptedData : EncryptedData) (key : list byte) : Outcome jsstring :=
  let iv_ := from_hex (iv encryptedData) in
  let salt_ := from_hex (salt encryptedData) in
  (* Extract auth tag from the end of encrypted data *)
  let encryptedText := slice (data encryptedData) 0 (Some (- TAG_LENGTH * 2)) in
  let authTag := from_hex (slice (data encryptedData) (- TAG_LENGTH * 2) None) in
  match createDecipheriv ALGORITHM key iv_ with
  | Threw e => Threw e
  | Returned decipher =>
      let decipher := setAAD decipher salt_ in
      match setAuthTag decipher authTag with
      | Threw e => Threw e
      | Returned decipher =>
          let updated := decipher_update decipher (from_hex encryptedText) in
          match decipher_final (fst updated) with
          | Threw e => Threw e
          | Returned last => Returned (utf8_decode (snd updated ++ last))
          end
      end
  end.

(** [CryptoManager.generateRandomString] *)
Definition generateRandomString (length_ : Z) : M World jsstring :=
  bytes <- randomBytes (Z.to_nat length_) ;;
  ret (slice (to_base64url bytes) 0 (Some length_)).

(** [CryptoManager.generateSHA256Hash] *)
Definition generateSHA256Hash (input : jsstring) : jsstring :=
  to_base64url (sha256 (utf8_encode input)).

End Crypto.

(** ** [auth/token-storage.ts] *)

Record TokenStorage := {
  tokenFilePath : string;
  configDir : string;
  encryptionKey : option (list byte)
}.

Definition set_encryptionKey (t : TokenStorage) (k : option (list byte)) : TokenStorage :=
  {| tokenFilePath := tokenFilePath t; configDir := configDir t; encryptionKey := k |}.

(** [path.join(a, b)] on the two plain segments the code joins. *)
Definition path_join (a b : string) : string := (a ++ "/" ++ b)%string.

(** [new TokenStorage(tokenFilePath?)]; an empty path is falsy for [||]. *)
Definition new_TokenStorage (path : option string) : M World TokenStorage :=
  home <- gets (fun w => homedir (os w)) ;;
  let dir := path_join home ".google-tasks-mcp" in
  ret {| configDir := dir;
         tokenFilePath := match path with
                          | Some (String c rest) => String c rest
                          | _ => path_join dir "tokens.enc"
                          end;
         encryptionKey := None |}.

Section Storage.
Context {P : Platform}.

(** The key derived from a host name and a user name. *)
Definition machine_key (host user : jsstring) : list byte :=
  deriveKey (host ++ js "-" ++ user) (utf8_encode (js "google-tasks-mcp-salt")) 100000.

(** [TokenStorage.getEncryptionKey] *)
Definition getEncryptionKey : M (TokenStorage * World) (list byte) :=
  self <- this ;;
  match encryptionKey self with
  | Some key => ret key
  | None =>
      (* Generate a machine-specific key based on hostname and user *)
      host <- in_world os_hostname ;;
      user <- in_world os_userInfo_username ;;
      let machineInfo := host ++ js "-" ++ user in
      let salt_ := utf8_encode (js "google-tasks-mcp-salt") in
      let key := deriveKey machineInfo salt_ 100000 in
      set_this (fun s => set_encryptionKey s (Some key)) ;;;
      ret key
  end.

(** [TokenStorage.ensureConfigDir] *)
Definition ensureConfigDir : M (TokenStorage * World) unit :=
  self <- this ;;
  try_catch (in_world (fs_access (configDir self)))
            (fun _ => in_world (fs_mkdir (configDir self) 448 (* 0o700 *))).

(** [TokenStorage.setSecurePermissions]: a failure is only reported as a
    warning on the console. *)
Definition setSecurePermissions (filePath : string) : M (TokenStorage * World) unit :=
  try_catch (in_world (fs_chmod filePath 384 (* 0o600 *)))
            (fun _ => ret tt).

(** [TokenStorage.saveTokens] *)
Definition saveTokens (tokens : ref) : M (TokenStorage * World) unit :=
  ensureConfigDir ;;;
  key <- getEncryptionKey ;;
  t <- in_world (read_object tokens) ;;
  let tokenData := JSON_stringify_TokenSet t in
  encrypted <- in_world (encrypt tokenData key) ;;
  let fileContent := JSON_stringify_EncryptedData encrypted in
  self <- this ;;
  in_world (fs_writeFile (tokenFilePath self) fileContent 384 (* 0o600 *)) ;;;
  setSecurePermissions (tokenFilePath self).

(** [JSON.parse(text)], throwing SyntaxError. *)
Definition parse_or_throw {S A : Type} (parse : jsstring -> option A) (text : jsstring)
  : M S A :=
  match parse text with
  | Some v => ret v
  | None => throw SyntaxError
  end.

(** [TokenStorage.loadTokens]; [None] is JavaScript's [null]. *)
Definition loadTokens : M (TokenStorage * World) (option ref) :=
  try_catch
    (self <- this ;;
     fileContent <- in_world (fs_readFile (tokenFilePath self)) ;;
     encrypted <- parse_or_throw JSON_parse_EncryptedData fileContent ;;
     key <- getEncryptionKey ;;
     decryptedData <- lift (decrypt encrypted key) ;;
     t <- parse_or_throw JSON_parse_TokenSet decryptedData ;;
     tokens <- in_world (new_object t) ;;
     ret (Some tokens))
    (fun error_ =>
       if code_is error_ "ENOENT"
       then ret None (* File doesn't exist *)
       else throw (FailedToLoadTokens error_)).

(** [TokenStorage.clearTokens] *)
Definition clearTokens : M (TokenStorage * World) unit :=
  self <- this ;;
  try_catch (in_world (fs_unlink (tokenFilePath self)))
            (fun error_ =>
               if negb (code_is error_ "ENOENT")
               then throw (FailedToClearTokens error_)
               else ret tt).

(** [TokenStorage.hasTokens] *)
Definition hasTokens : M (TokenStorage * World) bool :=
  self <- this ;;
  try_catch (in_world (fs_access (tokenFilePath self)) ;;; ret true)
            (fun _ => ret false).

(** [TokenStorage.isTokenExpired]; a missing [expires_at] and the number 0
    both make [!tokens.expires_at] true. *)
Definition isTokenExpired (tokens : ref) : M (TokenStorage * World) bool :=
  t <- in_world (read_object tokens) ;;
  if negb (truthy_number (expires_at t)) then
    ret false (* No expiration info, assume valid *)
  else
    ms <- in_world Date_now ;;
    let now := ms / 1000 in
    let buffer := 300 in (* 5 minute buffer *)
    ret (match expires_at t with
         | Some e => e <=? now + buffer
         | None => false
         end).

(** [TokenStorage.updateTokenExpiry]: assigns to the object it is given and
    returns that same object. *)
Definition updateTokenExpiry (tokens : ref) : M (TokenStorage * World) ref :=
  t <- in_world (read_object tokens) ;;
  (if truthy_number (expires_in t) then
     ms <- in_world Date_now ;;
     match expires_in t with
     | Some lifetime =>
         in_world (write_object tokens (set_expires_at t (Some (ms / 1000 + lifetime))))
     | None => ret tt
     end
   else ret tt) ;;;
  ret tokens.

End Storage.

(** ** [auth/oauth-manager.ts] *)

Record OAuthManager := {
  config : OAuthConfig;
  tokenStorage : TokenStorage;
  currentPKCE : option PKCEChallenge;
  callbackServer : option Server;
  callbackPort : Z
}.

Definition set_config (m : OAuthManager) (v : OAuthConfig) : OAuthManager :=
  {| config := v; tokenStorage := tokenStorage m; currentPKCE := currentPKCE m;
     callbackServer := callbackServer m; callbackPort := callbackPort m |}.
Definition set_tokenStorage (m : OAuthManager) (v : TokenStorage) : OAuthManager :=
  {| config := config m; tokenStorage := v; currentPKCE := currentPKCE m;
     callbackServer := callbackServer m; callbackPort := callbackPort m |}.
Definition set_currentPKCE (m : OAuthManager) (v : option PKCEChallenge) : OAuthManager :=
  {| config := config m; tokenStorage := tokenStorage m; currentPKCE := v;
     callbackServer := callbackServer m; callbackPort := callbackPort m |}.
Definition set_callbackServer (m : OAuthManager) (v : option Server) : OAuthManager :=
  {| config := config m; tokenStorage := tokenStorage m; currentPKCE := currentPKCE m;
     callbackServer := v; callbackPort := callbackPort m |}.
Definition set_callbackPort (m : OAuthManager) (v : Z) : OAuthManager :=
  {| config := config m; tokenStorage := tokenStorage m; currentPKCE := currentPKCE m;
     callbackServer := callbackServer m; callbackPort := v |}.

(** [new OAuthManager(config, tokenStorage)] with the storage given. *)
Definition new_OAuthManager (cfg : OAuthConfig) (storage : TokenStorage) : OAuthManager :=
  {| config := cfg; tokenStorage := storage; currentPKCE := None;
     callbackServer := None; callbackPort := 8080 |}.

(** A call of a method of [this.tokenStorage]. *)
Definition in_storage {A : Type} (c : M (TokenStorage * World) A)
  : M (OAuthManager * World) A :=
  fun s =>
    let r := c (tokenStorage (fst s), snd s) in
    (fst r, (set_tokenStorage (fst s) (fst (snd r)), snd (snd r))).

(** The authorization URL: its fixed part and its query parameters. *)
Record AuthorizationUrl := {
  auth_endpoint : string;
  auth_params : list (string * jsstring)
}.

(** The elements of an array joined by a separator: [scopes.join(' ')]. *)
Fixpoint join (sep : jsstring) (l : list jsstring) : jsstring :=
  match l with
  | [] => []
  | [x] => x
  | x :: rest => x ++ sep ++ join sep rest
  end.

(** The decimal digits of a number, as in a template literal. *)
Definition decimal (n : Z) : jsstring :=
  js (DecimalString.NilZero.string_of_int (Z.to_int n)).

Definition tokenEndpoint : string := "https://oauth2.googleapis.com/token".

Definition token_request (params : list (string * jsstring)) : HttpRequest :=
  {| req_url := tokenEndpoint; req_method := "POST";
     req_content_type := "application/x-www-form-urlencoded";
     req_body := params |}.

(** Socket primitives. *)

(** [http.createServer()] *)
Definition createServer : M World Server :=
  fun w =>
    (Returned (created (sockets w)),
     set_sockets w {| listen_script := listen_script (sockets w);
                      incoming := incoming (sockets w);
                      listening := listening (sockets w);
                      created := S (created (sockets w));
                      served := served (sockets w) |}).

(** A [server.listen(port, 'localhost', ...)] that fails: the script moves on. *)
Definition listen_fails : M World unit :=
  modify (fun w =>
    set_sockets w {| listen_script := tl (listen_script (sockets w));
                     incoming := incoming (sockets w);
                     listening := listening (sockets w);
                     created := created (sockets w); served := served (sockets w) |}).

(** A [server.listen(port, 'localhost', ...)] that succeeds. *)
Definition listen_succeeds (server : Server) (port : Z) : M World unit :=
  modify (fun w =>
    set_sockets w {| listen_script := tl (listen_script (sockets w));
                     incoming := incoming (sockets w);
                     listening := (server, port) :: listening (sockets w);
                     created := created (sockets w); served := served (sockets w) |}).

(** [server.close()] *)
Definition server_close (server : Server) : M World unit :=
  modify (fun w =>
    set_sockets w {| listen_script := listen_script (sockets w);
                     incoming := incoming (sockets w);
                     listening := filter (fun sp => negb (Nat.eqb (fst sp) server))
                                         (listening (sockets w));
                     created := created (sockets w); served := served (sockets w) |}).

(** The next request reaching the server before the timeout, if any. *)
Definition next_request : M World (option IncomingRequest) :=
  fun w =>
    match incoming (sockets w) with
    | [] => (Returned None, w)
    | r :: rest =>
        (Returned (Some r),
         set_sockets w {| listen_script := listen_script (sockets w); incoming := rest;
                          listening := listening (sockets w);
                          created := created (sockets w); served := served (sockets w) |})
    end.

(** [res.writeHead(status, ...); res.end(...)] *)
Definition respond (status : Z) : M World unit :=
  modify (fun w =>
    set_sockets w {| listen_script := listen_script (sockets w);
                     incoming := incoming (sockets w);
                     listening := listening (sockets w);
                     created := created (sockets w);
                     served := status :: served (sockets w) |}).

Section Manager.
Context {P : Platform}.

(** [OAuthManager.generatePKCE] *)
Definition generatePKCE : M (OAuthManager * World) PKCEChallenge :=
  verifier_ <- in_world (generateRandomString 128) ;;
  let challenge_ := generateSHA256Hash verifier_ in
  ret {| verifier := verifier_; challenge := challenge_; method := js "S256" |}.

(** [OAuthManager.getAuthorizationUrl] *)
Definition getAuthorizationUrl : M (OAuthManager * World) AuthorizationUrl :=
  pkce <- generatePKCE ;;
  set_this (fun m => set_currentPKCE m (Some pkce)) ;;;
  self <- this ;;
  state <- in_world (generateRandomString 32) ;;
  let params :=
    [("client_id", clientId (config self));
     ("redirect_uri", redirectUri (config self));
     ("response_type", js "code");
     ("scope", join (js " ") (scopes (config self)));
     ("code_challenge", challenge pkce);
     ("code_challenge_method", method pkce);
     ("access_type", js "offline");
     ("prompt", js "consent");
     ("state", state)]%string in
  ret {| auth_endpoint := "https://accounts.google.com/o/oauth2/v2/auth";
         auth_params := params |}.

(** [OAuthManager.exchangeCodeForTokens] *)
Definition exchangeCodeForTokens (code : jsstring) : M (OAuthManager * World) ref :=
  self <- this ;;
  match currentPKCE self with
  | None => throw NoPKCEChallenge
  | Some pkce =>
      let params :=
        [("client_id", clientId (config self));
         ("code", code);
         ("code_verifier", verifier pkce);
         ("grant_type", js "authorization_code");
         ("redirect_uri", redirectUri (config self))]%string in
      response <- in_world (fetch (token_request params)) ;;
      if negb (resp_ok response) then
        throw (TokenExchangeFailed (resp_status response) (resp_text response))
      else
        tokens <- in_world (response_json response) ;;
        (* Add expiration timestamp *)
        tokensWithExpiry <- in_storage (updateTokenExpiry tokens) ;;
        (* Save tokens securely *)
        in_storage (saveTokens tokensWithExpiry) ;;;
        (* Clear PKCE data *)
        set_this (fun m => set_currentPKCE m None) ;;;
        ret tokensWithExpiry
  end.

(** [OAuthManager.refreshAccessToken] *)
Definition refreshAccessToken : M (OAuthManager * World) ref :=
  existingTokens <- in_storage loadTokens ;;
  match existingTokens with
  | None => throw NoRefreshToken
  | Some existing =>
      old <- in_world (read_object existing) ;;
      if negb (truthy_string (refresh_token old)) then throw NoRefreshToken
      else
        self <- this ;;
        let params :=
          [("client_id", clientId (config self));
           ("refresh_token", match refresh_token old with Some r => r | None => [] end);
           ("grant_type", js "refresh_token")]%string in
        response <- in_world (fetch (token_request params)) ;;
        if negb (resp_ok response) then
          throw (TokenRefreshFailed (resp_status response) (resp_text response))
        else
          newTokens <- in_world (response_json response) ;;
          new <- in_world (read_object newTokens) ;;
          (* Preserve refresh token if not provided in response *)
          (if negb (truthy_string (refresh_token new)) && truthy_string (refresh_token old)
           then in_world (write_object newTokens (set_refresh_token new (refresh_token old)))
           else ret tt) ;;;
          (* Add expiration timestamp *)
          tokensWithExpiry <- in_storage (updateTokenExpiry newTokens) ;;
          (* Save updated tokens *)
          in_storage (saveTokens tokensWithExpiry) ;;;
          ret tokensWithExpiry
  end.

(** [OAuthManager.isTokenValid] *)
Definition isTokenValid : M (OAuthManager * World) bool :=
  tokens <- in_storage loadTokens ;;
  match tokens with
  | None => ret false
  | Some t =>
      expired <- in_storage (isTokenExpired t) ;;
      ret (negb expired)
  end.

(** The [listen] calls of [OAuthManager.startCallbackServer] against the
    outcomes the world has in store: every EADDRINUSE moves to the next port
    and listens again, another error rejects, and a listen without an error
    resolves with the port. *)
Fixpoint listen_from (script : list ListenOutcome) (server : Server)
  : M (OAuthManager * World) Z :=
  self <- this ;;
  match script with
  | ListenError c :: rest =>
      in_world listen_fails ;;;
      if String.eqb c "EADDRINUSE" then
        set_this (fun m => set_callbackPort m (callbackPort m + 1)) ;;;
        listen_from rest server
      else throw (SystemError c)
  | _ =>
      in_world (listen_succeeds server (callbackPort self)) ;;;
      ret (callbackPort self)
  end.

(** [OAuthManager.startCallbackServer] *)
Definition startCallbackServer : M (OAuthManager * World) Z :=
  server <- in_world createServer ;;
  set_this (fun m => set_callbackServer m (Some server)) ;;;
  script <- in_world (gets (fun w => listen_script (sockets w))) ;;
  listen_from script server.

(** The ['request'] handler of [OAuthManager.waitForCallback], run on the
    requests that arrive before the 5 minute timer fires. *)
Fixpoint handle_requests (requests : list IncomingRequest) : M World jsstring :=
  match requests with
  | [] => throw OAuthCallbackTimeout
  | req :: rest =>
      next_request ;;;
      if String.eqb (pathname req) "/oauth/callback" then
        if truthy_string (query_error req) then
          respond 400 ;;;
          throw (OAuthError (match query_error req with Some e => e | None => [] end)
                            (query_error_description req))
        else if truthy_string (query_code req) then
          respond 200 ;;;
          ret (match query_code req with Some c => c | None => [] end)
        else
          respond 400 ;;;
          throw NoAuthorizationCode
      else
        respond 404 ;;;
        handle_requests rest
  end.

(** [OAuthManager.waitForCallback] *)
Definition waitForCallback : M (OAuthManager * World) jsstring :=
  self <- this ;;
  match callbackServer self with
  | None => throw CallbackServerNotStarted
  | Some _ =>
      requests <- in_world (gets (fun w => incoming (sockets w))) ;;
      in_world (handle_requests requests)
  end.

(** [OAuthManager.stopCallbackServer] *)
Definition stopCallbackServer : M (OAuthManager * World) unit :=
  self <- this ;;
  match callbackServer self with
  | Some server =>
      in_world (server_close server) ;;;
      set_this (fun m => set_callbackServer m None)
  | None => ret tt
  end.

(** [OAuthManager.completeOAuthFlow] *)
Definition completeOAuthFlow : M (OAuthManager * World) ref :=
  try_finally
    ((* Start callback server *)
     port <- startCallbackServer ;;
     (* Update redirect URI with actual port *)
     set_this (fun m =>
       set_config m (set_redirectUri (config m)
         (js "http://localhost:" ++ decimal port ++ js "/oauth/callback"))) ;;;
     (* Get authorization URL *)
     authUrl <- getAuthorizationUrl ;;
     (* Wait for callback *)
     authCode <- waitForCallback ;;
     (* Exchange code for tokens *)
     tokens <- exchangeCodeForTokens authCode ;;
     ret tokens)
    stopCallbackServer.

(** [OAuthManager.getValidAccessToken] *)
Definition getValidAccessToken : M (OAuthManager * World) jsstring :=
  isValid <- isTokenValid ;;
  if negb isValid then
    try_catch
      (refreshedTokens <- refreshAccessToken ;;
       refreshed <- in_world (read_object refreshedTokens) ;;
       ret (access_token refreshed))
      (fun _ => throw ReauthenticationRequired)
  else
    tokens <- in_storage loadTokens ;;
    match tokens with
    | None => throw NoTokensAvailable
    | Some t =>
        stored <- in_world (read_object t) ;;
        ret (access_token stored)
    end.

End Manager.

(** ** A small platform and world, for running the model on examples

    The theorems below hold for every [Platform]; the examples run the code
    on this one.  Its cipher is a counter-mode xor with a key stream read off
    the key and the IV, its JSON for envelopes separates the three fields by
    commas, and its JSON for token sets is a finite table of documents. *)

Definition TokenSet_eq_dec (a b : TokenSet) : {a = b} + {a <> b}.
Proof. repeat decide equality. Defined.

Definition toy_keystream (key iv_ : list byte) (i : nat) : byte :=
  byte_xor (nth (i mod 32) key Byte.x00) (nth (i mod 16) iv_ Byte.x00).

Definition toy_tag (key iv_ aad ciphertext : list byte) (i : nat) : byte :=
  fold_right byte_xor (nth i key Byte.x00)
             (nth i iv_ Byte.x00 :: nth i aad Byte.x00 :: ciphertext).

Definition toy_pbkdf2 (password salt_ : list byte) (iterations keylen : Z) : list byte :=
  map (fun i => byte_xor (nth i password Byte.x00) (nth i salt_ Byte.x00))
      (seq 0 (Z.to_nat keylen)).

Definition toy_sha256 (input : list byte) : list byte :=
  firstn 32 (input ++ repeat Byte.x00 32).

(** The text before the first comma, and the text after it. *)
Fixpoint split_comma (s : jsstring) : option (jsstring * jsstring) :=
  match s with
  | [] => None
  | c :: rest =>
      if c =? 44 then Some ([], rest)
      else match split_comma rest with
           | Some (a, b) => Some (c :: a, b)
           | None => None
           end
  end.

Definition toy_stringify_envelope (e : EncryptedData) : jsstring :=
  data e ++ 44 :: iv e ++ 44 :: salt e.

Definition toy_parse_envelope (s : jsstring) : option EncryptedData :=
  match split_comma s with
  | Some (d, rest) =>
      match split_comma rest with
      | Some (i, s') => Some {| data := d; iv := i; salt := s' |}
      | None => None
      end
  | None => None
  end.

Definition toy_stringify_tokens (documents : list (TokenSet * jsstring)) (t : TokenSet)
  : jsstring :=
  match find (fun d => if TokenSet_eq_dec (fst d) t then true else false) documents with
  | Some d => snd d
  | None => js "{}"
  end.

Definition toy_parse_tokens (documents : list (TokenSet * jsstring)) (s : jsstring)
  : option TokenSet :=
  match find (fun d => jsstring_eqb (snd d) s) documents with
  | Some d => Some (fst d)
  | None => None
  end.

Definition toy_platform (documents : list (TokenSet * jsstring)) : Platform :=
  {| aes256_gcm_keystream := toy_keystream;
     aes256_gcm_tag := toy_tag;
     pbkdf2_sha256 := toy_pbkdf2;
     sha256 := toy_sha256;
     JSON_stringify_TokenSet := toy_stringify_tokens documents;
     JSON_parse_TokenSet := toy_parse_tokens documents;
     JSON_stringify_EncryptedData := toy_stringify_envelope;
     JSON_parse_EncryptedData := toy_parse_envelope |}.

Definition bare_token (access : string) : TokenSet :=
  {| access_token := js access; refresh_token := None; expires_in := None;
     token_type := None; scope := None; expires_at := None |}.

(** A world at 2023-11-14T22:13:20Z whose clock stands still, with an empty
    file system, a counting random source and no network replies. *)
Definition toy_world : World :=
  {| clock := {| readings := fun _ => 1700000000000; ticks := 0 |};
     random := {| entropy := fun i => byte_of_Z (Z.of_nat i); drawn := 0 |};
     os := {| homedir := "/home/user"; hostname := js "host"; username := Some (js "user") |};
     fs := {| files := fun _ => Missing; mkdir_fault := None; write_fault := None;
              chmod_fault := None; unlink_fault := None |};
     heap := {| objects := fun _ => bare_token ""; allocated := 0 |};
     network := {| replies := []; sent := [] |};
     sockets := {| listen_script := []; incoming := []; listening := [];
                   created := 0; served := [] |} |}.

Definition toy_key : list byte := repeat Byte.x2a 32.

(** A record as the provider issues it, its document in the small platform,
    and a storage on the default path. *)
Definition sample_tokens : TokenSet :=
  {| access_token := js "at-1"; refresh_token := Some (js "rt-1");
     expires_in := Some 3600; token_type := Some (js "Bearer");
     scope := Some (js "https://www.googleapis.com/auth/tasks");
     expires_at := None |}.

(** The same record, stored with an expiry long past, and stored with an
    empty refresh token. *)
Definition expired_tokens : TokenSet := set_expires_at sample_tokens (Some 1600003600).

Definition tokens_with_empty_refresh : TokenSet := set_refresh_token sample_tokens (Some []).

Definition sample_documents : list (TokenSet * jsstring) :=
  [(sample_tokens, js "{'access_token':'at-1','refresh_token':'rt-1','expires_in':3600}");
   (expired_tokens,
    js "{'access_token':'at-1','refresh_token':'rt-1','expires_in':3600,'expires_at':1600003600}");
   (tokens_with_empty_refresh,
    js "{'access_token':'at-1','refresh_token':'','expires_in':3600}")].

Definition sample_storage : TokenStorage :=
  {| tokenFilePath := "/home/user/.google-tasks-mcp/tokens.enc";
     configDir := "/home/user/.google-tasks-mcp";
     encryptionKey := None |}.

(** ** Vocabulary for the proofs *)

(** [frames R c]: whatever its outcome, [c] relates the state it starts in to
    the state it ends in by [R]. *)
Definition frames {S A : Type} (R : S -> S -> Prop) (c : M S A) : Prop :=
  forall s, R s (snd (c s)).

(** The listening servers are the same. *)
Definition same_listeners (w w' : World) : Prop :=
  listening (sockets w') = listening (sockets w).

(** The callback server of the manager and the listening servers are the same. *)
Definition same_server (s s' : OAuthManager * World) : Prop :=
  callbackServer (fst s') = callbackServer (fst s) /\ same_listeners (snd s) (snd s').

(** No request has been sent. *)
Definition nothing_sent (w w' : World) : Prop :=
  sent (network w') = sent (network w).

(** At most [n] requests have been sent. *)
Definition sent_at_most (n : nat) (w w' : World) : Prop :=
  exists requests,
    sent (network w') = requests ++ sent (network w) /\ (length requests <= n)%nat.

(** A relation between worlds, as a relation between the states of an object. *)
Definition on_world {S : Type} (Rw : World -> World -> Prop) (s s' : S * World) : Prop :=
  Rw (snd s) (snd s').

(** The manager holds the server this call created, and any server listening
    now was listening before or is that server. *)
Definition server_started (s s' : OAuthManager * World) : Prop :=
  callbackServer (fst s') = Some (created (sockets (snd s))) /\
  forall sp, In sp (listening (sockets (snd s'))) ->
             In sp (listening (sockets (snd s))) \/ fst sp = created (sockets (snd s)).

(** [throws_only E c]: every error [c] throws satisfies [E]. *)
Definition throws_only {S A : Type} (E : JsError -> Prop) (c : M S A) : Prop :=
  forall s e, fst (c s) = Threw e -> E e.

Definition sample_config : OAuthConfig :=
  {| clientId := js "client-1";
     redirectUri := js "http://localhost:8080/oauth/callback";
     scopes := [js "https://www.googleapis.com/auth/tasks"] |}.

Definition sample_manager : OAuthManager := new_OAuthManager sample_config sample_storage.

(** The record a provider reissues, with the refresh token and the lifetime
    it chooses to send, and the successful response carrying a record. *)
Definition reissued (refresh : option jsstring) (lifetime : option Z) : TokenSet :=
  {| access_token := js "at-2"; refresh_token := refresh; expires_in := lifetime;
     token_type := Some (js "Bearer"); scope := None; expires_at := None |}.

Definition response_with (t : TokenSet) : Response :=
  {| resp_ok := true; resp_status := 200; resp_text := js ""; resp_json := Some t |}.

(** The small world after [saveTokens] has stored record [t], with the
    answers the token endpoint will give. *)
Definition world_storing (t : TokenSet) (answers : list FetchOutcome) : World :=
  let w := snd (new_object t toy_world) in
  let saved := snd (snd (@saveTokens (toy_platform sample_documents) 0%nat
                                     (sample_storage, w))) in
  set_network saved {| replies := answers; sent := [] |}.

(** The world with one more file, with requests arriving at the callback
    server, with a listen script, and at a later time. *)
Definition with_file (w : World) (path : string) (content : jsstring) : World :=
  set_fs w (set_file (fs w) path (File (utf8_encode content) 384)).

Definition with_incoming (w : World) (requests : list IncomingRequest) : World :=
  set_sockets w {| listen_script := listen_script (sockets w); incoming := requests;
                   listening := listening (sockets w); created := created (sockets w);
                   served := served (sockets w) |}.

Definition with_listen_script (w : World) (script : list ListenOutcome) : World :=
  set_sockets w {| listen_script := script; incoming := incoming (sockets w);
                   listening := listening (sockets w); created := created (sockets w);
                   served := served (sockets w) |}.

Definition with_replies (w : World) (answers : list FetchOutcome) : World :=
  set_network w {| replies := answers; sent := sent (network w) |}.

Definition seconds_later (w : World) (n : Z) : World :=
  set_clock w {| readings := fun i => readings (clock w) i + 1000 * n;
                 ticks := ticks (clock w) |}.

(** The redirect of the browser after consent, and after a refusal. *)
Definition callback_with_code : IncomingRequest :=
  {| pathname := "/oauth/callback"; query_code := Some (js "4/0AX4");
     query_error := None; query_error_description := None |}.

Definition callback_with_error : IncomingRequest :=
  {| pathname := "/oauth/callback"; query_code := None;
     query_error := Some (js "access_denied");
     query_error_description := Some (js "user declined") |}.

Definition favicon_request : IncomingRequest :=
  {| pathname := "/favicon.ico"; query_code := None; query_error := None;
     query_error_description := None |}.

(* ===================================================================== *)
(** * Part I, continued: the rest of the three classes, the error handler
      and the client of the Google Tasks API                               *)
(* ===================================================================== *)

(** ** More of JavaScript's strings and arrays *)

(** [haystack.startsWith(needle)] and [haystack.includes(needle)] *)
Fixpoint startsWith (haystack needle : jsstring) : bool :=
  match needle, haystack with
  | [], _ => true
  | n :: needle', h :: haystack' => (h =? n) && startsWith haystack' needle'
  | _ :: _, [] => false
  end.

Fixpoint includes (haystack needle : jsstring) : bool :=
  startsWith haystack needle
  || match haystack with
     | [] => false
     | _ :: rest => includes rest needle
     end.

(** [s.split(sep)] for a separator [sep] of one code unit: the pieces between
    the separators; the empty string has the one piece ['']. *)
Fixpoint split (sep : Z) (s : jsstring) : list jsstring :=
  match s with
  | [] => [[]]
  | c :: rest =>
      if c =? sep then [] :: split sep rest
      else match split sep rest with
           | piece :: pieces => (c :: piece) :: pieces
           | [] => [[c]]
           end
  end.

(** [array.includes(x)] on numbers *)
Definition includes_number (array : list Z) (x : Z) : bool := existsb (Z.eqb x) array.

(** [array[i]]: [undefined] outside the array. *)
Definition at_index {A : Type} (array : list A) (i : Z) : option A :=
  if i <? 0 then None else nth_error array (Z.to_nat i).

(** [a ?? b] *)
Definition nullish {A : Type} (a : option A) (b : A) : A :=
  match a with
  | Some v => v
  | None => b
  end.

(** [new URLSearchParams(...).get(name)]: the first value under a name. *)
Fixpoint param (name : string) (params : list (string * jsstring)) : option jsstring :=
  match params with
  | [] => None
  | (n, v) :: rest => if String.eqb n name then Some v else param name rest
  end.

(** The characters of the two alphabets the code writes binary data in. *)
Definition is_hex_digit (c : Z) : bool :=
  ((48 <=? c) && (c <=? 57)) || ((97 <=? c) && (c <=? 102)).

Definition is_base64url_char (c : Z) : bool :=
  ((65 <=? c) && (c <=? 90)) || ((97 <=? c) && (c <=? 122))
  || ((48 <=? c) && (c <=? 57)) || (c =? 45) || (c =? 95).

(** ** [utils/crypto.ts]: the rest of [CryptoManager] *)

(** [CryptoManager.generateKey] *)
Definition generateKey : M World (list byte) :=
  randomBytes (Z.to_nat KEY_LENGTH).

(** How a call ends that may throw a value of type [E]. *)
Inductive Completion (E A : Type) : Type :=
| Fulfilled (a : A)
| Thrown (e : E).
Arguments Fulfilled {E A} a.
Arguments Thrown {E A} e.

(** The RangeError of [crypto.timingSafeEqual] *)
Inductive RangeError := ERR_CRYPTO_TIMING_SAFE_EQUAL_LENGTH.

(** [crypto.timingSafeEqual(a, b)]: the buffers must have the same byte
    length. *)
Definition timingSafeEqual (a b : list byte) : Completion RangeError bool :=
  if Nat.eqb (length a) (length b)
  then Fulfilled (if list_eq_dec Byte.byte_eq_dec a b then true else false)
  else Thrown ERR_CRYPTO_TIMING_SAFE_EQUAL_LENGTH.

(** [CryptoManager.secureCompare]; [a.length] counts UTF-16 code units,
    [Buffer.from(a)] holds the UTF-8 bytes. *)
Definition secureCompare (a b : jsstring) : Completion RangeError bool :=
  if negb (Nat.eqb (length a) (length b)) then Fulfilled false
  else
    let bufferA := utf8_encode a in
    let bufferB := utf8_encode b in
    timingSafeEqual bufferA bufferB.

(** ** [auth/oauth-manager.ts]: the rest of [OAuthManager] *)

Module AuthStatus.
Record t := {
  isAuthenticated : bool;
  hasValidToken : bool;
  tokenExpiry : option Z;
  scopes : option (list jsstring)
}.
End AuthStatus.

Section ManagerRest.
Context {P : Platform}.

(** [OAuthManager.getAuthStatus] *)
Definition getAuthStatus : M (OAuthManager * World) AuthStatus.t :=
  hasTokens_ <- in_storage hasTokens ;;
  isValid <- (if hasTokens_ : bool then isTokenValid else ret false) ;;
  expiry_and_scopes <-
    (if hasTokens_ : bool then
       tokens <- in_storage loadTokens ;;
       match tokens with
       | Some r =>
           t <- in_world (read_object r) ;;
           ret (expires_at t, option_map (split 32) (scope t))
       | None => ret (None, None)
       end
     else ret (None, None)) ;;
  ret {| AuthStatus.isAuthenticated := hasTokens_;
         AuthStatus.hasValidToken := isValid;
         AuthStatus.tokenExpiry := fst expiry_and_scopes;
         AuthStatus.scopes := snd expiry_and_scopes |}.

(** [OAuthManager.clearTokens] (logout) *)
Definition manager_clearTokens : M (OAuthManager * World) unit :=
  in_storage clearTokens.

(** [OAuthManager.getValidTokens]; [None] is [null]. *)
Definition getValidTokens : M (OAuthManager * World) (option ref) :=
  isValid <- isTokenValid ;;
  if negb isValid then
    try_catch
      (refreshed <- refreshAccessToken ;;
       ret (Some refreshed))
      (fun _ => ret None)
  else
    in_storage loadTokens.

(** [OAuthManager.getClientId] and [OAuthManager.getRedirectUri] *)
Definition getClientId : M (OAuthManager * World) jsstring :=
  self <- this ;;
  ret (clientId (config self)).

Definition getRedirectUri : M (OAuthManager * World) jsstring :=
  self <- this ;;
  ret (redirectUri (config self)).

End ManagerRest.

(** ** More vocabulary for the proofs *)

(** The world in which the next [chmod] fails, or not. *)
Definition with_chmod_fault (w : World) (f : option io_fault) : World :=
  set_fs w {| files := files (fs w); mkdir_fault := mkdir_fault (fs w);
              write_fault := write_fault (fs w); chmod_fault := f;
              unlink_fault := unlink_fault (fs w) |}.

(** [keeps_on_throw R c]: when [c] throws, the state it leaves is related by
    [R] to the state it started in. *)
Definition keeps_on_throw {S A : Type} (R : S -> S -> Prop) (c : M S A) : Prop :=
  forall s e, fst (c s) = Threw e -> R s (snd (c s)).

(** [never_throws c] *)
Definition never_throws {S A : Type} (c : M S A) : Prop :=
  forall s, exists a, fst (c s) = Returned a.

(** [alike R c]: from states related by [R], [c] has the same outcome and
    leaves states related by [R]. *)
Definition alike {S A : Type} (R : S -> S -> Prop) (c : M S A) : Prop :=
  forall s1 s2, R s1 s2 -> fst (c s1) = fst (c s2) /\ R (snd (c s1)) (snd (c s2)).


(** The worlds differ at most in whether [chmod] will fail. *)
Definition same_but_chmod (w w' : World) : Prop :=
  clock w' = clock w /\ random w' = random w /\ os w' = os w /\ heap w' = heap w /\
  network w' = network w /\ sockets w' = sockets w /\
  files (fs w') = files (fs w) /\ mkdir_fault (fs w') = mkdir_fault (fs w) /\
  write_fault (fs w') = write_fault (fs w) /\ unlink_fault (fs w') = unlink_fault (fs w).


(** The same storage in worlds that differ at most in whether [chmod] will
    fail. *)
Definition same_storage_but_chmod (s s' : TokenStorage * World) : Prop :=
  fst s' = fst s /\ same_but_chmod (snd s) (snd s').

(** The manager has the configuration and the port it had, and no request
    has been sent. *)
Definition manager_kept (s s' : OAuthManager * World) : Prop :=
  config (fst s') = config (fst s) /\ callbackPort (fst s') = callbackPort (fst s) /\
  nothing_sent (snd s) (snd s').

(** The script of a port that is busy [k] times over. *)
Definition busy (k : nat) : list ListenOutcome := repeat (ListenError "EADDRINUSE") k.

(** A request to another path than that of the callback. *)
Definition elsewhere (request : IncomingRequest) : Prop :=
  pathname request <> "/oauth/callback"%string.

(** The world after [k] attempts to listen have failed. *)
Fixpoint after_listen_failures (k : nat) (w : World) : World :=
  match k with
  | O => w
  | S k' => after_listen_failures k' (snd (listen_fails w))
  end.

(** The manager has the configuration and the port it had, and at most one
    request has been sent, with the redirect URI of that configuration. *)
Definition sends_redirect (s s' : OAuthManager * World) : Prop :=
  config (fst s') = config (fst s) /\ callbackPort (fst s') = callbackPort (fst s) /\
  (sent (network (snd s')) = sent (network (snd s)) \/
   exists request,
     sent (network (snd s')) = request :: sent (network (snd s)) /\
     param "redirect_uri" (req_body request) = Some (redirectUri (config (fst s)))).

(** ** [google/api-types.ts]

    The interfaces of the Google Tasks API, one module each; the constant
    [kind] fields are left out. *)

Module TaskStatus.
Inductive t := needsAction | completed.
End TaskStatus.

Module GoogleTaskList.
Record t := {
  id : option jsstring;
  etag : option jsstring;
  title : option jsstring;
  updated : option jsstring;
  selfLink : option jsstring
}.
End GoogleTaskList.

Module GoogleTaskLink.
Record t := {
  type : option jsstring;
  description : option jsstring;
  link : option jsstring
}.
End GoogleTaskLink.

Module GoogleTask.
Record t := {
  id : option jsstring;
  etag : option jsstring;
  title : option jsstring;
  updated : option jsstring;
  selfLink : option jsstring;
  parent : option jsstring;
  position : option jsstring;
  notes : option jsstring;
  status : option TaskStatus.t;
  due : option jsstring;
  completed : option jsstring;
  deleted : option bool;
  hidden : option bool;
  links : option (list GoogleTaskLink.t)
}.
End GoogleTask.

Module GoogleTaskListsResponse.
Record t := {
  etag : option jsstring;
  nextPageToken : option jsstring;
  items : option (list GoogleTaskList.t)
}.
End GoogleTaskListsResponse.

Module GoogleTasksResponse.
Record t := {
  etag : option jsstring;
  nextPageToken : option jsstring;
  items : option (list GoogleTask.t)
}.
End GoogleTasksResponse.

Module GoogleApiError.
Record detail := {
  at_type : jsstring;   (* '@type' *)
  reason : option jsstring;
  domain : option jsstring;
  metadata : option (list (jsstring * jsstring))
}.
(** The object under [error]. *)
Record body := {
  code : Z;
  message : jsstring;
  status : jsstring;
  details : option (list detail)
}.
Record t := {
  error : body
}.
End GoogleApiError.

Module CreateTaskParams.
Record t := {
  taskListId : jsstring;
  title : jsstring;
  notes : option jsstring;
  due : option jsstring;
  parent : option jsstring;
  previous : option jsstring
}.
End CreateTaskParams.

Module UpdateTaskParams.
Record t := {
  taskListId : jsstring;
  taskId : jsstring;
  title : option jsstring;
  notes : option jsstring;
  status : option TaskStatus.t;
  due : option jsstring;
  completed : option jsstring
}.
End UpdateTaskParams.

Module MoveTaskParams.
Record t := {
  taskListId : jsstring;
  taskId : jsstring;
  parent : option jsstring;
  previous : option jsstring
}.
End MoveTaskParams.

(** [operation] is 'insert', 'update' or 'delete' at its type and any string
    at run time, where the [switch] has a [default]; [task] is a
    [Partial<GoogleTask>]. *)
Module BatchOperation.
Record t := {
  operation : jsstring;
  taskListId : jsstring;
  taskId : option jsstring;
  task : option GoogleTask.t
}.
End BatchOperation.

Module BatchResult.
Record entry := {
  operation : jsstring;
  success : bool;
  result : option GoogleTask.t;
  error : option GoogleApiError.t
}.
Record t := {
  operations : list entry
}.
End BatchResult.

(** ** Values thrown and caught in the Google layer

    What [catch (error)] receives, as far as the code looks into it:
    [error.message], [error.response.status] and [error.response.data.error].
    An [Error] object made by [new Error(message)] has a message and no
    response.  The values are those whose properties can be read: a promise
    rejected with [null] or [undefined] is not among them. *)
Record ResponseData := {
  data_error : option GoogleApiError.body
}.

Record ErrorResponse := {
  response_status : option Z;
  response_data : option ResponseData
}.

Record ErrorValue := {
  error_message : option jsstring;
  error_response : option ErrorResponse
}.

Definition new_Error (message : jsstring) : ErrorValue :=
  {| error_message := Some message; error_response := None |}.

(** What the host adds to the code: the texts of the errors Node.js raises
    and the ISO format of a date. *)
Class Host := {
  (** [error.message] of an error raised by Node.js *)
  node_message : JsError -> jsstring;
  (** [new Date(ms).toISOString()] *)
  Date_toISOString : Z -> jsstring
}.

(** [`${x}`] of a value that may be [undefined]. *)
Definition interpolate (x : option jsstring) : jsstring :=
  match x with
  | Some s => s
  | None => js "undefined"
  end.

(** [error.message] of the errors of the authentication layer. *)
Fixpoint message_of {H : Host} (e : JsError) : jsstring :=
  match e with
  | FailedToLoadTokens cause => js "Failed to load tokens: " ++ message_of cause
  | FailedToClearTokens cause => js "Failed to clear tokens: " ++ message_of cause
  | NoPKCEChallenge => js "No PKCE challenge found. Must call getAuthorizationUrl() first."
  | TokenExchangeFailed status body =>
      js "Token exchange failed: " ++ decimal status ++ js " " ++ body
  | NoRefreshToken => js "No refresh token available. Re-authentication required."
  | TokenRefreshFailed status body =>
      js "Token refresh failed: " ++ decimal status ++ js " " ++ body
  | ReauthenticationRequired => js "Token refresh failed. Re-authentication required."
  | NoTokensAvailable => js "No tokens available. Authentication required."
  | CallbackServerNotStarted => js "Callback server not started"
  | OAuthCallbackTimeout => js "OAuth callback timeout"
  | OAuthError error error_description =>
      js "OAuth error: " ++ error ++ js " - " ++ interpolate error_description
  | NoAuthorizationCode => js "No authorization code received"
  | SystemError _ | SyntaxError | FetchFailed | InvalidKeyLength | InvalidIV
  | InvalidAuthTagLength | UnableToAuthenticate => node_message e
  end.

(** An error of the authentication layer, as the Google layer catches it. *)
Definition auth_error {H : Host} (e : JsError) : ErrorValue :=
  new_Error (message_of e).

(** ** Asynchronous computations of the Google layer

    As [M], with the values of this layer for what is thrown. *)
Module Async.

Definition t (S A : Type) : Type := S -> Completion ErrorValue A * S.

Definition ret {S A : Type} (a : A) : t S A := fun s => (Fulfilled a, s).

Definition throw {S A : Type} (e : ErrorValue) : t S A := fun s => (Thrown e, s).

Definition bind {S A B : Type} (c : t S A) (k : A -> t S B) : t S B :=
  fun s =>
    match fst (c s) with
    | Fulfilled a => k a (snd (c s))
    | Thrown e => (Thrown e, snd (c s))
    end.

(** [try { c } catch (error) { h error }] *)
Definition catch {S A : Type} (c : t S A) (h : ErrorValue -> t S A) : t S A :=
  fun s =>
    match fst (c s) with
    | Fulfilled a => (Fulfilled a, snd (c s))
    | Thrown e => h e (snd (c s))
    end.

Definition gets {S A : Type} (f : S -> A) : t S A := fun s => (Fulfilled (f s), s).

Definition modify {S : Type} (f : S -> S) : t S unit := fun s => (Fulfilled tt, f s).

End Async.

Notation "x <~ c ;; k" := (Async.bind c (fun x => k))
  (at level 61, c at next level, right associativity).
Notation "c ~;; k" := (Async.bind c (fun _ => k))
  (at level 61, right associativity).

(** ** The Google Tasks service and the timers *)

Record Credentials := {
  cred_access_token : jsstring;
  cred_refresh_token : option jsstring;
  cred_token_type : jsstring
}.

(** The body of a request that writes a task. *)
Record TaskBody := {
  body_id : option jsstring;
  body_title : option jsstring;
  body_notes : option jsstring;
  body_status : option TaskStatus.t;
  body_due : option jsstring;
  body_completed : option jsstring
}.

(** The calls of [tasksApi], with their parameters. *)
Inductive ApiCall :=
| tasklists_list (maxResults : Z)
| tasklists_insert (title : jsstring)
| tasklists_update (tasklist : jsstring) (id title : jsstring)
| tasklists_delete (tasklist : jsstring)
| tasks_list (tasklist : jsstring) (maxResults : Z)
             (showCompleted showDeleted showHidden : bool)
| tasks_get (tasklist task : jsstring)
| tasks_insert (tasklist : jsstring) (requestBody : TaskBody)
               (parent previous : option jsstring)
| tasks_update (tasklist task : jsstring) (requestBody : TaskBody)
| tasks_delete (tasklist task : jsstring)
| tasks_move (tasklist task : jsstring) (parent previous : option jsstring)
| tasks_clear (tasklist : jsstring).

(** The answer to a call: [response.data], or the error the call rejects
    with. *)
Inductive ApiReply (X : Type) : Type :=
| Data (data : X)
| Failure (error : ErrorValue).
Arguments Data {X} data.
Arguments Failure {X} error.

(** The service: its answer to the call number [n], read at the type of
    [response.data] for the method called, and the calls made so far, latest
    first, each with the credentials the OAuth2 client then had. *)
Record GoogleApi := {
  answer_tasklists : nat -> ApiReply GoogleTaskListsResponse.t;
  answer_tasklist : nat -> ApiReply GoogleTaskList.t;
  answer_tasks : nat -> ApiReply GoogleTasksResponse.t;
  answer_task : nat -> ApiReply GoogleTask.t;
  answer_void : nat -> ApiReply unit;
  calls : list (option Credentials * ApiCall)
}.

Record Runtime := {
  world : World;
  slept : list Z;      (* the delays of the timers awaited so far, latest first *)
  google : GoogleApi
}.

Definition set_world (r : Runtime) (w : World) : Runtime :=
  {| world := w; slept := slept r; google := google r |}.

(** A computation on the runtime, run by an object with fields [S]. *)
Definition in_runtime {S A : Type} (c : Async.t Runtime A) : Async.t (S * Runtime) A :=
  fun s => (fst (c (snd s)), (fst s, snd (c (snd s)))).

Definition self {S : Type} : Async.t (S * Runtime) S := Async.gets fst.

Definition set_self {S : Type} (f : S -> S) : Async.t (S * Runtime) unit :=
  Async.modify (fun s => (f (fst s), snd s)).

(** [await new Promise(resolve => setTimeout(resolve, delay))] *)
Definition sleep (delay : Z) : Async.t Runtime unit :=
  Async.modify (fun r => {| world := world r; slept := delay :: slept r; google := google r |}).

(** [Date.now()] in this layer *)
Definition now : Async.t Runtime Z :=
  fun r => (Fulfilled (readings (clock (world r)) (ticks (clock (world r)))),
            set_world r (snd (Date_now (world r)))).

(** ** [google/error-handler.ts] *)

Definition RETRY_DELAYS : list Z := [1000; 2000; 4000; 8000; 16000].
Definition MAX_RETRIES : Z := 5.
Definition RATE_LIMIT_CODES : list Z := [429; 403].
Definition TOKEN_ERROR_CODES : list Z := [401; 403].

(** [error.response?.status] *)
Definition status_of (error : ErrorValue) : option Z :=
  match error_response error with
  | Some response => response_status response
  | None => None
  end.

(** [GoogleApiErrorHandler.isRetryableError] *)
Definition isRetryableError (error : ErrorValue) : bool :=
  if negb (truthy_number (status_of error)) then false
  else
    match status_of error with
    | Some status =>
        (status >=? 500)
        || includes_number RATE_LIMIT_CODES status
        || (status =? 408)
        || (status =? 409)
    | None => false
    end.

(** [GoogleApiErrorHandler.isTokenError] *)
Definition isTokenError (error : ErrorValue) : bool :=
  if negb (truthy_number (status_of error)) then false
  else
    match status_of error with
    | Some status => includes_number TOKEN_ERROR_CODES status
    | None => false
    end.

(** [GoogleApiErrorHandler.getRetryDelay] *)
Definition getRetryDelay (attempt : Z) : Z :=
  if attempt >=? Z.of_nat (length RETRY_DELAYS) then
    nullish (at_index RETRY_DELAYS (Z.of_nat (length RETRY_DELAYS) - 1)) 16000
  else
    nullish (at_index RETRY_DELAYS attempt) 1000.

(** [GoogleApiErrorHandler.getStatusText] *)
Definition getStatusText (code : Z) : jsstring :=
  let statusTexts : list (Z * jsstring) :=
    [(400, js "INVALID_ARGUMENT");
     (401, js "UNAUTHENTICATED");
     (403, js "PERMISSION_DENIED");
     (404, js "NOT_FOUND");
     (408, js "DEADLINE_EXCEEDED");
     (409, js "ABORTED");
     (429, js "RESOURCE_EXHAUSTED");
     (500, js "INTERNAL");
     (502, js "UNAVAILABLE");
     (503, js "UNAVAILABLE");
     (504, js "DEADLINE_EXCEEDED")] in
  match find (fun entry => fst entry =? code) statusTexts with
  | Some entry => snd entry
  | None => js "UNKNOWN"
  end.

(** [error.response?.data?.error] *)
Definition data_error_of (error : ErrorValue) : option GoogleApiError.body :=
  match error_response error with
  | Some response =>
      match response_data response with
      | Some data => data_error data
      | None => None
      end
  | None => None
  end.

(** [GoogleApiErrorHandler.parseGoogleApiError] *)
Definition parseGoogleApiError (error : ErrorValue) : GoogleApiError.t :=
  match data_error_of error with
  | Some body => {| GoogleApiError.error := body |}
  | None =>
      let status := if truthy_number (status_of error)
                    then nullish (status_of error) 500 else 500 in
      let message := if truthy_string (error_message error)
                     then nullish (error_message error) []
                     else js "Unknown error occurred" in
      {| GoogleApiError.error :=
           {| GoogleApiError.code := status;
              GoogleApiError.message := message;
              GoogleApiError.status := getStatusText status;
              GoogleApiError.details := Some [] |} |}
  end.

(** The ASCII capitals lowered.  Of all code units only R, A, T and E are
    lowered by [toLowerCase] to the letters r, a, t and e, and [toLowerCase]
    removes no code unit, so [message.toLowerCase().includes('rate')] is
    decided by lowering the ASCII capitals. *)
Definition toLowerCase_ascii (s : jsstring) : jsstring :=
  map (fun c => if (65 <=? c) && (c <=? 90) then c + 32 else c) s.

(** [GoogleApiErrorHandler.createUserFriendlyMessage] *)
Definition createUserFriendlyMessage (error : GoogleApiError.t) : jsstring :=
  let code := GoogleApiError.code (GoogleApiError.error error) in
  let message := GoogleApiError.message (GoogleApiError.error error) in
  if code =? 400 then js "Invalid request: " ++ message
  else if code =? 401 then js "Authentication failed. Please re-authenticate."
  else if code =? 403 then
    if includes (toLowerCase_ascii message) (js "rate")
    then js "Rate limit exceeded. Please try again later."
    else js "Access denied. Check your permissions."
  else if code =? 404 then js "The requested resource was not found."
  else if code =? 409 then js "Conflict: The resource has been modified by another request."
  else if code =? 429 then js "Too many requests. Please wait and try again."
  else if (code =? 500) || (code =? 502) || (code =? 503) || (code =? 504)
  then js "Google API is temporarily unavailable. Please try again."
  else js "API error (" ++ decimal code ++ js "): " ++ message.

(** The error [executeWithRetry] throws for an error it gives up on. *)
Definition friendly_error (error : ErrorValue) (context : option jsstring) : ErrorValue :=
  let googleError := parseGoogleApiError error in
  let contextMessage := if truthy_string context
                        then js " during " ++ nullish context []
                        else [] in
  new_Error (createUserFriendlyMessage googleError ++ contextMessage).

(** [parseGoogleApiError(undefined)]: a TypeError. *)
Definition undefined_has_no_response : ErrorValue :=
  new_Error (js "Cannot read properties of undefined (reading 'response')").

Section Handler.
Context {S : Type}.

(** The statements after the loop of [executeWithRetry]. *)
Definition after_the_loop {A : Type} (lastError : option ErrorValue) (context : option jsstring)
  : Async.t (S * Runtime) A :=
  match lastError with
  | Some error => Async.throw (friendly_error error context)
  | None => Async.throw undefined_has_no_response
  end.

(** The loop of [executeWithRetry] from [attempt] on; [remaining] bounds the
    iterations that are left. *)
Fixpoint retry_loop {A : Type} (remaining : nat) (attempt : Z) (lastError : option ErrorValue)
         (operation : Async.t (S * Runtime) A) (context : option jsstring)
  : Async.t (S * Runtime) A :=
  match remaining with
  | O => after_the_loop lastError context
  | Datatypes.S remaining' =>
      if attempt <? MAX_RETRIES then
        Async.catch
          (result <~ operation ;;
           Async.ret result)
          (fun error =>
             if negb (isRetryableError error) then
               Async.throw (friendly_error error context)
             else if attempt =? MAX_RETRIES - 1 then
               after_the_loop (Some error) context (* break *)
             else
               let delay := getRetryDelay attempt in
               in_runtime (sleep delay) ~;;
               retry_loop remaining' (attempt + 1) (Some error) operation context)
      else after_the_loop lastError context
  end.

(** [GoogleApiErrorHandler.executeWithRetry] *)
Definition executeWithRetry {A : Type} (operation : Async.t (S * Runtime) A)
           (context : option jsstring) : Async.t (S * Runtime) A :=
  retry_loop (Z.to_nat MAX_RETRIES) 0 None operation context.

End Handler.

(** The closure [createRateLimiter] returns, with its variable. *)
Record RateLimiter := {
  lastRequestTime : Z
}.

Definition MIN_INTERVAL : Z := 100.

(** [GoogleApiErrorHandler.createRateLimiter] *)
Definition createRateLimiter : RateLimiter :=
  {| lastRequestTime := 0 |}.

(** A call of the rate limiter. *)
Definition rateLimiter_call : Async.t (RateLimiter * Runtime) unit :=
  limiter <~ self ;;
  now_ <~ in_runtime now ;;
  let timeSinceLastRequest := now_ - lastRequestTime limiter in
  (if timeSinceLastRequest <? MIN_INTERVAL then
     let delay := MIN_INTERVAL - timeSinceLastRequest in
     in_runtime (sleep delay)
   else Async.ret tt) ~;;
  now2 <~ in_runtime now ;;
  set_self (fun _ => {| lastRequestTime := now2 |}).

(** ** [google/tasks-client.ts] *)

(** The OAuth2 client of googleapis, as far as the code sets it up. *)
Record OAuth2Client := {
  oauth2_clientId : jsstring;
  oauth2_clientSecret : jsstring;
  oauth2_redirectUri : jsstring;
  credentials : option Credentials
}.

Definition setCredentials (c : OAuth2Client) (v : Credentials) : OAuth2Client :=
  {| oauth2_clientId := oauth2_clientId c; oauth2_clientSecret := oauth2_clientSecret c;
     oauth2_redirectUri := oauth2_redirectUri c; credentials := Some v |}.

(** [tasksApi] is the service of the runtime, called with [oauth2Client] for
    its authentication. *)
Record GoogleTasksClient := {
  authManager : OAuthManager;
  rateLimiter : RateLimiter;
  oauth2Client : OAuth2Client
}.

Definition set_authManager (c : GoogleTasksClient) (v : OAuthManager) : GoogleTasksClient :=
  {| authManager := v; rateLimiter := rateLimiter c; oauth2Client := oauth2Client c |}.
Definition set_rateLimiter (c : GoogleTasksClient) (v : RateLimiter) : GoogleTasksClient :=
  {| authManager := authManager c; rateLimiter := v; oauth2Client := oauth2Client c |}.
Definition set_oauth2Client (c : GoogleTasksClient) (v : OAuth2Client) : GoogleTasksClient :=
  {| authManager := authManager c; rateLimiter := rateLimiter c; oauth2Client := v |}.

(** [new GoogleTasksClient(authManager)] *)
Definition new_GoogleTasksClient (manager : OAuthManager) : GoogleTasksClient :=
  {| authManager := manager;
     oauth2Client :=
       {| oauth2_clientId := clientId (config manager);
          oauth2_clientSecret := js ""; (* Not needed for PKCE *)
          oauth2_redirectUri := redirectUri (config manager);
          credentials := None |};
     rateLimiter := createRateLimiter |}.

(** A call of a method of [this.authManager]: what the authentication layer
    throws arrives as an [Error] with its message. *)
Definition in_manager {H : Host} {A : Type} (c : M (OAuthManager * World) A)
  : Async.t (GoogleTasksClient * Runtime) A :=
  fun s =>
    let r := c (authManager (fst s), world (snd s)) in
    (match fst r with
     | Returned a => Fulfilled a
     | Threw e => Thrown (auth_error e)
     end,
     (set_authManager (fst s) (fst (snd r)), set_world (snd s) (snd (snd r)))).

(** [await this.rateLimiter()] *)
Definition await_rateLimiter : Async.t (GoogleTasksClient * Runtime) unit :=
  fun s =>
    let r := rateLimiter_call (rateLimiter (fst s), snd s) in
    (fst r, (set_rateLimiter (fst s) (fst (snd r)), snd (snd r))).

(** A call of a method of [this.tasksApi]: the call is recorded with the
    credentials of the OAuth2 client, and the service gives its next
    answer. *)
Definition call_api {X : Type} (answer : GoogleApi -> nat -> ApiReply X) (call : ApiCall)
  : Async.t (GoogleTasksClient * Runtime) X :=
  fun s =>
    let api := google (snd s) in
    let n := length (calls api) in
    let api' := {| answer_tasklists := answer_tasklists api;
                   answer_tasklist := answer_tasklist api;
                   answer_tasks := answer_tasks api;
                   answer_task := answer_task api;
                   answer_void := answer_void api;
                   calls := (credentials (oauth2Client (fst s)), call) :: calls api |} in
    (match answer api n with
     | Data data => Fulfilled data
     | Failure error => Thrown error
     end,
     (fst s, {| world := world (snd s); slept := slept (snd s); google := api' |})).

Section Client.
Context {P : Platform} {H : Host}.

(** [GoogleTasksClient.ensureAuthenticated] *)
Definition ensureAuthenticated : Async.t (GoogleTasksClient * Runtime) unit :=
  tokens <~ in_manager getValidTokens ;;
  match tokens with
  | None => Async.throw (new_Error (js "Not authenticated. Please authenticate first."))
  | Some r =>
      t <~ Async.gets (fun s => objects (heap (world (snd s))) r) ;;
      set_self (fun c =>
        set_oauth2Client c
          (setCredentials (oauth2Client c)
             {| cred_access_token := access_token t;
                cred_refresh_token := refresh_token t;
                cred_token_type := js "Bearer" |}))
  end.

(** [GoogleTasksClient.getTaskLists]; an array is truthy, so [data.items ||
    []] is [data.items] whenever there are items, none included. *)
Definition getTaskLists : Async.t (GoogleTasksClient * Runtime) (list GoogleTaskList.t) :=
  await_rateLimiter ~;;
  ensureAuthenticated ~;;
  executeWithRetry
    (data <~ call_api answer_tasklists (tasklists_list 100) ;;
     Async.ret (nullish (GoogleTaskListsResponse.items data) []))
    (Some (js "fetching task lists")).

(** [GoogleTasksClient.createTaskList] *)
Definition createTaskList (title : jsstring)
  : Async.t (GoogleTasksClient * Runtime) GoogleTaskList.t :=
  await_rateLimiter ~;;
  ensureAuthenticated ~;;
  executeWithRetry
    (data <~ call_api answer_tasklist (tasklists_insert title) ;;
     Async.ret data)
    (Some (js "creating task list")).

(** [GoogleTasksClient.updateTaskList] *)
Definition updateTaskList (listId title : jsstring)
  : Async.t (GoogleTasksClient * Runtime) GoogleTaskList.t :=
  await_rateLimiter ~;;
  ensureAuthenticated ~;;
  executeWithRetry
    (data <~ call_api answer_tasklist (tasklists_update listId listId title) ;;
     Async.ret data)
    (Some (js "updating task list")).

(** [GoogleTasksClient.deleteTaskList] *)
Definition deleteTaskList (listId : jsstring) : Async.t (GoogleTasksClient * Runtime) unit :=
  await_rateLimiter ~;;
  ensureAuthenticated ~;;
  executeWithRetry
    (call_api answer_void (tasklists_delete listId) ~;;
     Async.ret tt)
    (Some (js "deleting task list")).

(** [GoogleTasksClient.getTasks]; an argument left out is [None] and takes
    the default [false]. *)
Definition getTasks (taskListId : jsstring) (showCompleted showDeleted : option bool)
  : Async.t (GoogleTasksClient * Runtime) (list GoogleTask.t) :=
  let showCompleted := nullish showCompleted false in
  let showDeleted := nullish showDeleted false in
  await_rateLimiter ~;;
  ensureAuthenticated ~;;
  executeWithRetry
    (data <~ call_api answer_tasks
               (tasks_list taskListId 100 showCompleted showDeleted false) ;;
     Async.ret (nullish (GoogleTasksResponse.items data) []))
    (Some (js "fetching tasks")).

(** [GoogleTasksClient.getTask] *)
Definition getTask (taskListId taskId : jsstring)
  : Async.t (GoogleTasksClient * Runtime) GoogleTask.t :=
  await_rateLimiter ~;;
  ensureAuthenticated ~;;
  executeWithRetry
    (data <~ call_api answer_task (tasks_get taskListId taskId) ;;
     Async.ret data)
    (Some (js "fetching task")).

(** [if (x) target = x]: a property that is set only to a truthy string. *)
Definition if_truthy (x : option jsstring) : option jsstring :=
  if truthy_string x then x else None.

(** [GoogleTasksClient.createTask] *)
Definition createTask (params : CreateTaskParams.t)
  : Async.t (GoogleTasksClient * Runtime) GoogleTask.t :=
  await_rateLimiter ~;;
  ensureAuthenticated ~;;
  executeWithRetry
    (let requestBody :=
       {| body_id := None;
          body_title := Some (CreateTaskParams.title params);
          body_notes := if_truthy (CreateTaskParams.notes params);
          body_status := None;
          body_due := if_truthy (CreateTaskParams.due params);
          body_completed := None |} in
     data <~ call_api answer_task
               (tasks_insert (CreateTaskParams.taskListId params) requestBody
                             (if_truthy (CreateTaskParams.parent params))
                             (if_truthy (CreateTaskParams.previous params))) ;;
     Async.ret data)
    (Some (js "creating task")).

(** [GoogleTasksClient.updateTask]; [x !== undefined] lets every value that
    is there through, the empty string included. *)
Definition updateTask (params : UpdateTaskParams.t)
  : Async.t (GoogleTasksClient * Runtime) GoogleTask.t :=
  await_rateLimiter ~;;
  ensureAuthenticated ~;;
  executeWithRetry
    (let requestBody :=
       {| body_id := Some (UpdateTaskParams.taskId params);
          body_title := UpdateTaskParams.title params;
          body_notes := UpdateTaskParams.notes params;
          body_status := UpdateTaskParams.status params;
          body_due := UpdateTaskParams.due params;
          body_completed := UpdateTaskParams.completed params |} in
     data <~ call_api answer_task
               (tasks_update (UpdateTaskParams.taskListId params)
                             (UpdateTaskParams.taskId params) requestBody) ;;
     Async.ret data)
    (Some (js "updating task")).

(** [GoogleTasksClient.deleteTask] *)
Definition deleteTask (taskListId taskId : jsstring)
  : Async.t (GoogleTasksClient * Runtime) unit :=
  await_rateLimiter ~;;
  ensureAuthenticated ~;;
  executeWithRetry
    (call_api answer_void (tasks_delete taskListId taskId) ~;;
     Async.ret tt)
    (Some (js "deleting task")).

(** [GoogleTasksClient.completeTask] *)
Definition completeTask (taskListId taskId : jsstring)
  : Async.t (GoogleTasksClient * Runtime) GoogleTask.t :=
  date <~ in_runtime now ;;
  updateTask {| UpdateTaskParams.taskListId := taskListId;
                UpdateTaskParams.taskId := taskId;
                UpdateTaskParams.title := None;
                UpdateTaskParams.notes := None;
                UpdateTaskParams.status := Some TaskStatus.completed;
                UpdateTaskParams.due := None;
                UpdateTaskParams.completed := Some (Date_toISOString date) |}.

(** [GoogleTasksClient.uncompleteTask] *)
Definition uncompleteTask (taskListId taskId : jsstring)
  : Async.t (GoogleTasksClient * Runtime) GoogleTask.t :=
  updateTask {| UpdateTaskParams.taskListId := taskListId;
                UpdateTaskParams.taskId := taskId;
                UpdateTaskParams.title := None;
                UpdateTaskParams.notes := None;
                UpdateTaskParams.status := Some TaskStatus.needsAction;
                UpdateTaskParams.due := None;
                UpdateTaskParams.completed := None |}.

(** [GoogleTasksClient.moveTask] *)
Definition moveTask (params : MoveTaskParams.t)
  : Async.t (GoogleTasksClient * Runtime) GoogleTask.t :=
  await_rateLimiter ~;;
  ensureAuthenticated ~;;
  executeWithRetry
    (data <~ call_api answer_task
               (tasks_move (MoveTaskParams.taskListId params) (MoveTaskParams.taskId params)
                           (if_truthy (MoveTaskParams.parent params))
                           (if_truthy (MoveTaskParams.previous params))) ;;
     Async.ret data)
    (Some (js "moving task")).

(** [GoogleTasksClient.clearCompletedTasks] *)
Definition clearCompletedTasks (taskListId : jsstring)
  : Async.t (GoogleTasksClient * Runtime) unit :=
  await_rateLimiter ~;;
  ensureAuthenticated ~;;
  executeWithRetry
    (call_api answer_void (tasks_clear taskListId) ~;;
     Async.ret tt)
    (Some (js "clearing completed tasks")).

(** [operation.task?.f] *)
Definition task_field {A : Type} (operation : BatchOperation.t)
           (f : GoogleTask.t -> option A) : option A :=
  match BatchOperation.task operation with
  | Some task => f task
  | None => None
  end.

(** The [switch] of [batchUpdateTasks] for one operation: the task it
    leaves in [result], if any. *)
Definition batch_switch (operation : BatchOperation.t)
  : Async.t (GoogleTasksClient * Runtime) (option GoogleTask.t) :=
  if jsstring_eqb (BatchOperation.operation operation) (js "insert") then
    if negb (truthy_string (task_field operation GoogleTask.title)) then
      Async.throw (new_Error (js "Task title is required for insert operation"))
    else
      let createParams :=
        {| CreateTaskParams.taskListId := BatchOperation.taskListId operation;
           CreateTaskParams.title := nullish (task_field operation GoogleTask.title) [];
           CreateTaskParams.notes := if_truthy (task_field operation GoogleTask.notes);
           CreateTaskParams.due := if_truthy (task_field operation GoogleTask.due);
           CreateTaskParams.parent := if_truthy (task_field operation GoogleTask.parent);
           CreateTaskParams.previous := None |} in
      result <~ createTask createParams ;;
      Async.ret (Some result)
  else if jsstring_eqb (BatchOperation.operation operation) (js "update") then
    if negb (truthy_string (BatchOperation.taskId operation)) then
      Async.throw (new_Error (js "Task ID is required for update operation"))
    else
      let updateParams :=
        {| UpdateTaskParams.taskListId := BatchOperation.taskListId operation;
           UpdateTaskParams.taskId := nullish (BatchOperation.taskId operation) [];
           UpdateTaskParams.title := task_field operation GoogleTask.title;
           UpdateTaskParams.notes := task_field operation GoogleTask.notes;
           UpdateTaskParams.status := task_field operation GoogleTask.status;
           UpdateTaskParams.due := task_field operation GoogleTask.due;
           UpdateTaskParams.completed := None |} in
      result <~ updateTask updateParams ;;
      Async.ret (Some result)
  else if jsstring_eqb (BatchOperation.operation operation) (js "delete") then
    if negb (truthy_string (BatchOperation.taskId operation)) then
      Async.throw (new_Error (js "Task ID is required for delete operation"))
    else
      deleteTask (BatchOperation.taskListId operation)
                 (nullish (BatchOperation.taskId operation) []) ~;;
      Async.ret None
  else
    Async.throw (new_Error (js "Unknown operation: " ++ BatchOperation.operation operation)).

(** The loop of [batchUpdateTasks] over the operations that are left, with
    the results pushed so far. *)
Fixpoint batch_loop (operations : list BatchOperation.t) (results : list BatchResult.entry)
  : Async.t (GoogleTasksClient * Runtime) (list BatchResult.entry) :=
  match operations with
  | [] => Async.ret results
  | operation :: rest =>
      entry <~ Async.catch
                 (result <~ batch_switch operation ;;
                  Async.ret {| BatchResult.operation := BatchOperation.operation operation;
                               BatchResult.success := true;
                               BatchResult.result := result;
                               BatchResult.error := None |})
                 (fun error =>
                    let googleError := parseGoogleApiError error in
                    Async.ret {| BatchResult.operation := BatchOperation.operation operation;
                                 BatchResult.success := false;
                                 BatchResult.result := None;
                                 BatchResult.error := Some googleError |}) ;;
      batch_loop rest (results ++ [entry])
  end.

(** [GoogleTasksClient.batchUpdateTasks] *)
Definition batchUpdateTasks (operations : list BatchOperation.t)
  : Async.t (GoogleTasksClient * Runtime) BatchResult.t :=
  results <~ batch_loop operations [] ;;
  Async.ret {| BatchResult.operations := results |}.

End Client.

(** ** Vocabulary for the proofs about the Google layer *)

(** A mock function, as [jest.fn()] with a script of outcomes: call number
    [n] ends as [outcomes n]. *)
Record Mock (A : Type) := {
  outcomes : nat -> Completion ErrorValue A;
  called : nat
}.
Arguments outcomes {A} m n.
Arguments called {A} m.

Definition mock_call {A : Type} : Async.t (Mock A * Runtime) A :=
  fun s =>
    (outcomes (fst s) (called (fst s)),
     ({| outcomes := outcomes (fst s); called := S (called (fst s)) |}, snd s)).

(** Outcome [n] of a mock is an error that [isRetryableError] accepts. *)
Definition retryable_outcome {A : Type} (m : Mock A) (n : nat) : Prop :=
  exists error, outcomes m n = Thrown error /\ isRetryableError error = true.

(** How [executeWithRetry] ends on a final outcome of the operation. *)
Definition final_outcome {A : Type} (o : Completion ErrorValue A) (context : option jsstring)
  : Completion ErrorValue A :=
  match o with
  | Fulfilled a => Fulfilled a
  | Thrown error => Thrown (friendly_error error context)
  end.

(** A runtime on the small world, with a service that answers nothing
    useful and has not been called. *)
Definition silent_api : GoogleApi :=
  {| answer_tasklists := fun _ => Failure (new_Error (js "unreachable"));
     answer_tasklist := fun _ => Failure (new_Error (js "unreachable"));
     answer_tasks := fun _ => Failure (new_Error (js "unreachable"));
     answer_task := fun _ => Failure (new_Error (js "unreachable"));
     answer_void := fun _ => Failure (new_Error (js "unreachable"));
     calls := [] |}.

Definition toy_runtime : Runtime :=
  {| world := toy_world; slept := []; google := silent_api |}.

(** An error with an HTTP status and nothing else. *)
Definition status_error (status : Z) : ErrorValue :=
  {| error_message := None;
     error_response := Some {| response_status := Some status; response_data := None |} |}.

(** The delays awaited before the retries number [attempt + 1], ...,
    [attempt + retries]. *)
Fixpoint delays_from (attempt : Z) (retries : nat) : list Z :=
  match retries with
  | O => []
  | Datatypes.S retries' => getRetryDelay attempt :: delays_from (attempt + 1) retries'
  end.

(** The error of a client that has no valid tokens. *)
Definition not_authenticated : ErrorValue :=
  new_Error (js "Not authenticated. Please authenticate first.").

(** A method refuses in state [s]: it throws [not_authenticated], calls
    neither the Google API nor the token endpoint, and leaves the
    credentials of the OAuth2 client as they were. *)
Definition refuses {A : Type} (method : Async.t (GoogleTasksClient * Runtime) A)
           (s : GoogleTasksClient * Runtime) : Prop :=
  fst (method s) = Thrown not_authenticated /\
  calls (google (snd (snd (method s)))) = calls (google (snd s)) /\
  sent (network (world (snd (snd (method s))))) = sent (network (world (snd s))) /\
  credentials (oauth2Client (fst (snd (method s)))) = credentials (oauth2Client (fst s)).

(** The credentials [ensureAuthenticated] sets from a token record. *)
Definition credentials_of (t : TokenSet) : Credentials :=
  {| cred_access_token := access_token t;
     cred_refresh_token := refresh_token t;
     cred_token_type := js "Bearer" |}.

(** A method sends [call] and nothing else: in every state, the calls it
    adds to the log of the service are between none and five copies of
    [call], all with the credentials the client holds in the end; there is
    at least one when the method returns, and then the credentials are those
    of the token record [getValidTokens] gave after the rate limiter; and an
    error it throws carries no response. *)
Definition sends {P : Platform} {H : Host} {A : Type}
           (method : Async.t (GoogleTasksClient * Runtime) A) (call : ApiCall) : Prop :=
  forall s : GoogleTasksClient * Runtime,
    let s1 := snd (await_rateLimiter s) in
    let s' := snd (method s) in
    exists n : nat,
      (n <= 5)%nat /\
      calls (google (snd s'))
      = repeat (credentials (oauth2Client (fst s')), call) n ++ calls (google (snd s)) /\
      ((1 <= n)%nat ->
       exists r : ref,
         fst (getValidTokens (authManager (fst s1), world (snd s1))) = Returned (Some r) /\
         credentials (oauth2Client (fst s'))
         = Some (credentials_of (objects (heap (world (snd s'))) r))) /\
      match fst (method s) with
      | Fulfilled _ => (1 <= n)%nat
      | Thrown e => error_response e = None
      end.

(** An error entry of a batch result, as [parseGoogleApiError] makes it from
    an error without a response. *)
Definition internal_error (message : jsstring) : GoogleApiError.t :=
  {| GoogleApiError.error :=
       {| GoogleApiError.code := 500;
          GoogleApiError.message := message;
          GoogleApiError.status := js "INTERNAL";
          GoogleApiError.details := Some [] |} |}.

(** The two shapes of an entry of a batch result. *)
Definition entry_shape (entry : BatchResult.entry) : Prop :=
  (BatchResult.success entry = true /\ BatchResult.error entry = None) \/
  (BatchResult.success entry = false /\ BatchResult.result entry = None /\
   exists message, BatchResult.error entry = Some (internal_error message)).

(** A small host: every error of Node.js reads the same, and a date is
    written as its milliseconds. *)
Definition toy_host : Host :=
  {| node_message := fun _ => js "system error";
     Date_toISOString := fun ms => decimal ms |}.

(** The body of the request [completeTask] makes at time [date]. *)
Definition completed_body {H : Host} (taskId : jsstring) (date : Z) : TaskBody :=
  {| body_id := Some taskId; body_title := None; body_notes := None;
     body_status := Some TaskStatus.completed; body_due := None;
     body_completed := Some (Date_toISOString date) |}.


(* ===================================================================== *)
(** * Part II: theorems                                                    *)
(* ===================================================================== *)

(** ** Bytes, hexadecimal and slices *)

Lemma Z_of_byte_range (b : byte) : 0 <= Z_of_byte b < 256.
Proof.
  unfold Z_of_byte. pose proof (Byte.to_N_bounded b) as H.
  lia.
Qed.

Lemma byte_of_Z_of_byte (b : byte) : byte_of_Z (Z_of_byte b) = b.
Proof.
  unfold byte_of_Z, Z_of_byte.
  pose proof (Byte.to_N_bounded b) as H.
  rewrite Z.mod_small by lia.
  rewrite N2Z.id, Byte.of_to_N. reflexivity.
Qed.

Lemma Z_of_byte_of_Z (z : Z) : 0 <= z < 256 -> Z_of_byte (byte_of_Z z) = z.
Proof.
  intros Hz. unfold byte_of_Z, Z_of_byte.
  rewrite Z.mod_small by lia.
  destruct (Byte.of_N (Z.to_N z)) as [b|] eqn:E.
  - apply Byte.to_of_N in E. rewrite E. lia.
  - apply Byte.of_N_None_iff in E. lia.
Qed.

Lemma byte_xor_cancel (a k : byte) : byte_xor (byte_xor a k) k = a.
Proof.
  unfold byte_xor.
  destruct (Byte.to_bits a) as [a0 [a1 [a2 [a3 [a4 [a5 [a6 a7]]]]]]] eqn:Ea.
  destruct (Byte.to_bits k) as [k0 [k1 [k2 [k3 [k4 [k5 [k6 k7]]]]]]] eqn:Ek.
  rewrite Byte.to_bits_of_bits.
  rewrite !xorb_assoc, !xorb_nilpotent, !xorb_false_r.
  rewrite <- Ea. apply Byte.of_bits_to_bits.
Qed.

Lemma hex_pair (b : byte) :
  hex_value (hex_digit (Z_of_byte b / 16)) = Some (Z_of_byte b / 16) /\
  hex_value (hex_digit (Z_of_byte b mod 16)) = Some (Z_of_byte b mod 16).
Proof.
  pose proof (Z_of_byte_range b) as H.
  assert (Hd : forall d, 0 <= d < 16 -> hex_value (hex_digit d) = Some d).
  { intros d Hd. unfold hex_value, hex_digit.
    destruct (d <? 10) eqn:E.
    - apply Z.ltb_lt in E.
      replace ((48 <=? 48 + d) && (48 + d <=? 57)) with true
        by (symmetry; apply andb_true_iff; split; apply Z.leb_le; lia).
      f_equal. lia.
    - apply Z.ltb_ge in E.
      replace ((48 <=? 87 + d) && (87 + d <=? 57)) with false
        by (symmetry; apply andb_false_iff; right; apply Z.leb_gt; lia).
      replace ((97 <=? 87 + d) && (87 + d <=? 102)) with true
        by (symmetry; apply andb_true_iff; split; apply Z.leb_le; lia).
      f_equal. lia. }
  split; apply Hd.
  - split; [apply Z.div_pos; lia | apply Z.div_lt_upper_bound; lia].
  - apply Z.mod_pos_bound. lia.
Qed.

Lemma from_hex_to_hex (bs : list byte) : from_hex (to_hex bs) = bs.
Proof.
  induction bs as [|b bs IH]; [reflexivity|].
  cbn [to_hex from_hex].
  destruct (hex_pair b) as [-> ->].
  rewrite IH. f_equal.
  rewrite <- (byte_of_Z_of_byte b) at 3. f_equal.
  pose proof (Z.div_mod (Z_of_byte b) 16). lia.
Qed.

Lemma to_hex_app (a b : list byte) : to_hex (a ++ b) = to_hex a ++ to_hex b.
Proof.
  induction a as [|x a IH]; [reflexivity|].
  cbn [to_hex app]. now rewrite IH.
Qed.

Lemma length_to_hex (bs : list byte) : length (to_hex bs) = (2 * length bs)%nat.
Proof.
  induction bs as [|b bs IH]; [reflexivity|].
  cbn [to_hex length]. rewrite IH. lia.
Qed.

Lemma to_hex_injective (a b : list byte) : to_hex a = to_hex b -> a = b.
Proof.
  intros H. rewrite <- (from_hex_to_hex a), <- (from_hex_to_hex b). now rewrite H.
Qed.

Lemma slice_without_suffix (a b : jsstring) (k : Z) :
  k < 0 -> Z.of_nat (length b) = - k -> slice (a ++ b) 0 (Some k) = a.
Proof.
  intros Hk Hb. unfold slice, slice_index.
  rewrite length_app, Nat2Z.inj_add.
  replace (0 <? 0) with false by reflexivity.
  replace (k <? 0) with true by (symmetry; apply Z.ltb_lt; lia).
  match goal with
  | |- firstn ?n (skipn ?j _) = _ =>
      replace n with (length a) by lia; replace j with 0%nat by lia
  end.
  cbn [skipn].
  rewrite firstn_app, Nat.sub_diag, firstn_all. cbn [firstn]. apply app_nil_r.
Qed.

Lemma slice_suffix (a b : jsstring) (k : Z) :
  k < 0 -> Z.of_nat (length b) = - k -> slice (a ++ b) k None = b.
Proof.
  intros Hk Hb. unfold slice, slice_index.
  rewrite length_app, Nat2Z.inj_add.
  replace (k <? 0) with true by (symmetry; apply Z.ltb_lt; lia).
  match goal with
  | |- firstn ?n (skipn ?j _) = _ =>
      replace n with (length b) by lia; replace j with (length a) by lia
  end.
  rewrite skipn_app, Nat.sub_diag, skipn_all. cbn [skipn app].
  apply firstn_all.
Qed.

Ltac zlia := Z.div_mod_to_equations; lia.

(** Decide the comparison the goal branches on, from the hypotheses. *)
Ltac decide_test :=
  match goal with
  | |- context [?a <? ?b] =>
      first [ replace (a <? b) with true by (symmetry; apply Z.ltb_lt; zlia)
            | replace (a <? b) with false by (symmetry; apply Z.ltb_ge; zlia) ]
  | |- context [?a <=? ?b] =>
      first [ replace (a <=? b) with true by (symmetry; apply Z.leb_le; zlia)
            | replace (a <=? b) with false by (symmetry; apply Z.leb_gt; zlia) ]
  | |- context [?a =? ?b] =>
      first [ replace (a =? b) with true by (symmetry; apply Z.eqb_eq; zlia)
            | replace (a =? b) with false by (symmetry; apply Z.eqb_neq; zlia)
            | destruct (Z.eqb_spec a b) ]
  end.

Ltac decide_tests :=
  repeat (decide_test;
          cbn [andb orb negb utf8_decode_units app second_byte_ok is_continuation utf16_units]).

Lemma surrogate_tests (c : Z) :
  is_high_surrogate c = false -> is_low_surrogate c = false -> is_code_unit c = true ->
  0 <= c < 55296 \/ 57344 <= c < 65536.
Proof.
  unfold is_high_surrogate, is_low_surrogate, is_code_unit. lia.
Qed.

Lemma decode_scalar (c : Z) (tl : list Z) :
  0 <= c < 55296 \/ 57344 <= c < 65536 ->
  utf8_decode_units (utf8_encode_scalar c ++ tl) = c :: utf8_decode_units tl.
Proof.
  intros Hc. unfold utf8_encode_scalar.
  destruct (Z.ltb_spec c 128); [|destruct (Z.ltb_spec c 2048); [|destruct (Z.ltb_spec c 65536)]];
    cbn [app utf8_decode_units]; unfold second_byte_ok, is_continuation;
    decide_tests; try (f_equal; zlia); lia.
Qed.

Lemma decode_pair (u l : Z) (tl : list Z) :
  is_high_surrogate u = true -> is_low_surrogate l = true ->
  utf8_decode_units (utf8_encode_scalar (65536 + (u - 55296) * 1024 + (l - 56320)) ++ tl)
  = u :: l :: utf8_decode_units tl.
Proof.
  unfold is_high_surrogate, is_low_surrogate. intros Hu Hl.
  assert (Hu' : 55296 <= u <= 56319) by lia.
  assert (Hl' : 56320 <= l <= 57343) by lia.
  clear Hu Hl.
  remember (65536 + (u - 55296) * 1024 + (l - 56320)) as c eqn:Ec.
  assert (Hc : 65536 <= c < 1114112) by lia.
  unfold utf8_encode_scalar.
  replace (c <? 128) with false by (symmetry; apply Z.ltb_ge; lia).
  replace (c <? 2048) with false by (symmetry; apply Z.ltb_ge; lia).
  replace (c <? 65536) with false by (symmetry; apply Z.ltb_ge; lia).
  cbn [app utf8_decode_units]. unfold second_byte_ok, is_continuation.
  assert (Hd : (240 + c / 262144 - 240) * 262144 + (128 + c / 4096 mod 64 - 128) * 4096
               + (128 + c / 64 mod 64 - 128) * 64 + (128 + c mod 64 - 128) = c) by zlia.
  decide_tests; rewrite Hd; unfold utf16_units;
    replace (c <? 65536) with false by (symmetry; apply Z.ltb_ge; lia);
    cbn [app]; (f_equal; [zlia | f_equal; zlia]).
Qed.

Lemma utf8_encode_scalar_range (c : Z) :
  0 <= c < 1114112 -> Forall (fun b => 0 <= b < 256) (utf8_encode_scalar c).
Proof.
  intros Hc. unfold utf8_encode_scalar.
  destruct (Z.ltb_spec c 128); [|destruct (Z.ltb_spec c 2048); [|destruct (Z.ltb_spec c 65536)]];
    repeat constructor; zlia.
Qed.

Lemma utf8_units_roundtrip (s : jsstring) :
  (well_formed s = true ->
   Forall (fun b => 0 <= b < 256) (utf8_encode_units s) /\
   utf8_decode_units (utf8_encode_units s) = s) /\
  (forall u, well_formed (u :: s) = true ->
   Forall (fun b => 0 <= b < 256) (utf8_encode_units (u :: s)) /\
   utf8_decode_units (utf8_encode_units (u :: s)) = u :: s).
Proof.
  induction s as [|l rest [IH0 IH1]].
  - split; [intros _; split; [constructor | reflexivity]|].
    intros u. cbn [well_formed utf8_encode_units].
    destruct (is_high_surrogate u) eqn:Hh; [discriminate|].
    destruct (is_low_surrogate u) eqn:Hl; [discriminate|].
    rewrite andb_true_r. intros Hu.
    pose proof (surrogate_tests u Hh Hl Hu) as Hr.
    split.
    + rewrite app_nil_r. apply utf8_encode_scalar_range. lia.
    + rewrite decode_scalar by assumption. reflexivity.
  - split; [apply IH1|].
    intros u. destruct (is_high_surrogate u) eqn:Hh.
    + cbn [well_formed utf8_encode_units]. rewrite Hh.
      intros H. apply andb_true_iff in H. destruct H as [Hl Hwf].
      rewrite Hl. destruct (IH0 Hwf) as [Hr Hd]. split.
      * apply Forall_app. split; [|exact Hr].
        apply utf8_encode_scalar_range.
        unfold is_high_surrogate, is_low_surrogate in Hh, Hl. lia.
      * rewrite decode_pair by assumption. now rewrite Hd.
    + remember (l :: rest) as t eqn:Et.
      cbn [well_formed utf8_encode_units]. rewrite Hh.
      destruct (is_low_surrogate u) eqn:Hl; [discriminate|].
      intros H. apply andb_true_iff in H. destruct H as [Hu Hwf].
      pose proof (surrogate_tests u Hh Hl Hu) as Hr.
      subst t. destruct (IH1 l Hwf) as [Hr' Hd]. split.
      * apply Forall_app. split; [|exact Hr'].
        apply utf8_encode_scalar_range. lia.
      * rewrite decode_scalar by assumption. now rewrite Hd.
Qed.

Lemma Z_of_byte_of_Z_list (l : list Z) :
  Forall (fun b => 0 <= b < 256) l -> map Z_of_byte (map byte_of_Z l) = l.
Proof.
  induction 1 as [|b l Hb _ IH]; [reflexivity|].
  cbn [map]. now rewrite Z_of_byte_of_Z, IH.
Qed.

Lemma utf8_roundtrip (s : jsstring) :
  well_formed s = true -> utf8_decode (utf8_encode s) = s.
Proof.
  intros Hwf. destruct (proj1 (utf8_units_roundtrip s) Hwf) as [Hr Hd].
  unfold utf8_decode, utf8_encode. now rewrite Z_of_byte_of_Z_list.
Qed.

(** ** AES-256-GCM as the code uses it *)

Section CryptoFacts.
Context {P : Platform}.

Lemma gcm_crypt_cons (key iv_ : list byte) (offset : nat) (b : byte) (input : list byte) :
  gcm_crypt key iv_ offset (b :: input)
  = byte_xor b (aes256_gcm_keystream key iv_ offset) :: gcm_crypt key iv_ (S offset) input.
Proof. reflexivity. Qed.

Lemma gcm_crypt_involutive (key iv_ : list byte) (input : list byte) (offset : nat) :
  gcm_crypt key iv_ offset (gcm_crypt key iv_ offset input) = input.
Proof.
  revert offset. induction input as [|b input IH]; intros offset; [reflexivity|].
  rewrite !gcm_crypt_cons, byte_xor_cancel, IH. reflexivity.
Qed.

Lemma length_gcm_auth_tag (key iv_ aad ciphertext : list byte) :
  length (gcm_auth_tag key iv_ aad ciphertext) = 16%nat.
Proof. unfold gcm_auth_tag. now rewrite length_map, length_seq. Qed.

Lemma length_randomBytes (n : nat) (w : World) (bs : list byte) (w' : World) :
  randomBytes n w = (Returned bs, w') -> length bs = n.
Proof.
  unfold randomBytes, next_bytes. intros H. injection H as <- _.
  now rewrite length_map, length_seq.
Qed.

(** Decrypting what [encrypt] builds from a well-formed string, a 32-byte
    key and a non-empty IV gives the string back. *)
Lemma decrypt_encrypt_with (iv_ salt_ key : list byte) (plaintext : jsstring) :
  well_formed plaintext = true ->
  length key = 32%nat ->
  iv_ <> [] ->
  exists envelope,
    encrypt_with iv_ salt_ plaintext key = Returned envelope /\
    decrypt envelope key = Returned plaintext.
Proof.
  intros Hwf Hkey Hiv.
  assert (Hc : createCipheriv ALGORITHM key iv_
               = Returned {| cipher_key := key; cipher_iv := iv_; cipher_aad := [];
                             cipher_auth_tag := []; cipher_text := [] |}).
  { unfold createCipheriv. rewrite Hkey. cbn [negb Z.of_nat Pos.of_succ_nat].
    destruct iv_; [contradiction|reflexivity]. }
  unfold encrypt_with. rewrite Hc. eexists. split; [reflexivity|].
  unfold decrypt, createDecipheriv, cipher_update, cipher_final, getAuthTag.
  cbn [iv salt data setAAD fst snd add_cipher_text cipher_key cipher_iv cipher_aad
       cipher_text app length to_hex].
  rewrite !from_hex_to_hex, Hc, app_nil_r.
  set (ciphertext := gcm_crypt key iv_ 0 (utf8_encode plaintext)).
  set (tag := gcm_auth_tag key iv_ salt_ ciphertext).
  assert (Htag : length tag = 16%nat) by apply length_gcm_auth_tag.
  change (- TAG_LENGTH * 2) with (-32).
  rewrite slice_without_suffix, slice_suffix
    by (try lia; rewrite length_to_hex, Htag; reflexivity).
  rewrite !from_hex_to_hex.
  assert (Hv : valid_tag_length (Z.of_nat (length tag)) = true)
    by (rewrite Htag; reflexivity).
  unfold setAuthTag. rewrite Hv.
  unfold decipher_update, decipher_final, getAuthTag.
  cbn [setAAD fst snd add_cipher_text cipher_key cipher_iv cipher_aad cipher_text
       cipher_auth_tag app length].
  fold ciphertext. fold tag. rewrite firstn_all.
  destruct (list_eq_dec _ _ _) as [_|Hne]; [|contradiction].
  subst ciphertext.
  rewrite app_nil_r, gcm_crypt_involutive, utf8_roundtrip by assumption.
  reflexivity.
Qed.

End CryptoFacts.

Section EnvelopeFacts.
Context {P : Platform}.

Lemma encrypt_unfold (plaintext : jsstring) (key : list byte) (w : World) :
  encrypt plaintext key w
  = (encrypt_with (next_bytes (random w) 16) (next_bytes (advance (random w) 16) 32)
                  plaintext key,
     set_random w (advance (advance (random w) 16) 32)).
Proof. reflexivity. Qed.

Lemma next_bytes_app (r : Random) (n m : nat) :
  next_bytes r (n + m) = next_bytes r n ++ next_bytes (advance r n) m.
Proof. unfold next_bytes, advance. cbn [entropy drawn]. now rewrite seq_app, map_app. Qed.

Lemma next_bytes_nonempty (r : Random) (n : nat) : next_bytes r (S n) <> [].
Proof. discriminate. Qed.

Lemma encrypt_with_fields (iv_ salt_ key : list byte) (plaintext : jsstring)
      (envelope : EncryptedData) :
  encrypt_with iv_ salt_ plaintext key = Returned envelope ->
  iv envelope = to_hex iv_ /\ salt envelope = to_hex salt_.
Proof.
  unfold encrypt_with. destruct (createCipheriv ALGORITHM key iv_); [|discriminate].
  intros H. injection H as <-. split; reflexivity.
Qed.

(** An unpaired surrogate is encrypted as U+FFFD, on every platform. *)
Lemma encrypt_with_lone_surrogate (iv_ salt_ key : list byte) :
  encrypt_with iv_ salt_ [55296] key = encrypt_with iv_ salt_ [65533] key.
Proof. reflexivity. Qed.

(** C1, as amended: for every well-formed plaintext (one without unpaired
    surrogates) and every 256-bit key, [encrypt] returns an envelope and
    [decrypt] with the same key returns exactly the plaintext; the 32 hex
    digits of the tag are split off the [data] field whatever the length of
    the plaintext, the empty one included. *)
Theorem decrypt_encrypt_well_formed (plaintext : jsstring) (key : list byte) (w : World) :
  well_formed plaintext = true ->
  length key = 32%nat ->
  exists envelope w',
    encrypt plaintext key w = (Returned envelope, w') /\
    decrypt envelope key = Returned plaintext.
Proof.
  intros Hwf Hkey. rewrite encrypt_unfold.
  destruct (decrypt_encrypt_with
              (next_bytes (random w) 16) (next_bytes (advance (random w) 16) 32)
              key plaintext Hwf Hkey (next_bytes_nonempty _ _)) as (envelope & He & Hd).
  exists envelope. eexists. split; [|exact Hd]. now rewrite He.
Qed.

(** C8: two calls of [encrypt] with the same plaintext and the same key, whose
    random draws (16 bytes of IV, then 32 bytes of salt) differ, return
    different envelopes. *)
Theorem encrypt_twice_differs (plaintext : jsstring) (key : list byte)
        (w1 w2 : World) (e1 e2 : EncryptedData) (w1' w2' : World) :
  encrypt plaintext key w1 = (Returned e1, w1') ->
  encrypt plaintext key w2 = (Returned e2, w2') ->
  fst (randomBytes 48 w1) <> fst (randomBytes 48 w2) ->
  e1 <> e2.
Proof.
  rewrite !encrypt_unfold. intros H1 H2 Hdraws Heq. apply Hdraws.
  unfold randomBytes. cbn [fst]. f_equal.
  rewrite !(next_bytes_app _ 16 32).
  remember (next_bytes (random w1) 16) as iv1.
  remember (next_bytes (advance (random w1) 16) 32) as salt1.
  remember (next_bytes (random w2) 16) as iv2.
  remember (next_bytes (advance (random w2) 16) 32) as salt2.
  injection H1 as H1 _. injection H2 as H2 _.
  apply encrypt_with_fields in H1, H2. destruct H1 as [Hi1 Hs1], H2 as [Hi2 Hs2].
  subst e2. rewrite Hi1 in Hi2. rewrite Hs1 in Hs2.
  apply to_hex_injective in Hi2, Hs2. now rewrite Hi2, Hs2.
Qed.

End EnvelopeFacts.

(** C1, as stated, fails: the string made of the unpaired surrogate U+D800 is
    encrypted under a 256-bit key into an envelope that decrypts to U+FFFD. *)
Lemma decrypt_encrypt_lone_surrogate :
  length toy_key = 32%nat /\
  exists envelope w',
    @encrypt (toy_platform []) [55296] toy_key toy_world = (Returned envelope, w') /\
    @decrypt (toy_platform []) envelope toy_key = Returned [65533] /\
    @decrypt (toy_platform []) envelope toy_key <> Returned [55296].
Proof.
  split; [reflexivity|].
  destruct (@decrypt_encrypt_with (toy_platform [])
              (next_bytes (random toy_world) 16)
              (next_bytes (advance (random toy_world) 16) 32) toy_key [65533])
    as (envelope & He & Hd); [reflexivity | reflexivity | discriminate |].
  exists envelope. eexists. rewrite encrypt_unfold, encrypt_with_lone_surrogate, He.
  split; [reflexivity|]. split; [exact Hd|]. rewrite Hd. discriminate.
Qed.

Lemma decrypt_encrypt_well_formed_witness :
  exists envelope w',
    @encrypt (toy_platform []) (js "") toy_key toy_world = (Returned envelope, w') /\
    @decrypt (toy_platform []) envelope toy_key = Returned (js "").
Proof.
  apply (@decrypt_encrypt_well_formed (toy_platform []) (js "") toy_key toy_world);
    reflexivity.
Defined.

Lemma encrypt_twice_differs_witness :
  exists e1 e2 w1 w2,
    @encrypt (toy_platform []) (js "secret") toy_key toy_world = (Returned e1, w1) /\
    @encrypt (toy_platform []) (js "secret") toy_key w1 = (Returned e2, w2) /\
    e1 <> e2.
Proof.
  eexists _, _, _, _. split; [reflexivity|]. split; [reflexivity|].
  apply (@encrypt_twice_differs (toy_platform []) (js "secret") toy_key
           toy_world _ _ _ _ _ eq_refl eq_refl).
  vm_compute. discriminate.
Defined.

(** ** Running computations *)

Lemma bind_returned {S A B : Type} (c : M S A) (k : A -> M S B) (s s' : S) (a : A) :
  c s = (Returned a, s') -> bind c k s = k a s'.
Proof. intros H. unfold bind. now rewrite H. Qed.

Lemma bind_threw {S A B : Type} (c : M S A) (k : A -> M S B) (s s' : S) (e : JsError) :
  c s = (Threw e, s') -> bind c k s = (Threw e, s').
Proof. intros H. unfold bind. now rewrite H. Qed.

Lemma in_world_run {S A : Type} (c : M World A) (s : S) (w : World) :
  in_world c (s, w) = (fst (c w), (s, snd (c w))).
Proof. reflexivity. Qed.

Lemma isTokenExpired_run (ts : TokenStorage) (w : World) (tokens : ref) :
  exists w',
    isTokenExpired tokens (ts, w)
    = (Returned (match expires_at (objects (heap w) tokens) with
                 | Some e => negb (e =? 0) && (e <=? current_seconds w + 300)
                 | None => false
                 end), (ts, w')).
Proof.
  unfold isTokenExpired, bind, in_world, read_object, gets. cbn [fst snd].
  destruct (expires_at (objects (heap w) tokens)) as [e|]; cbn [truthy_number negb].
  - destruct (e =? 0); cbn [negb andb fst snd]; eexists; reflexivity.
  - eexists; reflexivity.
Qed.

(** C6, as amended: [isTokenExpired] always returns, and it returns true if
    and only if [expires_at] is present, is not 0 and is at most the current
    time in seconds plus 300; a record without [expires_at], or with
    [expires_at] 0, is never reported expired. *)
Theorem isTokenExpired_iff (ts : TokenStorage) (w : World) (tokens : ref) :
  (exists b, fst (isTokenExpired tokens (ts, w)) = Returned b) /\
  (fst (isTokenExpired tokens (ts, w)) = Returned true <->
   exists e, expires_at (objects (heap w) tokens) = Some e /\ e <> 0 /\ e <= current_seconds w + 300).
Proof.
  destruct (isTokenExpired_run ts w tokens) as [w' ->]. cbn [fst].
  split; [eexists; reflexivity|].
  destruct (expires_at (objects (heap w) tokens)) as [e|].
  - split.
    + intros H. injection H as H. apply andb_true_iff in H. destruct H as [H0 Hle].
      exists e. repeat split; [|now apply Z.leb_le].
      intros ->. discriminate.
    + intros (e' & He & Hne & Hle). injection He as <-. f_equal.
      apply andb_true_iff. split; [|now apply Z.leb_le].
      apply negb_true_iff. now apply Z.eqb_neq.
  - split; [discriminate|]. now intros (e & He & _).
Qed.


(** C6, as stated, fails: a record whose [expires_at] is 0 is present and
    below the current time plus 300, and is not reported expired. *)
Lemma isTokenExpired_zero :
  let t := set_expires_at (bare_token "a") (Some 0) in
  let ts := {| tokenFilePath := "tokens.enc"; configDir := "."; encryptionKey := None |} in
  exists tokens w,
    new_object t toy_world = (Returned tokens, w) /\
    expires_at (objects (heap w) tokens) = Some 0 /\
    0 <= current_seconds w + 300 /\
    fst (isTokenExpired tokens (ts, w)) = Returned false.
Proof.
  cbv zeta. eexists _, _. split; [reflexivity|].
  split; [reflexivity|]. split; [vm_compute; discriminate|]. reflexivity.
Qed.

(** ** The token store *)

(** Unfold the plumbing of a computation down to the next test. *)
Ltac run :=
  cbv beta iota zeta delta
    [bind ret throw lift gets modify this set_this in_world in_storage try_catch
     os_hostname os_userInfo_username read_object write_object parse_or_throw
     fst snd].

Section StorageFacts.
Context {P : Platform}.

Lemma getEncryptionKey_run (ts : TokenStorage) (w : World) :
  getEncryptionKey (ts, w)
  = match encryptionKey ts with
    | Some key => (Returned key, (ts, w))
    | None =>
        match username (os w) with
        | Some user =>
            (Returned (machine_key (hostname (os w)) user),
             (set_encryptionKey ts (Some (machine_key (hostname (os w)) user)), w))
        | None => (Threw (SystemError "ERR_SYSTEM_ERROR"), (ts, w))
        end
    end.
Proof.
  unfold getEncryptionKey. run.
  destruct (encryptionKey ts); [reflexivity|].
  run. destruct (username (os w)); reflexivity.
Qed.

Lemma getEncryptionKey_world (ts : TokenStorage) (w : World) :
  snd (snd (getEncryptionKey (ts, w))) = w.
Proof.
  rewrite getEncryptionKey_run.
  destruct (encryptionKey ts); [reflexivity|]. destruct (username (os w)); reflexivity.
Qed.

Lemma getEncryptionKey_error (ts : TokenStorage) (w : World) (e : JsError) :
  fst (getEncryptionKey (ts, w)) = Threw e -> e = SystemError "ERR_SYSTEM_ERROR".
Proof.
  rewrite getEncryptionKey_run.
  destruct (encryptionKey ts); [discriminate|].
  destruct (username (os w)); [discriminate|]. cbn [fst]. congruence.
Qed.

Lemma decrypt_error (envelope : EncryptedData) (key : list byte) (e : JsError) :
  decrypt envelope key = Threw e ->
  e = InvalidKeyLength \/ e = InvalidIV \/ e = InvalidAuthTagLength \/ e = UnableToAuthenticate.
Proof.
  unfold decrypt, createDecipheriv, createCipheriv.
  destruct (negb _); [intros H; injection H as <-; auto|].
  destruct (Z.of_nat _ =? 0); [intros H; injection H as <-; auto|].
  unfold setAuthTag. destruct (valid_tag_length _); [|intros H; injection H as <-; auto].
  unfold decipher_final. destruct (list_eq_dec _ _ _); [discriminate|].
  intros H; injection H as <-; auto.
Qed.

Lemma decrypt_error_code (envelope : EncryptedData) (key : list byte) (e : JsError) :
  decrypt envelope key = Threw e -> code_is e "ENOENT" = false.
Proof.
  intros H. apply decrypt_error in H. destruct H as [-> | [-> | [-> | ->]]]; reflexivity.
Qed.

Lemma fault_code (f : io_fault) : code_is (fault f) "ENOENT" = false.
Proof. destruct f; reflexivity. Qed.

(** What [loadTokens] does, by the state of the token file. *)
Lemma loadTokens_run (ts : TokenStorage) (w : World) :
  loadTokens (ts, w)
  = match files (fs w) (tokenFilePath ts) with
    | Missing => (Returned None, (ts, w))
    | Directory _ => (Threw (FailedToLoadTokens (fault EISDIR)), (ts, w))
    | Unreadable f => (Threw (FailedToLoadTokens (fault f)), (ts, w))
    | File content _ =>
        match JSON_parse_EncryptedData (utf8_decode content) with
        | None => (Threw (FailedToLoadTokens SyntaxError), (ts, w))
        | Some envelope =>
            let ts' := fst (snd (getEncryptionKey (ts, w))) in
            match fst (getEncryptionKey (ts, w)) with
            | Threw e => (Threw (FailedToLoadTokens e), (ts', w))
            | Returned key =>
                match decrypt envelope key with
                | Threw e => (Threw (FailedToLoadTokens e), (ts', w))
                | Returned text =>
                    match JSON_parse_TokenSet text with
                    | None => (Threw (FailedToLoadTokens SyntaxError), (ts', w))
                    | Some t =>
                        (Returned (Some (allocated (heap w))),
                         (ts', snd (new_object t w)))
                    end
                end
            end
        end
    end.
Proof.
  unfold loadTokens. run. unfold fs_readFile.
  destruct (files (fs w) (tokenFilePath ts)) as [|m|f|content m]; run; try reflexivity.
  - rewrite fault_code. reflexivity.
  - destruct (JSON_parse_EncryptedData (utf8_decode content)) as [envelope|];
      run; [|reflexivity].
    pose proof (getEncryptionKey_world ts w) as Hw.
    pose proof (getEncryptionKey_error ts w) as He.
    destruct (getEncryptionKey (ts, w)) as [[key|e] [ts' w']];
      cbn [fst snd] in Hw, He; subst w'; run.
    + destruct (decrypt envelope key) as [text|e] eqn:Hd; run.
      * destruct (JSON_parse_TokenSet text) as [t|]; reflexivity.
      * rewrite (decrypt_error_code _ _ _ Hd). reflexivity.
    + rewrite (He e eq_refl). reflexivity.
Qed.

End StorageFacts.

Lemma bind_inv {S A B : Type} (c : M S A) (k : A -> M S B) (s s2 : S) (b : B) :
  bind c k s = (Returned b, s2) ->
  exists a s1, c s = (Returned a, s1) /\ k a s1 = (Returned b, s2).
Proof.
  unfold bind. destruct (c s) as [[a|e] s1]; cbn [fst snd]; [|discriminate].
  intros H. now exists a, s1.
Qed.

Lemma in_world_inv {S A : Type} (c : M World A) (s s' : S) (w w' : World) (r : Outcome A) :
  in_world c (s, w) = (r, (s', w')) -> c w = (r, w') /\ s' = s.
Proof.
  rewrite in_world_run. intros H. injection H as <- <- <-.
  split; [now destruct (c w)|reflexivity].
Qed.

Lemma Returned_injective {A : Type} (a b : A) : Returned a = Returned b -> a = b.
Proof. intros H. now injection H. Qed.

Section SaveFacts.
Context {P : Platform}.

(** [ensureConfigDir] only touches the file system. *)
Lemma ensureConfigDir_returned (ts ts1 : TokenStorage) (w w1 : World) :
  ensureConfigDir (ts, w) = (Returned tt, (ts1, w1)) ->
  ts1 = ts /\ w1 = set_fs w (fs w1) /\ write_fault (fs w1) = write_fault (fs w) /\
  chmod_fault (fs w1) = chmod_fault (fs w).
Proof.
  unfold ensureConfigDir. run. unfold fs_access, fs_mkdir.
  destruct (files (fs w) (configDir ts)) eqn:Hdir; run;
    try (intros H; injection H as <- <-; now destruct w).
  destruct (mkdir_fault (fs w)); run; [discriminate|].
  rewrite Hdir. intros H; injection H as <- <-. now destruct w.
Qed.

Lemma getEncryptionKey_returned (ts ts' : TokenStorage) (w w' : World) (key : list byte) :
  getEncryptionKey (ts, w) = (Returned key, (ts', w')) ->
  w' = w /\ encryptionKey ts' = Some key /\ tokenFilePath ts' = tokenFilePath ts /\
  configDir ts' = configDir ts.
Proof.
  rewrite getEncryptionKey_run.
  destruct (encryptionKey ts) as [k|] eqn:Hk.
  - intros H; injection H as <- <- <-. auto.
  - destruct (username (os w)); [|discriminate].
    intros H; injection H as <- <- <-. auto.
Qed.

(** A storage that holds its key hands it out in any world. *)
Lemma getEncryptionKey_cached (ts : TokenStorage) (w : World) (key : list byte) :
  encryptionKey ts = Some key -> getEncryptionKey (ts, w) = (Returned key, (ts, w)).
Proof. intros H. rewrite getEncryptionKey_run, H. reflexivity. Qed.

Lemma encrypt_with_cases (iv_ salt_ key : list byte) (plaintext : jsstring) :
  encrypt_with iv_ salt_ plaintext key
  = if negb (Z.of_nat (length key) =? 32) then Threw InvalidKeyLength
    else if Z.of_nat (length iv_) =? 0 then Threw InvalidIV
    else
      let ciphertext := gcm_crypt key iv_ 0 (utf8_encode plaintext) in
      Returned {| data := to_hex (ciphertext ++ gcm_auth_tag key iv_ salt_ ciphertext);
                  iv := to_hex iv_;
                  salt := to_hex salt_ |}.
Proof.
  unfold encrypt_with, createCipheriv.
  destruct (negb _); [reflexivity|].
  destruct (Z.of_nat (length iv_) =? 0); [reflexivity|].
  cbv zeta. rewrite to_hex_app. unfold cipher_update, cipher_final, getAuthTag.
  cbn [fst snd setAAD add_cipher_text cipher_key cipher_iv cipher_aad cipher_text
       length app].
  change (to_hex []) with (@nil Z). rewrite app_nil_r. reflexivity.
Qed.

Lemma encrypt_with_returned (iv_ salt_ key : list byte) (plaintext : jsstring)
      (envelope : EncryptedData) :
  encrypt_with iv_ salt_ plaintext key = Returned envelope ->
  length key = 32%nat /\ hex_envelope envelope.
Proof.
  rewrite encrypt_with_cases.
  destruct (Z.of_nat (length key) =? 32) eqn:Hk; cbn [negb]; [|discriminate].
  destruct (Z.of_nat (length iv_) =? 0); [discriminate|].
  cbv zeta. intros H. split; [apply Z.eqb_eq in Hk; lia|].
  apply Returned_injective in H. rewrite <- H. eexists _, _, _. reflexivity.
Qed.

Lemma fs_writeFile_returned (path : string) (content : jsstring) (mode : Z) (w w' : World) :
  fs_writeFile path content mode w = (Returned tt, w') ->
  w' = set_fs w (fs w') /\ chmod_fault (fs w') = chmod_fault (fs w) /\
  exists mode', files (fs w') path = File (utf8_encode content) mode'.
Proof.
  unfold fs_writeFile. destruct (write_fault (fs w)); [discriminate|].
  destruct (files (fs w) path); try discriminate;
    intros H; injection H as <-; cbn [fs set_fs set_file files chmod_fault];
    rewrite String.eqb_refl; (split; [now destruct w|split; [reflexivity|eexists; reflexivity]]).
Qed.

Lemma setSecurePermissions_run (path : string) (ts : TokenStorage) (w : World)
      (content : list byte) (mode : Z) :
  files (fs w) path = File content mode ->
  exists w', setSecurePermissions path (ts, w) = (Returned tt, (ts, w')) /\
             w' = set_fs w (fs w') /\
             exists mode', files (fs w') path = File content mode'.
Proof.
  intros Hf. unfold setSecurePermissions. run. unfold fs_chmod.
  destruct (chmod_fault (fs w)); run.
  - exists w. split; [reflexivity|]. split; [now destruct w|]. now exists mode.
  - rewrite Hf. eexists. split; [reflexivity|].
    cbn [fs set_fs set_file files]. rewrite String.eqb_refl.
    split; [now destruct w|]. now exists 384.
Qed.

(** What a [saveTokens] that returns has done. *)
Lemma saveTokens_returned (tokens : ref) (ts ts' : TokenStorage) (w w' : World) :
  saveTokens tokens (ts, w) = (Returned tt, (ts', w')) ->
  exists key envelope mode,
    fst (getEncryptionKey (ts, w)) = Returned key /\
    ts' = fst (snd (getEncryptionKey (ts, w))) /\
    encrypt_with (next_bytes (random w) 16) (next_bytes (advance (random w) 16) 32)
                 (JSON_stringify_TokenSet (objects (heap w) tokens)) key
    = Returned envelope /\
    files (fs w') (tokenFilePath ts)
    = File (utf8_encode (JSON_stringify_EncryptedData envelope)) mode /\
    w' = set_random (set_fs w (fs w')) (advance (advance (random w) 16) 32).
Proof.
  unfold saveTokens. intros H.
  apply bind_inv in H as ([] & [ts1 w1] & Hdir & H).
  apply ensureConfigDir_returned in Hdir as (-> & Hw1 & _ & _).
  apply bind_inv in H as (key & [ts2 w2] & Hkey & H).
  assert (Hkey0 : getEncryptionKey (ts, w) = (Returned key, (ts2, w))).
  { rewrite getEncryptionKey_run in Hkey |- *. rewrite Hw1 in Hkey. cbn [os set_fs] in Hkey.
    destruct (encryptionKey ts); [congruence|].
    destruct (username (os w)); [|discriminate]. congruence. }
  apply getEncryptionKey_returned in Hkey as (-> & Hcached & Hpath & _).
  apply bind_inv in H as (t & [ts3 w3] & Hread & H).
  apply in_world_inv in Hread as [Hread ->]. unfold read_object, gets in Hread.
  injection Hread as <- <-.
  apply bind_inv in H as (envelope & [ts4 w4] & Henc & H).
  apply in_world_inv in Henc as [Henc ->]. rewrite encrypt_unfold in Henc.
  injection Henc as Henc <-.
  apply bind_inv in H as (self & [ts5 w5] & Hthis & H).
  unfold this, gets in Hthis. injection Hthis as <- <- <-. cbn [fst] in H.
  apply bind_inv in H as ([] & [ts6 w6] & Hwrite & H).
  apply in_world_inv in Hwrite as [Hwrite ->].
  apply fs_writeFile_returned in Hwrite as (Hw6 & _ & mode & Hfile).
  destruct (setSecurePermissions_run (tokenFilePath ts2) ts2 w6 _ _ Hfile)
    as (w7 & Hperm & Hw7 & mode' & Hfile').
  rewrite Hperm in H. injection H as <- <-.
  exists key, envelope, mode'. rewrite Hkey0. cbn [fst snd].
  rewrite Hw1 in Henc. cbn [random heap set_fs] in Henc.
  rewrite <- Hpath. repeat split; try assumption.
  rewrite Hw7, Hw6, Hw1. reflexivity.
Qed.

End SaveFacts.

Section LoadFacts.
Context {P : Platform}.


(** The tag stored in an envelope has to be the tag of its ciphertext. *)
Lemma decrypt_wrong_tag (envelope : EncryptedData) (key : list byte) :
  let iv_ := from_hex (iv envelope) in
  let tag := from_hex (slice (data envelope) (- TAG_LENGTH * 2) None) in
  let ciphertext := from_hex (slice (data envelope) 0 (Some (- TAG_LENGTH * 2))) in
  length key = 32%nat -> iv_ <> [] ->
  valid_tag_length (Z.of_nat (length tag)) = true ->
  tag <> firstn (length tag) (gcm_auth_tag key iv_ (from_hex (salt envelope)) ciphertext) ->
  decrypt envelope key = Threw UnableToAuthenticate.
Proof.
  cbv zeta. intros Hkey Hiv Hlen Htag.
  unfold decrypt, createDecipheriv, createCipheriv. rewrite Hkey. cbn [negb Z.of_nat Pos.of_succ_nat].
  change (Z.pos _ =? 32) with true. cbn [negb].
  destruct (from_hex (iv envelope)) as [|b iv_] eqn:Hiv'; [contradiction|].
  change (Z.of_nat (length (b :: iv_)) =? 0) with false. cbv iota.
  unfold setAuthTag. rewrite Hlen.
  unfold decipher_update, decipher_final, getAuthTag.
  cbn [setAAD fst snd add_cipher_text cipher_key cipher_iv cipher_aad cipher_text
       cipher_auth_tag app length].
  destruct (list_eq_dec _ _ _) as [Heq|_]; [contradiction|reflexivity].
Qed.

(** C10: after a [saveTokens] that returned, [loadTokens] by a storage on the
    same file with the same key returns a new object whose record equals the
    one saved, provided that record is JSON-representable. *)
Theorem save_then_load {F : JsonFaithful P} (tokens : ref) (ts ts1 ts2 : TokenStorage)
        (w w1 : World) :
  saveTokens tokens (ts, w) = (Returned tt, (ts1, w1)) ->
  json_representable (objects (heap w) tokens) ->
  tokenFilePath ts2 = tokenFilePath ts ->
  fst (getEncryptionKey (ts2, w1)) = fst (getEncryptionKey (ts, w)) ->
  exists loaded ts3 w2,
    loadTokens (ts2, w1) = (Returned (Some loaded), (ts3, w2)) /\
    objects (heap w2) loaded = objects (heap w) tokens.
Proof.
  intros Hsave Hrep Hpath Hsame.
  apply saveTokens_returned in Hsave as (key & envelope & mode & Hkey & _ & Henc & Hfile & _).
  pose proof (encrypt_with_returned _ _ _ _ _ Henc) as [Hlen Hhex].
  rewrite loadTokens_run, Hpath, Hfile.
  rewrite utf8_roundtrip by now apply envelope_well_formed.
  rewrite envelope_round_trip by assumption. cbv zeta.
  rewrite Hsame, Hkey.
  destruct (decrypt_encrypt_with
              (next_bytes (random w) 16) (next_bytes (advance (random w) 16) 32) key _
              (stringify_well_formed (objects (heap w) tokens)) Hlen
              (next_bytes_nonempty (random w) 15)) as (envelope' & Henc' & Hdec).
  rewrite Henc in Henc'. apply Returned_injective in Henc'. subst envelope'.
  rewrite Hdec, Hrep.
  eexists _, _, _. split; [reflexivity|].
  unfold new_object. cbn [snd heap set_heap objects]. now rewrite Nat.eqb_refl.
Qed.

(** The storage that saved holds the key it used. *)
Lemma saveTokens_keeps_key (tokens : ref) (ts ts1 : TokenStorage) (w w1 : World) :
  saveTokens tokens (ts, w) = (Returned tt, (ts1, w1)) ->
  tokenFilePath ts1 = tokenFilePath ts /\
  fst (getEncryptionKey (ts1, w1)) = fst (getEncryptionKey (ts, w)).
Proof.
  intros Hsave.
  apply saveTokens_returned in Hsave as (key & envelope & mode & Hkey & -> & _).
  destruct (getEncryptionKey (ts, w)) as [r [ts' w']] eqn:Hk. cbn [fst snd] in *. subst r.
  apply getEncryptionKey_returned in Hk as (_ & Hc & Hp & _).
  split; [exact Hp|]. now rewrite (getEncryptionKey_cached _ _ _ Hc).
Qed.

(** A storage created anew derives the same key on the same machine. *)
Lemma getEncryptionKey_same_machine (ts ts' : TokenStorage) (w w' : World) :
  encryptionKey ts = None -> encryptionKey ts' = None -> os w' = os w ->
  fst (getEncryptionKey (ts', w')) = fst (getEncryptionKey (ts, w)).
Proof.
  intros H H' Hos. rewrite !getEncryptionKey_run, H, H', Hos.
  destruct (username (os w)); reflexivity.
Qed.

End LoadFacts.

(** ** The small platform satisfies what the theorems ask of JSON *)

Lemma hex_digit_range (d : Z) : 0 <= d < 16 -> 48 <= hex_digit d <= 102.
Proof. intros H. unfold hex_digit. destruct (d <? 10) eqn:E; lia. Qed.

Lemma to_hex_range (bs : list byte) : Forall (fun c => 48 <= c <= 102) (to_hex bs).
Proof.
  induction bs as [|b bs IH]; [constructor|].
  pose proof (Z_of_byte_range b) as Hb.
  cbn [to_hex]. repeat constructor; try exact IH; apply hex_digit_range; zlia.
Qed.

Lemma well_formed_below_surrogates (s : jsstring) :
  Forall (fun c => 0 <= c < 55296) s -> well_formed s = true.
Proof.
  induction 1 as [|c s Hc _ IH]; [reflexivity|].
  cbn [well_formed]. unfold is_high_surrogate, is_low_surrogate, is_code_unit.
  replace (55296 <=? c) with false by lia.
  replace (56320 <=? c) with false by lia.
  replace (0 <=? c) with true by lia.
  replace (c <? 65536) with true by lia.
  exact IH.
Qed.

Lemma split_comma_app (a b : jsstring) :
  Forall (fun c => 48 <= c <= 102) a -> split_comma (a ++ 44 :: b) = Some (a, b).
Proof.
  induction 1 as [|c a Hc _ IH]; [reflexivity|].
  cbn [app split_comma]. replace (c =? 44) with false by lia. now rewrite IH.
Qed.

Lemma toy_platform_faithful (documents : list (TokenSet * jsstring)) :
  Forall (fun d => well_formed (snd d) = true) documents ->
  JsonFaithful (toy_platform documents).
Proof.
  intros Hdocs. constructor.
  - intros t. cbn [JSON_stringify_TokenSet toy_platform]. unfold toy_stringify_tokens.
    destruct (find _ documents) as [d|] eqn:Hfind; [|reflexivity].
    apply find_some in Hfind. destruct Hfind as [Hin _].
    now apply (proj1 (Forall_forall _ _) Hdocs).
  - intros e (d & i & s & ->).
    cbn [JSON_stringify_EncryptedData toy_platform]. unfold toy_stringify_envelope.
    cbn [data iv salt]. apply well_formed_below_surrogates.
    repeat (apply Forall_app; split) || constructor; try lia;
      (eapply Forall_impl; [|apply to_hex_range]); cbv beta; lia.
  - intros e (d & i & s & ->).
    cbn [JSON_stringify_EncryptedData JSON_parse_EncryptedData toy_platform].
    unfold toy_stringify_envelope, toy_parse_envelope. cbn [data iv salt].
    rewrite split_comma_app by apply to_hex_range.
    rewrite split_comma_app by apply to_hex_range. reflexivity.
Qed.

Lemma save_then_load_witness :
  let P := toy_platform sample_documents in
  exists tokens w,
    new_object sample_tokens toy_world = (Returned tokens, w) /\
    exists ts1 w1 loaded ts2 w2,
      @saveTokens P tokens (sample_storage, w) = (Returned tt, (ts1, w1)) /\
      @loadTokens P (ts1, w1) = (Returned (Some loaded), (ts2, w2)) /\
      objects (heap w2) loaded = sample_tokens.
Proof.
  cbv zeta. eexists _, _. split; [reflexivity|].
  set (P := toy_platform sample_documents).
  set (w := snd (new_object sample_tokens toy_world)).
  set (s1 := snd (@saveTokens P 0%nat (sample_storage, w))).
  assert (Hsave : @saveTokens P 0%nat (sample_storage, w) = (Returned tt, (fst s1, snd s1)))
    by (vm_compute; reflexivity).
  exists (fst s1), (snd s1).
  destruct (@save_then_load P (toy_platform_faithful sample_documents
                                 ltac:(repeat constructor))
              0%nat sample_storage (fst s1) (fst s1) w (snd s1) Hsave)
    as (loaded & ts2 & w2 & Hload & Hobj).
  - reflexivity.
  - reflexivity.
  - exact (proj2 (saveTokens_keeps_key _ _ _ _ _ Hsave)).
  - exists loaded, ts2, w2. repeat split; assumption.
Defined.

(** ** Expiry timestamps *)

Lemma updateTokenExpiry_run (ts : TokenStorage) (w : World) (tokens : ref) :
  let t := objects (heap w) tokens in
  updateTokenExpiry tokens (ts, w)
  = (Returned tokens,
     (ts, match expires_in t with
          | Some lifetime =>
              if lifetime =? 0 then w
              else snd (write_object tokens
                          (set_expires_at t (Some (current_seconds w + lifetime)))
                          (snd (Date_now w)))
          | None => w
          end)).
Proof.
  cbv zeta. unfold updateTokenExpiry. run.
  destruct (expires_in (objects (heap w) tokens)) as [lifetime|]; cbn [truthy_number];
    [|reflexivity].
  destruct (lifetime =? 0); reflexivity.
Qed.

(** C7, as amended: [updateTokenExpiry] reads the clock and assigns to the
    object it is given, which it returns.  If [expires_in] is present and not
    0, [expires_at] of that object becomes the current time in seconds plus
    [expires_in] and no other field changes; if [expires_in] is absent or 0
    the object is left as it is, with whatever [expires_at] it has.  No other
    object changes. *)
Theorem updateTokenExpiry_in_place (ts : TokenStorage) (w : World) (tokens : ref) :
  let t := objects (heap w) tokens in
  exists w',
    updateTokenExpiry tokens (ts, w) = (Returned tokens, (ts, w')) /\
    objects (heap w') tokens
    = match expires_in t with
      | Some lifetime =>
          if lifetime =? 0 then t
          else set_expires_at t (Some (current_seconds w + lifetime))
      | None => t
      end /\
    (forall r, r <> tokens -> objects (heap w') r = objects (heap w) r).
Proof.
  cbv zeta. rewrite updateTokenExpiry_run. cbv zeta. eexists. split; [reflexivity|].
  destruct (expires_in (objects (heap w) tokens)) as [lifetime|]; [|now split].
  destruct (lifetime =? 0); [now split|].
  cbn [write_object modify snd heap set_heap objects Date_now set_clock].
  rewrite Nat.eqb_refl. split; [reflexivity|].
  intros r Hr. apply Nat.eqb_neq in Hr. now rewrite Hr.
Qed.

(** C7, as stated, fails on three counts: a lifetime of 0 is present and no
    [expires_at] is set; a record without [expires_in] keeps the [expires_at]
    it came with; and the argument itself is changed, so the function is not
    pure. *)
Lemma updateTokenExpiry_not_as_stated :
  (let t := {| access_token := js "a"; refresh_token := None; expires_in := Some 0;
               token_type := None; scope := None; expires_at := None |} in
   exists tokens w w',
     new_object t toy_world = (Returned tokens, w) /\
     updateTokenExpiry tokens (sample_storage, w) = (Returned tokens, (sample_storage, w')) /\
     expires_in (objects (heap w') tokens) = Some 0 /\
     expires_at (objects (heap w') tokens) = None) /\
  (let t := {| access_token := js "a"; refresh_token := None; expires_in := None;
               token_type := None; scope := None; expires_at := Some 5 |} in
   exists tokens w w',
     new_object t toy_world = (Returned tokens, w) /\
     updateTokenExpiry tokens (sample_storage, w) = (Returned tokens, (sample_storage, w')) /\
     expires_in (objects (heap w') tokens) = None /\
     expires_at (objects (heap w') tokens) = Some 5) /\
  (exists tokens w w',
     new_object sample_tokens toy_world = (Returned tokens, w) /\
     updateTokenExpiry tokens (sample_storage, w) = (Returned tokens, (sample_storage, w')) /\
     objects (heap w) tokens = sample_tokens /\
     objects (heap w') tokens = set_expires_at sample_tokens (Some 1700003600)).
Proof.
  cbv zeta. repeat split; eexists _, _, _; repeat split.
Qed.

(** ** Frame rules *)

Section Frames.
Context {S : Type} (R : S -> S -> Prop).
Hypothesis R_refl : forall s, R s s.
Hypothesis R_trans : forall s1 s2 s3, R s1 s2 -> R s2 s3 -> R s1 s3.

Lemma frames_ret {A : Type} (a : A) : frames R (ret a).
Proof. intros s. apply R_refl. Qed.

Lemma frames_throw {A : Type} (e : JsError) : frames R (@throw S A e).
Proof. intros s. apply R_refl. Qed.

Lemma frames_lift {A : Type} (o : Outcome A) : frames R (lift o).
Proof. intros s. apply R_refl. Qed.

Lemma frames_gets {A : Type} (f : S -> A) : frames R (gets f).
Proof. intros s. apply R_refl. Qed.

Lemma frames_bind {A B : Type} (c : M S A) (k : A -> M S B) :
  frames R c -> (forall a, frames R (k a)) -> frames R (bind c k).
Proof.
  intros Hc Hk s. unfold bind. specialize (Hc s).
  destruct (c s) as [[a|e] s1]; cbn [fst snd] in *; [|exact Hc].
  eapply R_trans; [exact Hc|apply Hk].
Qed.

Lemma frames_try_catch {A : Type} (c : M S A) (h : JsError -> M S A) :
  frames R c -> (forall e, frames R (h e)) -> frames R (try_catch c h).
Proof.
  intros Hc Hh s. unfold try_catch. specialize (Hc s).
  destruct (c s) as [[a|e] s1]; cbn [fst snd] in *; [exact Hc|].
  eapply R_trans; [exact Hc|apply Hh].
Qed.

Lemma frames_try_finally {A : Type} (c : M S A) (f : M S unit) :
  frames R c -> frames R f -> frames R (try_finally c f).
Proof.
  intros Hc Hf s. unfold try_finally. specialize (Hc s). specialize (Hf (snd (c s))).
  destruct (f (snd (c s))) as [[u|e] s2]; cbn [fst snd] in *;
    eapply R_trans; eassumption.
Qed.

End Frames.

(** A computation on the world frames what its world part frames. *)
Lemma frames_in_world {S A : Type} (Rw : World -> World -> Prop)
      (R : S * World -> S * World -> Prop) (c : M World A) :
  (forall s w w', Rw w w' -> R (s, w) (s, w')) ->
  frames Rw c -> frames R (@in_world S A c).
Proof. intros HR Hc [s w]. rewrite in_world_run. cbn [snd]. apply HR, Hc. Qed.

Lemma frames_in_storage {A : Type} (Rs : TokenStorage * World -> TokenStorage * World -> Prop)
      (R : OAuthManager * World -> OAuthManager * World -> Prop)
      (c : M (TokenStorage * World) A) :
  (forall m w ts' w', Rs (tokenStorage m, w) (ts', w') -> R (m, w) (set_tokenStorage m ts', w')) ->
  frames Rs c -> frames R (in_storage c).
Proof.
  intros HR Hc [m w]. unfold in_storage. cbn [fst snd]. apply HR.
  specialize (Hc (tokenStorage m, w)). now destruct (c (tokenStorage m, w)) as [r [ts' w']].
Qed.

(** Goals [frames R c] by the structure of [c]; [prim] settles the leaves. *)
Ltac frames_with refl trans prim :=
  repeat first
    [ prim
    | apply (frames_ret _ refl)
    | apply (frames_throw _ refl)
    | apply (frames_lift _ refl)
    | apply (frames_gets _ refl)
    | apply (frames_bind _ trans); [|intros ?]
    | apply (frames_try_catch _ trans); [|intros ?]
    | apply (frames_try_finally _ trans)
    | progress unfold parse_or_throw
    | match goal with
      | |- frames _ (match ?x with _ => _ end) => destruct x
      | |- frames _ (let _ := _ in _) => cbv zeta
      end ].

(** ** The callback listener *)

Lemma frames_bind_post {S A B : Type} (Q R : S -> S -> Prop) (c : M S A) (k : A -> M S B) :
  (forall s1 s2 s3, Q s1 s2 -> R s2 s3 -> Q s1 s3) ->
  frames Q c -> (forall a, frames R (k a)) -> frames Q (bind c k).
Proof.
  intros HQR Hc Hk s. unfold bind. specialize (Hc s).
  destruct (c s) as [[a|e] s1]; cbn [fst snd] in *; [|exact Hc].
  eapply HQR; [exact Hc|apply Hk].
Qed.

Lemma same_listeners_refl (w : World) : same_listeners w w.
Proof. reflexivity. Qed.

Lemma same_listeners_trans (w1 w2 w3 : World) :
  same_listeners w1 w2 -> same_listeners w2 w3 -> same_listeners w1 w3.
Proof. unfold same_listeners. congruence. Qed.

Lemma on_world_refl {S : Type} (Rw : World -> World -> Prop) :
  (forall w, Rw w w) -> forall s : S * World, on_world Rw s s.
Proof. intros H s. apply H. Qed.

Lemma on_world_trans {S : Type} (Rw : World -> World -> Prop) :
  (forall w1 w2 w3, Rw w1 w2 -> Rw w2 w3 -> Rw w1 w3) ->
  forall s1 s2 s3 : S * World, on_world Rw s1 s2 -> on_world Rw s2 s3 -> on_world Rw s1 s3.
Proof. intros H s1 s2 s3. apply H. Qed.

Lemma same_server_refl (s : OAuthManager * World) : same_server s s.
Proof. split; reflexivity. Qed.

Lemma same_server_trans (s1 s2 s3 : OAuthManager * World) :
  same_server s1 s2 -> same_server s2 s3 -> same_server s1 s3.
Proof. unfold same_server, same_listeners. intros [] []. split; congruence. Qed.

(** A primitive that leaves the part of the world a relation looks at alone. *)
Ltac untouched :=
  let w := fresh "w" in
  intros w;
  cbv beta delta [same_listeners nothing_sent Date_now randomBytes new_object read_object
                  write_object fs_access fs_mkdir fs_writeFile fs_readFile fs_chmod
                  fs_unlink os_hostname os_userInfo_username fetch response_json
                  next_request respond gets modify throw ret lift];
  repeat match goal with
         | |- context [match ?x with _ => _ end] => destruct x
         end;
  reflexivity.

Section ListenerFacts.
Context {P : Platform}.

Ltac world_frame :=
  first [ apply (frames_in_world same_listeners);
          [intros ? ? ? H; exact H | ]
        | untouched ].

Ltac listeners_storage :=
  frames_with (@on_world_refl TokenStorage _ same_listeners_refl)
              (@on_world_trans TokenStorage _ same_listeners_trans)
              world_frame.

Lemma generateRandomString_listeners (n : Z) : frames same_listeners (generateRandomString n).
Proof.
  unfold generateRandomString.
  frames_with same_listeners_refl same_listeners_trans untouched.
Qed.

Lemma encrypt_listeners (plaintext : jsstring) (key : list byte) :
  frames same_listeners (encrypt plaintext key).
Proof. intros w. rewrite encrypt_unfold. reflexivity. Qed.

Lemma getEncryptionKey_listeners : frames (on_world same_listeners) getEncryptionKey.
Proof. intros [ts w]. unfold on_world. now rewrite getEncryptionKey_world. Qed.

Lemma saveTokens_listeners (tokens : ref) : frames (on_world same_listeners) (saveTokens tokens).
Proof.
  unfold saveTokens, ensureConfigDir, setSecurePermissions.
  listeners_storage.
Qed.

Lemma updateTokenExpiry_listeners (tokens : ref) :
  frames (on_world same_listeners) (updateTokenExpiry tokens).
Proof.
  intros [ts w]. rewrite updateTokenExpiry_run. cbv zeta. unfold on_world. cbn [snd].
  destruct (expires_in _) as [n|]; [|reflexivity]. destruct (n =? 0); reflexivity.
Qed.

Ltac manager_frame :=
  first [ apply (frames_in_world same_listeners);
          [intros ? ? ? H; split; [reflexivity|exact H] | first [apply generateRandomString_listeners | untouched]]
        | apply (frames_in_storage (on_world same_listeners));
          [intros ? ? ? ? H; split; [reflexivity|exact H]
          | first [apply saveTokens_listeners | apply updateTokenExpiry_listeners]]
        | (intros [? ?]; split; reflexivity) ].

Ltac listeners_manager := frames_with same_server_refl same_server_trans manager_frame.

Lemma getAuthorizationUrl_server : frames same_server getAuthorizationUrl.
Proof. unfold getAuthorizationUrl, generatePKCE. listeners_manager. Qed.

Lemma exchangeCodeForTokens_server (code : jsstring) :
  frames same_server (exchangeCodeForTokens code).
Proof. unfold exchangeCodeForTokens. listeners_manager. Qed.

Lemma handle_requests_listeners (requests : list IncomingRequest) :
  frames same_listeners (handle_requests requests).
Proof.
  induction requests as [|req rest IH]; cbn [handle_requests];
    frames_with same_listeners_refl same_listeners_trans ltac:(first [exact IH | untouched]).
Qed.

Lemma waitForCallback_server : frames same_server waitForCallback.
Proof.
  unfold waitForCallback. listeners_manager.
  apply (frames_in_world same_listeners); [intros ? ? ? H; split; [reflexivity|exact H]|].
  apply handle_requests_listeners.
Qed.

End ListenerFacts.

Section FlowFacts.
Context {P : Platform}.

(** The [listen] calls keep the manager's server and add at most that server
    to the listening ones. *)
Lemma listen_from_server (script : list ListenOutcome) (server : Server)
      (m : OAuthManager) (w : World) :
  let s' := snd (listen_from script server (m, w)) in
  callbackServer (fst s') = callbackServer m /\
  forall sp, In sp (listening (sockets (snd s'))) ->
             In sp (listening (sockets w)) \/ fst sp = server.
Proof.
  revert m w. induction script as [|[|c] rest IH]; intros m w; cbv zeta.
  - split; [reflexivity|]. cbn. intros sp [<-|H]; auto.
  - split; [reflexivity|]. cbn. intros sp [<-|H]; auto.
  - cbn [listen_from]. run. unfold listen_fails, modify. cbn [fst snd].
    destruct (String.eqb c "EADDRINUSE"); run; [|split; [reflexivity|auto]].
    match goal with
    | |- context [listen_from rest server (?m1, ?w1)] =>
        specialize (IH m1 w1); cbv zeta in IH;
        destruct (listen_from rest server (m1, w1)) as [[port|e] [m2 w2]]
    end; cbn [fst snd] in *; exact IH.
Qed.

Lemma startCallbackServer_started : frames server_started startCallbackServer.
Proof.
  intros [m w]. unfold startCallbackServer, server_started. run.
  unfold createServer. cbn [fst snd].
  match goal with
  | |- context [listen_from ?script ?h (?m1, ?w1)] =>
      pose proof (listen_from_server script h m1 w1) as H; cbv zeta in H;
      destruct (listen_from script h (m1, w1)) as [[port|e] [m2 w2]]
  end; cbn [fst snd] in *; exact H.
Qed.

Lemma server_started_then_same (s1 s2 s3 : OAuthManager * World) :
  server_started s1 s2 -> same_server s2 s3 -> server_started s1 s3.
Proof.
  unfold server_started, same_server, same_listeners. intros [Hs Hl] [Hs' Hl'].
  rewrite Hs', Hl'. now split.
Qed.

(** [stopCallbackServer] never throws; it closes the manager's server. *)
Lemma stopCallbackServer_run (m : OAuthManager) (w : World) :
  exists w',
    stopCallbackServer (m, w) = (Returned tt, (set_callbackServer m None, w')) /\
    forall sp, In sp (listening (sockets w')) <->
               In sp (listening (sockets w)) /\ Some (fst sp) <> callbackServer m.
Proof.
  unfold stopCallbackServer. run. destruct (callbackServer m) as [server|] eqn:Hs; run.
  - unfold server_close, modify. cbn [fst snd]. eexists. split; [reflexivity|].
    intros sp. cbn [sockets set_sockets listening]. rewrite filter_In, negb_true_iff, Nat.eqb_neq.
    destruct sp as [h p]. cbv [fst].
    split; intros [H1 H2]; (split; [exact H1|]); intros H; apply H2;
      [now injection H | now rewrite H].
  - exists w. split; [destruct m; cbn in *; now subst|].
    intros sp. split; [intros H; split; [exact H|discriminate]|now intros []].
Qed.

(** C9: however [completeOAuthFlow] ends, the manager then holds no callback
    server, the server the flow created is not listening, and no server is
    listening that was not listening before the flow. *)
Theorem completeOAuthFlow_stops_listener (m : OAuthManager) (w : World) :
  let m' := fst (snd (completeOAuthFlow (m, w))) in
  let w' := snd (snd (completeOAuthFlow (m, w))) in
  callbackServer m' = None /\
  (forall port, ~ In (created (sockets w), port) (listening (sockets w'))) /\
  (forall sp, In sp (listening (sockets w')) -> In sp (listening (sockets w))).
Proof.
  cbv zeta. unfold completeOAuthFlow.
  match goal with
  | |- context [try_finally ?body _] =>
      assert (Hbody : frames server_started body); [|set (flow := body) in *]
  end.
  { apply (frames_bind_post server_started same_server);
      [exact server_started_then_same | exact startCallbackServer_started |].
    intros port.
    frames_with same_server_refl same_server_trans
      ltac:(first [ apply getAuthorizationUrl_server | apply waitForCallback_server
                  | apply exchangeCodeForTokens_server
                  | (intros [? ?]; split; reflexivity) ]). }
  specialize (Hbody (m, w)). unfold try_finally.
  destruct (flow (m, w)) as [r [m1 w1]]. destruct Hbody as [Hs Hl]. cbn [fst snd] in *.
  destruct (stopCallbackServer_run m1 w1) as (w2 & -> & Hstop). cbn [fst snd].
  split; [reflexivity|]. split.
  - intros port Hin. apply Hstop in Hin. destruct Hin as [_ Hne]. apply Hne.
    now rewrite Hs.
  - intros sp Hin. apply Hstop in Hin. destruct Hin as [Hin Hne].
    destruct (Hl sp Hin) as [H|H]; [exact H|]. exfalso. apply Hne. now rewrite Hs, H.
Qed.

End FlowFacts.

(** ** Where errors come from *)

Section Throws.
Context {S : Type} (E : JsError -> Prop).

Lemma throws_only_ret {A : Type} (a : A) : throws_only E (@ret S A a).
Proof. intros s e. discriminate. Qed.

Lemma throws_only_gets {A : Type} (f : S -> A) : throws_only E (gets f).
Proof. intros s e. discriminate. Qed.

Lemma throws_only_modify (f : S -> S) : throws_only E (modify f).
Proof. intros s e. discriminate. Qed.

Lemma throws_only_throw {A : Type} (e : JsError) : E e -> throws_only E (@throw S A e).
Proof. intros He s e' H. injection H as <-. exact He. Qed.

Lemma throws_only_lift {A : Type} (o : Outcome A) :
  (forall e, o = Threw e -> E e) -> throws_only E (@lift S A o).
Proof. intros Ho s e H. now apply Ho. Qed.

Lemma throws_only_bind {A B : Type} (c : M S A) (k : A -> M S B) :
  throws_only E c -> (forall a, throws_only E (k a)) -> throws_only E (bind c k).
Proof.
  intros Hc Hk s e. unfold bind. specialize (Hc s).
  destruct (c s) as [[a|e'] s1]; cbn [fst snd] in *; [apply Hk|].
  intros H. injection H as <-. now apply Hc.
Qed.

Lemma throws_only_try_catch {A : Type} (c : M S A) (h : JsError -> M S A) :
  (forall e, throws_only E (h e)) -> throws_only E (try_catch c h).
Proof.
  intros Hh s e. unfold try_catch.
  destruct (c s) as [[a|e'] s1]; cbn [fst snd]; [discriminate|apply Hh].
Qed.

End Throws.

Lemma throws_only_in_world {S A : Type} (E : JsError -> Prop) (c : M World A) :
  throws_only E c -> throws_only E (@in_world S A c).
Proof. intros Hc [s w] e. rewrite in_world_run. cbn [fst]. apply Hc. Qed.

Lemma throws_only_in_storage {A : Type} (E : JsError -> Prop) (c : M (TokenStorage * World) A) :
  throws_only E c -> throws_only E (in_storage c).
Proof. intros Hc [m w] e. unfold in_storage. cbn [fst]. apply Hc. Qed.

(** Goals [throws_only E c] by the structure of [c]; [leaf] settles the rest. *)
Ltac throws_with leaf :=
  repeat first
    [ leaf
    | apply throws_only_ret
    | apply throws_only_gets
    | apply throws_only_modify
    | apply throws_only_throw
    | apply throws_only_lift; intros ? ?
    | apply throws_only_in_world
    | apply throws_only_in_storage
    | apply throws_only_bind; [|intros ?]
    | apply throws_only_try_catch; intros ?
    | match goal with
      | |- throws_only _ (match ?x with _ => _ end) => destruct x
      | |- throws_only _ (let _ := _ in _) => cbv zeta
      end ].

(** A primitive on the world: look at each way it can end. *)
Ltac primitive_throws :=
  let w := fresh "w" in
  let e := fresh "e" in
  let H := fresh "H" in
  intros w e;
  cbv beta delta [Date_now randomBytes new_object read_object write_object fs_access
                  fs_mkdir fs_writeFile fs_readFile fs_chmod fs_unlink os_hostname
                  os_userInfo_username fetch response_json next_request respond
                  gets modify throw ret lift fault ENOENT];
  repeat match goal with
         | |- context [match ?x with _ => _ end] => destruct x
         end;
  cbn [fst]; intros H; first [discriminate H | injection H as <-; discriminate].

Section ExchangeFacts.
Context {P : Platform}.

Let not_the_challenge_error (e : JsError) : Prop := e <> NoPKCEChallenge.

Lemma encrypt_with_throws (iv_ salt_ key : list byte) (plaintext : jsstring) (e : JsError) :
  encrypt_with iv_ salt_ plaintext key = Threw e -> e = InvalidKeyLength \/ e = InvalidIV.
Proof.
  rewrite encrypt_with_cases.
  destruct (negb _); [intros H; injection H as <-; auto|].
  destruct (_ =? 0); [intros H; injection H as <-; auto|discriminate].
Qed.

Lemma saveTokens_throws (tokens : ref) :
  throws_only not_the_challenge_error (saveTokens tokens).
Proof.
  unfold saveTokens, ensureConfigDir, setSecurePermissions, getEncryptionKey, encrypt.
  throws_with ltac:(first [ primitive_throws | discriminate ]).
  match goal with
  | H : encrypt_with _ _ _ _ = Threw _ |- _ =>
      apply encrypt_with_throws in H; destruct H as [-> | ->]; discriminate
  end.
Qed.

Lemma updateTokenExpiry_throws (tokens : ref) :
  throws_only not_the_challenge_error (updateTokenExpiry tokens).
Proof. intros [ts w] e. rewrite updateTokenExpiry_run. discriminate. Qed.

(** With a pending challenge, no failure of the exchange is the
    "no PKCE challenge" error. *)
Lemma exchange_with_challenge (code : jsstring) (m : OAuthManager) (w : World) :
  currentPKCE m <> None ->
  fst (exchangeCodeForTokens code (m, w)) <> Threw NoPKCEChallenge.
Proof.
  intros Hp H. revert H. unfold exchangeCodeForTokens.
  unfold bind at 1. unfold this at 1 2 3, gets at 1 2 3. cbn [fst snd].
  destruct (currentPKCE m) as [pkce|]; [|contradiction].
  match goal with
  | |- fst (?c (m, w)) = _ -> _ =>
      assert (Hc : throws_only not_the_challenge_error c)
  end.
  { throws_with ltac:(first [ apply saveTokens_throws | apply updateTokenExpiry_throws
                            | primitive_throws | discriminate ]). }
  intros H. now apply Hc in H.
Qed.

Lemma exchange_without_challenge (code : jsstring) (m : OAuthManager) (w : World) :
  currentPKCE m = None ->
  exchangeCodeForTokens code (m, w) = (Threw NoPKCEChallenge, (m, w)).
Proof. intros H. unfold exchangeCodeForTokens. run. now rewrite H. Qed.

(** An exchange that returns has cleared the pending challenge. *)
Lemma exchange_clears_challenge (code : jsstring) (m m' : OAuthManager) (w w' : World)
      (tokens : ref) :
  exchangeCodeForTokens code (m, w) = (Returned tokens, (m', w')) -> currentPKCE m' = None.
Proof.
  unfold exchangeCodeForTokens. intros H.
  apply bind_inv in H as (self & s0 & _ & H).
  destruct (currentPKCE self); [|discriminate].
  apply bind_inv in H as (response & s1 & _ & H).
  destruct (negb (resp_ok response)); [discriminate|].
  apply bind_inv in H as (t & s2 & _ & H).
  apply bind_inv in H as (t' & s3 & _ & H).
  apply bind_inv in H as (u & s4 & _ & H).
  apply bind_inv in H as (u' & s5 & Hset & H).
  unfold ret in H. injection H as _ Hs5. subst s5.
  unfold set_this, modify in Hset. injection Hset as _ Hm _. now rewrite <- Hm.
Qed.

(** [getAuthorizationUrl] always returns and leaves a challenge pending. *)
Lemma getAuthorizationUrl_pending (m : OAuthManager) (w : World) :
  exists url m' w',
    getAuthorizationUrl (m, w) = (Returned url, (m', w')) /\ currentPKCE m' <> None.
Proof.
  unfold getAuthorizationUrl, generatePKCE, generateRandomString. run.
  eexists _, _, _. split; [reflexivity|]. discriminate.
Qed.

(** C4: [exchangeCodeForTokens] fails with the "no PKCE challenge" error
    exactly when no challenge is pending.  None is pending in a manager just
    constructed; [getAuthorizationUrl] leaves one pending; an exchange that
    returns leaves none, so that a second exchange fails with that error in
    whatever world it is tried. *)
Theorem exchange_requires_challenge (code : jsstring) (m : OAuthManager) (w : World) :
  (fst (exchangeCodeForTokens code (m, w)) = Threw NoPKCEChallenge <-> currentPKCE m = None) /\
  (forall cfg storage,
      fst (exchangeCodeForTokens code (new_OAuthManager cfg storage, w))
      = Threw NoPKCEChallenge) /\
  (exists url m' w',
      getAuthorizationUrl (m, w) = (Returned url, (m', w')) /\ currentPKCE m' <> None) /\
  (forall tokens m' w',
      exchangeCodeForTokens code (m, w) = (Returned tokens, (m', w')) ->
      currentPKCE m' = None /\
      forall code' w'', fst (exchangeCodeForTokens code' (m', w'')) = Threw NoPKCEChallenge).
Proof.
  split; [split|split; [|split]].
  - intros H. destruct (currentPKCE m) eqn:Hp; [|reflexivity].
    exfalso. revert H. apply exchange_with_challenge. now rewrite Hp.
  - intros H. now rewrite exchange_without_challenge.
  - intros cfg storage. now rewrite exchange_without_challenge.
  - apply getAuthorizationUrl_pending.
  - intros tokens m' w' H. apply exchange_clears_challenge in H.
    split; [exact H|]. intros code' w''. now rewrite exchange_without_challenge.
Qed.

End ExchangeFacts.

(** ** Refreshing *)

Lemma in_world_returned {S A : Type} (c : M World A) (s : S) (w w' : World) (r : Outcome A) :
  c w = (r, w') -> in_world c (s, w) = (r, (s, w')).
Proof. intros H. rewrite in_world_run, H. reflexivity. Qed.

Lemma in_storage_returned {A : Type} (c : M (TokenStorage * World) A) (m : OAuthManager)
      (w w' : World) (ts' : TokenStorage) (r : Outcome A) :
  c (tokenStorage m, w) = (r, (ts', w')) ->
  in_storage c (m, w) = (r, (set_tokenStorage m ts', w')).
Proof. intros H. unfold in_storage. cbn [fst snd]. rewrite H. reflexivity. Qed.

Lemma set_tokenStorage_same (m : OAuthManager) : set_tokenStorage m (tokenStorage m) = m.
Proof. now destruct m. Qed.

Section RefreshFacts.
Context {P : Platform}.

(** [refreshAccessToken] from a stored record with a refresh token and a
    successful response: the object it creates, the world in which it calls
    [saveTokens], and its outcome, which is that of [saveTokens]. *)
Lemma refreshAccessToken_run (m m1 : OAuthManager) (w w1 : World) (existing : ref)
      (resp : Response) (rest : list FetchOutcome) (new : TokenSet) :
  in_storage loadTokens (m, w) = (Returned (Some existing), (m1, w1)) ->
  truthy_string (refresh_token (objects (heap w1) existing)) = true ->
  replies (network w1) = Responded resp :: rest ->
  resp_ok resp = true ->
  resp_json resp = Some new ->
  let old := objects (heap w1) existing in
  let r := allocated (heap w1) in
  let merged := if truthy_string (refresh_token new) then new
                else set_refresh_token new (refresh_token old) in
  let final := match expires_in new with
               | Some lifetime =>
                   if lifetime =? 0 then merged
                   else set_expires_at merged (Some (current_seconds w1 + lifetime))
               | None => merged
               end in
  exists w2,
    objects (heap w2) r = final /\
    (forall r', r' <> r -> objects (heap w2) r' = objects (heap w1) r') /\
    fs w2 = fs w1 /\ random w2 = random w1 /\ os w2 = os w1 /\
    (exists request, sent (network w2) = request :: sent (network w1)) /\
    refreshAccessToken (m, w)
    = (match fst (saveTokens r (tokenStorage m1, w2)) with
       | Returned _ => Returned r
       | Threw e => Threw e
       end,
       (set_tokenStorage m1 (fst (snd (saveTokens r (tokenStorage m1, w2)))),
        snd (snd (saveTokens r (tokenStorage m1, w2))))).
Proof.
  intros Hload Htruthy Hreply Hok Hjson. cbv zeta.
  unfold refreshAccessToken. rewrite (bind_returned _ _ _ _ _ Hload). cbv beta iota.
  erewrite bind_returned by (apply in_world_returned; reflexivity).
  rewrite Htruthy. cbn [negb andb].
  erewrite bind_returned by reflexivity.
  match goal with
  | |- context [fetch ?req] =>
      set (request := req);
      set (w2 := set_network w1 {| replies := rest; sent := request :: sent (network w1) |})
  end.
  assert (Hfetch : fetch request w1 = (Returned resp, w2))
    by (unfold fetch; rewrite Hreply; reflexivity).
  rewrite (bind_returned _ _ _ _ _ (in_world_returned _ m1 _ _ _ Hfetch)).
  rewrite Hok. cbn [negb].
  set (r := allocated (heap w1)).
  set (w3 := snd (new_object new w2)).
  assert (Hnew : response_json resp w2 = (Returned r, w3))
    by (unfold response_json; rewrite Hjson; reflexivity).
  rewrite (bind_returned _ _ _ _ _ (in_world_returned _ m1 _ _ _ Hnew)).
  erewrite bind_returned by (apply in_world_returned; reflexivity).
  assert (Hobj : objects (heap w3) r = new)
    by (subst w3 r; cbn [new_object snd heap set_heap objects set_network];
        now rewrite Nat.eqb_refl).
  rewrite Hobj, andb_true_r.
  set (merged := if truthy_string (refresh_token new) then new
                 else set_refresh_token new (refresh_token (objects (heap w1) existing))).
  set (w4 := if truthy_string (refresh_token new) then w3
             else snd (write_object r merged w3)).
  assert (Hmerge :
    (if negb (truthy_string (refresh_token new))
     then in_world (write_object r
            (set_refresh_token new (refresh_token (objects (heap w1) existing))))
     else ret tt) (m1, w3) = (Returned tt, (m1, w4))).
  { subst w4 merged. destruct (truthy_string (refresh_token new)); reflexivity. }
  rewrite (bind_returned _ _ _ _ _ Hmerge).
  assert (Hobj4 : objects (heap w4) r = merged).
  { subst w4 merged. destruct (truthy_string (refresh_token new)); [exact Hobj|].
    cbn [write_object modify snd heap set_heap objects]. now rewrite Nat.eqb_refl. }
  pose proof (updateTokenExpiry_run (tokenStorage m1) w4 r) as Hupd. cbv zeta in Hupd.
  assert (Hexp : expires_in merged = expires_in new)
    by (subst merged; now destruct (truthy_string (refresh_token new))).
  assert (Hsec : current_seconds w4 = current_seconds w1)
    by (subst w4; now destruct (truthy_string (refresh_token new))).
  rewrite Hobj4, Hexp, Hsec in Hupd.
  rewrite (bind_returned _ _ _ _ _ (in_storage_returned _ _ _ _ _ _ Hupd)).
  rewrite set_tokenStorage_same.
  match type of Hupd with
  | _ = (_, (_, ?w)) => set (w5 := w) in *
  end.
  exists w5.
  repeat split.
  - subst w5. destruct (expires_in new) as [n|]; [|exact Hobj4].
    destruct (n =? 0); [exact Hobj4|].
    cbn [write_object modify snd heap set_heap objects]. now rewrite Nat.eqb_refl.
  - intros r' Hr'. apply Nat.eqb_neq in Hr'.
    assert (H3 : objects (heap w3) r' = objects (heap w1) r')
      by (subst w3 w2 r; cbn [new_object snd heap set_heap objects set_network];
          now rewrite Hr').
    assert (H4 : objects (heap w4) r' = objects (heap w1) r').
    { subst w4. destruct (truthy_string (refresh_token new)); [exact H3|].
      cbn [write_object modify snd heap set_heap objects]. now rewrite Hr'. }
    subst w5. destruct (expires_in new) as [n|]; [|exact H4].
    destruct (n =? 0); [exact H4|].
    cbn [write_object modify snd heap set_heap objects Date_now set_clock].
    now rewrite Hr'.
  - subst w5 w4. destruct (expires_in new) as [n|]; [destruct (n =? 0)|];
      destruct (truthy_string (refresh_token new)); reflexivity.
  - subst w5 w4. destruct (expires_in new) as [n|]; [destruct (n =? 0)|];
      destruct (truthy_string (refresh_token new)); reflexivity.
  - subst w5 w4. destruct (expires_in new) as [n|]; [destruct (n =? 0)|];
      destruct (truthy_string (refresh_token new)); reflexivity.
  - exists request.
    subst w5 w4. destruct (expires_in new) as [n|]; [destruct (n =? 0)|];
      destruct (truthy_string (refresh_token new)); reflexivity.
  - unfold bind, in_storage, ret. cbn [fst snd].
    destruct (saveTokens r (tokenStorage m1, w5)) as [[u|e] [ts' w']]; reflexivity.
Qed.

End RefreshFacts.

Section RefreshTokenFacts.
Context {P : Platform}.



End RefreshTokenFacts.



(** ** Requests to the token endpoint *)

Lemma frames_bind_gen {S A B : Type} (Q1 Q2 Q3 : S -> S -> Prop) (c : M S A) (k : A -> M S B) :
  (forall s1 s2, Q1 s1 s2 -> Q3 s1 s2) ->
  (forall s1 s2 s3, Q1 s1 s2 -> Q2 s2 s3 -> Q3 s1 s3) ->
  frames Q1 c -> (forall a, frames Q2 (k a)) -> frames Q3 (bind c k).
Proof.
  intros H13 H123 Hc Hk s. unfold bind. specialize (Hc s).
  destruct (c s) as [[a|e] s1]; cbn [fst snd] in *; [|now apply H13].
  eapply H123; [exact Hc|apply Hk].
Qed.

Lemma nothing_sent_refl (w : World) : nothing_sent w w.
Proof. reflexivity. Qed.

Lemma nothing_sent_trans (w1 w2 w3 : World) :
  nothing_sent w1 w2 -> nothing_sent w2 w3 -> nothing_sent w1 w3.
Proof. unfold nothing_sent. congruence. Qed.

Lemma nothing_sent_at_most (n : nat) (w w' : World) : nothing_sent w w' -> sent_at_most n w w'.
Proof. intros H. exists []. split; [exact H|cbn; lia]. Qed.

Lemma sent_at_most_then_nothing (n : nat) (w1 w2 w3 : World) :
  sent_at_most n w1 w2 -> nothing_sent w2 w3 -> sent_at_most n w1 w3.
Proof. intros (l & H & Hn) H'. exists l. split; [unfold nothing_sent in H'; congruence|exact Hn]. Qed.

Lemma nothing_then_sent_at_most (n : nat) (w1 w2 w3 : World) :
  nothing_sent w1 w2 -> sent_at_most n w2 w3 -> sent_at_most n w1 w3.
Proof. intros H' (l & H & Hn). exists l. split; [unfold nothing_sent in H'; congruence|exact Hn]. Qed.

Lemma fetch_sends_one (request : HttpRequest) : frames (sent_at_most 1) (fetch request).
Proof.
  intros w. exists [request]. split; [|cbn; lia].
  unfold fetch. destruct (replies (network w)) as [|[|r] rest]; reflexivity.
Qed.

Section NetworkFacts.
Context {P : Platform}.

Ltac quiet_world :=
  first [ apply (frames_in_world nothing_sent); [intros ? ? ? H; exact H | ]
        | untouched ].

Ltac quiet_storage :=
  frames_with (@on_world_refl TokenStorage _ nothing_sent_refl)
              (@on_world_trans TokenStorage _ nothing_sent_trans)
              quiet_world.

Lemma loadTokens_quiet : frames (on_world nothing_sent) loadTokens.
Proof. unfold loadTokens. quiet_storage. Qed.

Lemma saveTokens_quiet (tokens : ref) : frames (on_world nothing_sent) (saveTokens tokens).
Proof. unfold saveTokens, ensureConfigDir, setSecurePermissions. quiet_storage. Qed.

Lemma updateTokenExpiry_quiet (tokens : ref) :
  frames (on_world nothing_sent) (updateTokenExpiry tokens).
Proof. unfold updateTokenExpiry. quiet_storage. Qed.

Lemma isTokenExpired_quiet (tokens : ref) :
  frames (on_world nothing_sent) (isTokenExpired tokens).
Proof. unfold isTokenExpired. quiet_storage. Qed.

Ltac quiet_manager_leaf :=
  first [ apply (frames_in_world nothing_sent); [intros ? ? ? H; exact H | untouched]
        | apply (frames_in_storage (on_world nothing_sent));
          [intros ? ? ? ? H; exact H
          | first [ apply loadTokens_quiet | apply saveTokens_quiet
                  | apply updateTokenExpiry_quiet | apply isTokenExpired_quiet ]]
        | (intros [? ?]; reflexivity) ].

Ltac quiet_manager :=
  frames_with (@on_world_refl OAuthManager _ nothing_sent_refl)
              (@on_world_trans OAuthManager _ nothing_sent_trans)
              quiet_manager_leaf.

Lemma isTokenValid_quiet : frames (on_world nothing_sent) isTokenValid.
Proof. unfold isTokenValid. quiet_manager. Qed.

(** [refreshAccessToken] sends at most one request. *)
Lemma refreshAccessToken_sends_one : frames (on_world (sent_at_most 1)) refreshAccessToken.
Proof.
  unfold refreshAccessToken.
  apply (frames_bind_gen (on_world nothing_sent) (on_world (sent_at_most 1)));
    [intros ? ?; apply nothing_sent_at_most
    | intros ? ? ?; apply nothing_then_sent_at_most | quiet_manager | intros existing].
  destruct existing as [existing|]; [|intros s; now apply nothing_sent_at_most].
  apply (frames_bind_gen (on_world nothing_sent) (on_world (sent_at_most 1)));
    [intros ? ?; apply nothing_sent_at_most
    | intros ? ? ?; apply nothing_then_sent_at_most | quiet_manager | intros old].
  destruct (negb _); [intros s; now apply nothing_sent_at_most|].
  apply (frames_bind_gen (on_world nothing_sent) (on_world (sent_at_most 1)));
    [intros ? ?; apply nothing_sent_at_most
    | intros ? ? ?; apply nothing_then_sent_at_most | quiet_manager | intros self].
  apply (frames_bind_gen (on_world (sent_at_most 1)) (on_world nothing_sent));
    [trivial | intros ? ? ?; apply sent_at_most_then_nothing | | intros response].
  - apply (frames_in_world (sent_at_most 1)); [intros ? ? ? H; exact H|].
    apply fetch_sends_one.
  - quiet_manager.
Qed.

End NetworkFacts.

(** ** A valid access token *)

Lemma in_storage_inv {A : Type} (c : M (TokenStorage * World) A) (m m' : OAuthManager)
      (w w' : World) (r : Outcome A) :
  in_storage c (m, w) = (r, (m', w')) ->
  exists ts', c (tokenStorage m, w) = (r, (ts', w')) /\ m' = set_tokenStorage m ts'.
Proof.
  unfold in_storage. cbn [fst snd].
  destruct (c (tokenStorage m, w)) as [r0 [ts' w0]]. cbn [fst snd].
  intros H. injection H as <- <- <-. now exists ts'.
Qed.

Section AccessTokenFacts.
Context {P : Platform}.

(** A storage that has loaded a record loads the same record again from any
    world with the same file system. *)
Lemma loadTokens_again (ts ts' : TokenStorage) (w w' w2 : World) (r : ref) :
  loadTokens (ts, w) = (Returned (Some r), (ts', w')) ->
  fs w2 = fs w ->
  exists r2 w3,
    loadTokens (ts', w2) = (Returned (Some r2), (ts', w3)) /\
    objects (heap w3) r2 = objects (heap w') r.
Proof.
  intros Hload Hfs. rewrite loadTokens_run in Hload. rewrite loadTokens_run, Hfs.
  destruct (getEncryptionKey (ts, w)) as [rk [ts1 w1]] eqn:Hkey. cbn [fst snd] in Hload.
  destruct (files (fs w) (tokenFilePath ts)) as [| |f|content mode] eqn:Hfile;
    try discriminate.
  destruct (JSON_parse_EncryptedData (utf8_decode content)) as [envelope|] eqn:Henv;
    [|discriminate].
  cbv zeta in Hload. destruct rk as [key|e]; [|discriminate].
  apply getEncryptionKey_returned in Hkey as (-> & Hcached & Hpath & _).
  destruct (decrypt envelope key) as [text|e] eqn:Hdec; [|discriminate].
  destruct (JSON_parse_TokenSet text) as [t|] eqn:Ht; [|discriminate].
  injection Hload as <- <- <-.
  rewrite Hpath, Hfile, Henv. cbv zeta.
  rewrite (getEncryptionKey_cached _ _ _ Hcached). cbn [fst snd]. rewrite Hdec, Ht.
  eexists _, _. split; [reflexivity|].
  unfold new_object. cbn [snd heap set_heap objects]. now rewrite !Nat.eqb_refl.
Qed.

Lemma isTokenExpired_fs (tokens : ref) (ts : TokenStorage) (w : World) :
  fst (snd (isTokenExpired tokens (ts, w))) = ts /\
  fs (snd (snd (isTokenExpired tokens (ts, w)))) = fs w /\
  heap (snd (snd (isTokenExpired tokens (ts, w)))) = heap w.
Proof.
  unfold isTokenExpired. run.
  destruct (truthy_number (expires_at (objects (heap w) tokens))); repeat split.
Qed.

Lemma in_storage_loadTokens_fs (m m' : OAuthManager) (w w' : World) (r : option ref) :
  in_storage loadTokens (m, w) = (Returned r, (m', w')) -> fs w' = fs w.
Proof.
  unfold in_storage. cbn [fst snd]. rewrite loadTokens_run. intros H.
  injection H as _ _ <-.
  destruct (files (fs w) (tokenFilePath (tokenStorage m))); try reflexivity.
  destruct (JSON_parse_EncryptedData _); [|reflexivity]. cbv zeta.
  destruct (fst (getEncryptionKey _)); [|reflexivity].
  destruct (decrypt _ _); [|reflexivity].
  destruct (JSON_parse_TokenSet _); reflexivity.
Qed.

(** C5, as amended.  When the stored record loads and the expiry check finds
    it valid, [getValidAccessToken] returns its access token.  When no record
    is stored or the check finds it expired, it calls [refreshAccessToken]
    once, with at most one request to the token endpoint: if that returns a
    record it returns the access token of that record, whose expiry it does
    not check, and if that throws it throws the re-authentication error.
    When loading the stored record fails, it throws that error and sends no
    request.  The access token of a stored record the check found expired is
    never returned as such. *)
Theorem getValidAccessToken_cases (m : OAuthManager) (w : World) :
  (forall s1,
      isTokenValid (m, w) = (Returned true, s1) ->
      exists stored m0 w0,
        in_storage loadTokens (m, w) = (Returned (Some stored), (m0, w0)) /\
        fst (in_storage (isTokenExpired stored) (m0, w0)) = Returned false /\
        fst (getValidAccessToken (m, w))
        = Returned (access_token (objects (heap w0) stored)) /\
        on_world nothing_sent (m, w) (snd (getValidAccessToken (m, w)))) /\
  (forall s1,
      isTokenValid (m, w) = (Returned false, s1) ->
      getValidAccessToken (m, w)
      = (match fst (refreshAccessToken s1) with
         | Returned r =>
             Returned (access_token (objects (heap (snd (snd (refreshAccessToken s1)))) r))
         | Threw _ => Threw ReauthenticationRequired
         end, snd (refreshAccessToken s1)) /\
      on_world (sent_at_most 1) (m, w) (snd (getValidAccessToken (m, w)))) /\
  (forall e s1,
      isTokenValid (m, w) = (Threw e, s1) ->
      getValidAccessToken (m, w) = (Threw e, s1) /\
      on_world nothing_sent (m, w) s1).
Proof.
  split; [|split].
  - intros [m1 w1] Hvalid.
    pose proof (isTokenValid_quiet (m, w)) as Hq1. rewrite Hvalid in Hq1.
    unfold getValidAccessToken. rewrite (bind_returned _ _ _ _ _ Hvalid). cbn [negb].
    unfold isTokenValid in Hvalid.
    apply bind_inv in Hvalid as (tokens & [m0 w0] & Hload & Hvalid).
    destruct tokens as [stored|]; [|discriminate].
    apply bind_inv in Hvalid as (expired & [m1' w1'] & Hexp & Hret).
    unfold ret in Hret. injection Hret as Hb <- <-.
    apply negb_true_iff in Hb. subst expired.
    exists stored, m0, w0. split; [exact Hload|]. split; [now rewrite Hexp|].
    pose proof (in_storage_loadTokens_fs _ _ _ _ _ Hload) as Hfs0.
    apply in_storage_inv in Hload as (ts0 & Hload & ->).
    apply in_storage_inv in Hexp as (ts1 & Hexp & ->).
    cbn [tokenStorage set_tokenStorage] in Hexp.
    destruct (isTokenExpired_fs stored ts0 w0) as (Hts & Hfs1 & _).
    rewrite Hexp in Hts, Hfs1. cbn [fst snd] in Hts, Hfs1. subst ts1.
    destruct (loadTokens_again _ _ _ _ w1' stored Hload) as (r2 & w3 & Hagain & Hobj);
      [congruence|].
    pose proof (loadTokens_quiet (ts0, w1')) as Hq2. rewrite Hagain in Hq2.
    set (m1 := set_tokenStorage (set_tokenStorage m ts0) ts0) in *.
    assert (Hagain' : in_storage loadTokens (m1, w1')
                      = (Returned (Some r2), (set_tokenStorage m1 ts0, w3)))
      by (apply in_storage_returned; exact Hagain).
    rewrite (bind_returned _ _ _ _ _ Hagain').
    assert (Hread : in_world (read_object r2) (set_tokenStorage m1 ts0, w3)
                    = (Returned (objects (heap w3) r2), (set_tokenStorage m1 ts0, w3)))
      by reflexivity.
    rewrite (bind_returned _ _ _ _ _ Hread).
    unfold ret. cbn [fst snd]. rewrite Hobj. split; [reflexivity|].
    unfold on_world, nothing_sent in *. cbn [snd] in *. congruence.
  - intros s1 Hvalid.
    assert (Heq : getValidAccessToken (m, w)
                  = (match fst (refreshAccessToken s1) with
                     | Returned r =>
                         Returned (access_token
                                     (objects (heap (snd (snd (refreshAccessToken s1)))) r))
                     | Threw _ => Threw ReauthenticationRequired
                     end, snd (refreshAccessToken s1))).
    { unfold getValidAccessToken. rewrite (bind_returned _ _ _ _ _ Hvalid). cbn [negb].
      unfold try_catch, bind.
      destruct (refreshAccessToken s1) as [[r|e] [m2 w2]]; reflexivity. }
    split; [exact Heq|]. rewrite Heq. cbn [snd].
    pose proof (isTokenValid_quiet (m, w)) as Hq. rewrite Hvalid in Hq.
    pose proof (refreshAccessToken_sends_one s1) as Hr.
    eapply nothing_then_sent_at_most; [exact Hq|exact Hr].
  - intros e s1 Hvalid. split.
    + unfold getValidAccessToken. now rewrite (bind_threw _ _ _ _ _ Hvalid).
    + pose proof (isTokenValid_quiet (m, w)) as Hq. now rewrite Hvalid in Hq.
Qed.

End AccessTokenFacts.

(** C5, as stated, fails: with a stored record that has expired and a provider
    that reissues a token living 60 seconds, [getValidAccessToken] returns
    the access token of the reissued record, which the expiry check
    classifies as expired at that very moment. *)
Lemma getValidAccessToken_short_lived :
  let P := toy_platform sample_documents in
  let w := world_storing expired_tokens [Responded (response_with (reissued None (Some 60)))] in
  exists s1 refreshed m' w',
    @isTokenValid P (sample_manager, w) = (Returned false, s1) /\
    @refreshAccessToken P s1 = (Returned refreshed, (m', w')) /\
    @getValidAccessToken P (sample_manager, w)
    = (Returned (access_token (objects (heap w') refreshed)), (m', w')) /\
    fst (isTokenExpired refreshed (tokenStorage m', w')) = Returned true.
Proof.
  cbv zeta.
  set (P := toy_platform sample_documents).
  set (w := world_storing expired_tokens [Responded (response_with (reissued None (Some 60)))]).
  set (s1 := snd (@isTokenValid P (sample_manager, w))).
  set (s2 := snd (@refreshAccessToken P s1)).
  exists s1, 3%nat, (fst s2), (snd s2).
  split; [vm_compute; reflexivity|]. split; [vm_compute; reflexivity|].
  split; vm_compute; reflexivity.
Qed.

(** ** The expiry of the record that is stored *)

Section StoredExpiryFacts.
Context {P : Platform}.

(** [exchangeCodeForTokens] with a pending challenge and a successful
    response: the object it creates, the world in which it calls
    [saveTokens], and its outcome. *)
Lemma exchangeCodeForTokens_run (code : jsstring) (m : OAuthManager) (w : World)
      (pkce : PKCEChallenge) (resp : Response) (rest : list FetchOutcome) (new : TokenSet) :
  currentPKCE m = Some pkce ->
  replies (network w) = Responded resp :: rest ->
  resp_ok resp = true ->
  resp_json resp = Some new ->
  let r := allocated (heap w) in
  let final := match expires_in new with
               | Some lifetime =>
                   if lifetime =? 0 then new
                   else set_expires_at new (Some (current_seconds w + lifetime))
               | None => new
               end in
  exists w2,
    objects (heap w2) r = final /\
    fst (exchangeCodeForTokens code (m, w))
    = match fst (saveTokens r (tokenStorage m, w2)) with
      | Returned _ => Returned r
      | Threw e => Threw e
      end /\
    forall r' m' w',
      exchangeCodeForTokens code (m, w) = (Returned r', (m', w')) ->
      r' = r /\ heap w' = heap w2.
Proof.
  intros Hpkce Hreply Hok Hjson. cbv zeta.
  unfold exchangeCodeForTokens.
  rewrite (bind_returned _ _ (m, w) (m, w) m) by reflexivity. rewrite Hpkce.
  match goal with
  | |- context [fetch ?req] =>
      set (request := req);
      set (w1 := set_network w {| replies := rest; sent := request :: sent (network w) |})
  end.
  assert (Hfetch : fetch request w = (Returned resp, w1))
    by (unfold fetch; rewrite Hreply; reflexivity).
  rewrite (bind_returned _ _ _ _ _ (in_world_returned _ m _ _ _ Hfetch)).
  rewrite Hok. cbn [negb].
  set (r := allocated (heap w)).
  set (w2 := snd (new_object new w1)).
  assert (Hnew : response_json resp w1 = (Returned r, w2))
    by (unfold response_json; rewrite Hjson; reflexivity).
  rewrite (bind_returned _ _ _ _ _ (in_world_returned _ m _ _ _ Hnew)).
  assert (Hobj : objects (heap w2) r = new)
    by (subst w2 w1 r; cbn [new_object snd heap set_heap objects set_network];
        now rewrite Nat.eqb_refl).
  pose proof (updateTokenExpiry_run (tokenStorage m) w2 r) as Hupd. cbv zeta in Hupd.
  assert (Hsec : current_seconds w2 = current_seconds w) by reflexivity.
  rewrite Hobj, Hsec in Hupd.
  rewrite (bind_returned _ _ _ _ _ (in_storage_returned _ _ _ _ _ _ Hupd)).
  rewrite set_tokenStorage_same.
  match type of Hupd with
  | _ = (_, (_, ?w')) => set (w3 := w') in *
  end.
  exists w3. split; [|split].
  - subst w3. destruct (expires_in new) as [n|]; [|exact Hobj].
    destruct (n =? 0); [exact Hobj|].
    cbn [write_object modify snd heap set_heap objects]. now rewrite Nat.eqb_refl.
  - unfold bind, in_storage, set_this, modify, ret. cbn [fst snd].
    destruct (saveTokens r (tokenStorage m, w3)) as [[u|e] [ts' w']]; reflexivity.
  - intros r' m' w'. unfold bind, in_storage, set_this, modify, ret. cbn [fst snd].
    destruct (saveTokens r (tokenStorage m, w3)) as [[[]|e] [ts' w'']] eqn:Hsave;
      cbn [fst snd]; [|discriminate].
    intros H. injection H as <- _ <-. split; [reflexivity|].
    apply saveTokens_returned in Hsave as (_ & _ & _ & _ & _ & _ & _ & ->). reflexivity.
Qed.

Lemma expires_at_set_refresh_token (t : TokenSet) (v : option jsstring) :
  expires_at (set_refresh_token t v) = expires_at t.
Proof. reflexivity. Qed.

(** C7, as amended.  [updateTokenExpiry] reads the clock and assigns to the
    object it is given, which it returns: when [expires_in] is present and
    not 0, [expires_at] becomes the current time in seconds plus [expires_in]
    and nothing else changes; when [expires_in] is absent or 0, the object
    stays as it is, with the [expires_at] it had.  Consequently the record
    that an exchange or a refresh stores and returns has an [expires_at]
    computed at that moment when the provider's response has a non-zero
    [expires_in], and otherwise the [expires_at] of the response itself; it
    never comes from the record stored before. *)
Theorem expiry_set_when_stored :
  (forall (ts : TokenStorage) (w : World) (tokens : ref),
      let t := objects (heap w) tokens in
      exists w',
        updateTokenExpiry tokens (ts, w) = (Returned tokens, (ts, w')) /\
        objects (heap w') tokens
        = match expires_in t with
          | Some lifetime =>
              if lifetime =? 0 then t
              else set_expires_at t (Some (current_seconds w + lifetime))
          | None => t
          end /\
        (forall r, r <> tokens -> objects (heap w') r = objects (heap w) r)) /\
  (forall code m w pkce resp rest new r m' w',
      currentPKCE m = Some pkce ->
      replies (network w) = Responded resp :: rest ->
      resp_ok resp = true ->
      resp_json resp = Some new ->
      exchangeCodeForTokens code (m, w) = (Returned r, (m', w')) ->
      expires_at (objects (heap w') r)
      = match expires_in new with
        | Some lifetime =>
            if lifetime =? 0 then expires_at new else Some (current_seconds w + lifetime)
        | None => expires_at new
        end) /\
  (forall m w m1 w1 existing resp rest new r m' w',
      in_storage loadTokens (m, w) = (Returned (Some existing), (m1, w1)) ->
      truthy_string (refresh_token (objects (heap w1) existing)) = true ->
      replies (network w1) = Responded resp :: rest ->
      resp_ok resp = true ->
      resp_json resp = Some new ->
      refreshAccessToken (m, w) = (Returned r, (m', w')) ->
      expires_at (objects (heap w') r)
      = match expires_in new with
        | Some lifetime =>
            if lifetime =? 0 then expires_at new else Some (current_seconds w1 + lifetime)
        | None => expires_at new
        end).
Proof.
  split; [|split].
  - apply updateTokenExpiry_in_place.
  - intros code m w pkce resp rest new r m' w' Hpkce Hreply Hok Hjson Hret.
    destruct (exchangeCodeForTokens_run code m w pkce resp rest new Hpkce Hreply Hok Hjson)
      as (w2 & Hobj & _ & Hsame).
    destruct (Hsame _ _ _ Hret) as [-> ->]. rewrite Hobj.
    destruct (expires_in new) as [n|]; [destruct (n =? 0)|]; reflexivity.
  - intros m w m1 w1 existing resp rest new r m' w' Hload Htruthy Hreply Hok Hjson Hret.
    destruct (refreshAccessToken_run m m1 w w1 existing resp rest new
                Hload Htruthy Hreply Hok Hjson)
      as (w2 & Hobj & _ & _ & _ & _ & _ & Hrun).
    rewrite Hrun in Hret.
    destruct (saveTokens (allocated (heap w1)) (tokenStorage m1, w2))
      as [[[]|e] [ts' w'']] eqn:Hsave; cbn [fst snd] in Hret; [|discriminate].
    injection Hret as <- <- <-.
    apply saveTokens_returned in Hsave as (_ & _ & _ & _ & _ & _ & _ & ->).
    cbn [heap set_random set_fs]. rewrite Hobj.
    destruct (expires_in new) as [n|]; [destruct (n =? 0)|];
      destruct (truthy_string (refresh_token new)); reflexivity.
Qed.

End StoredExpiryFacts.

(** ** The scenarios of the specification and of the test suite, run *)

Example hex_of_bytes :
  to_hex [Byte.x00; Byte.xff; Byte.x10; Byte.xab] = js "00ff10ab" /\
  from_hex (js "00FF10ab") = [Byte.x00; Byte.xff; Byte.x10; Byte.xab] /\
  from_hex (js "00zz10") = [Byte.x00] /\
  from_hex (js "abc") = [Byte.xab].
Proof. repeat split. Qed.

Example slice_of_string :
  slice (js "abcdef") 0 (Some (-2)) = js "abcd" /\
  slice (js "abcdef") (-2) None = js "ef" /\
  slice (js "ab") 0 (Some (-32)) = js "" /\
  slice (js "ab") (-32) None = js "ab".
Proof. repeat split. Qed.

(** U+1F510, U+00E9 and U+4E2D, as in the test "should handle unicode
    characters". *)
Example utf8_of_string :
  utf8_encode [55357; 56592; 233; 20013]
  = map byte_of_Z [240; 159; 148; 144; 195; 169; 228; 184; 173] /\
  utf8_decode (utf8_encode [55357; 56592; 233; 20013]) = [55357; 56592; 233; 20013] /\
  utf8_decode (map byte_of_Z [226; 130; 65]) = [65533; 65] /\
  utf8_decode (map byte_of_Z [240; 144; 128]) = [65533].
Proof. repeat split. Qed.

Example base64url_of_bytes :
  to_base64url (map byte_of_Z [77; 97; 110]) = js "TWFu" /\
  to_base64url (map byte_of_Z [251; 255]) = js "-_8".
Proof. repeat split. Qed.

(** "store a record with issued lifetime = 3600 seconds at T0; at T0 + 3000 s
    isExpired is false; at T0 + 3350 s isExpired is true". *)
Example expiry_scenario :
  exists tokens w0 w1,
    new_object sample_tokens toy_world = (Returned tokens, w0) /\
    updateTokenExpiry tokens (sample_storage, w0) = (Returned tokens, (sample_storage, w1)) /\
    expires_at (objects (heap w1) tokens) = Some 1700003600 /\
    fst (isTokenExpired tokens (sample_storage, seconds_later w1 3000)) = Returned false /\
    fst (isTokenExpired tokens (sample_storage, seconds_later w1 3350)) = Returned true.
Proof. eexists _, _, _. repeat split. Qed.

(** "load() on a path with no file returns absent, not an error; load() on a
    path whose contents are not valid JSON raises a fatal error". *)
Example load_scenario :
  fst (@loadTokens (toy_platform sample_documents) (sample_storage, toy_world))
  = Returned None /\
  fst (@loadTokens (toy_platform sample_documents)
         (sample_storage,
          with_file toy_world (tokenFilePath sample_storage) (js "invalid-json")))
  = Threw (FailedToLoadTokens SyntaxError).
Proof. split; vm_compute; reflexivity. Qed.

(** The empty plaintext, whose envelope carries the tag alone, decrypts to
    the empty plaintext on every platform. *)
Lemma decrypt_encrypt_empty {P : Platform} (key : list byte) (w : World) :
  length key = 32%nat ->
  exists envelope,
    fst (encrypt [] key w) = Returned envelope /\ decrypt envelope key = Returned [].
Proof.
  intros Hkey. rewrite encrypt_unfold. cbn [fst].
  apply decrypt_encrypt_with; [reflexivity | exact Hkey | apply next_bytes_nonempty].
Qed.

(** A stored envelope of which one hex digit of the data has been changed
    does not decrypt. *)
Example tampered_envelope :
  let P := toy_platform sample_documents in
  exists envelope w,
    @encrypt P (js "secret") toy_key toy_world = (Returned envelope, w) /\
    @decrypt P envelope toy_key = Returned (js "secret") /\
    @decrypt P {| data := 48 :: tl (data envelope); iv := iv envelope;
                  salt := salt envelope |} toy_key
    = Threw UnableToAuthenticate.
Proof. cbv zeta. eexists _, _. split; [reflexivity|]. split; vm_compute; reflexivity. Qed.

(** "Callback Listener started on an occupied port N successfully binds to
    N+1 and reports N+1". *)
Example port_scenario :
  let s := startCallbackServer
             (sample_manager, with_listen_script toy_world [ListenError "EADDRINUSE"]) in
  fst s = Returned 8081 /\
  listening (sockets (snd (snd s))) = [(0%nat, 8081)] /\
  callbackPort (fst (snd s)) = 8081.
Proof. cbv zeta. repeat split; vm_compute; reflexivity. Qed.

(** The interactive flow on its exit paths: the code arrives and is
    exchanged; the provider reports an error; the exchange is refused; no
    callback arrives in time; the port cannot be bound. *)
Example flow_scenarios :
  let P := toy_platform sample_documents in
  let answer := [Responded (response_with (reissued (Some (js "rt-2")) (Some 3600)))] in
  let refusal := [Responded {| resp_ok := false; resp_status := 400;
                               resp_text := js "invalid_grant"; resp_json := None |}] in
  let flow w := @completeOAuthFlow P (sample_manager, w) in
  let stopped (s : Outcome ref * (OAuthManager * World)) :=
    callbackServer (fst (snd s)) = None /\ listening (sockets (snd (snd s))) = [] in
  (fst (flow (with_replies (with_incoming toy_world [favicon_request; callback_with_code])
                           answer)) = Returned 0%nat /\
   stopped (flow (with_replies (with_incoming toy_world [favicon_request; callback_with_code])
                               answer))) /\
  (fst (flow (with_incoming toy_world [callback_with_error]))
   = Threw (OAuthError (js "access_denied") (Some (js "user declined"))) /\
   stopped (flow (with_incoming toy_world [callback_with_error]))) /\
  (fst (flow (with_replies (with_incoming toy_world [callback_with_code]) refusal))
   = Threw (TokenExchangeFailed 400 (js "invalid_grant")) /\
   stopped (flow (with_replies (with_incoming toy_world [callback_with_code]) refusal))) /\
  (fst (flow toy_world) = Threw OAuthCallbackTimeout /\ stopped (flow toy_world)) /\
  (fst (flow (with_listen_script toy_world [ListenError "EACCES"]))
   = Threw (SystemError "EACCES") /\
   stopped (flow (with_listen_script toy_world [ListenError "EACCES"]))).
Proof. cbv zeta. repeat split; vm_compute; reflexivity. Qed.

(** The tests of [getValidAccessToken]: a valid stored token is returned; a
    refresh that the provider refuses, and a store without tokens, both end
    in the re-authentication error. *)
Example access_token_scenarios :
  let P := toy_platform sample_documents in
  let refusal := [Responded {| resp_ok := false; resp_status := 400;
                               resp_text := js "invalid_grant"; resp_json := None |}] in
  fst (@getValidAccessToken P (sample_manager, world_storing sample_tokens []))
  = Returned (js "at-1") /\
  fst (@getValidAccessToken P (sample_manager, world_storing expired_tokens refusal))
  = Threw ReauthenticationRequired /\
  fst (@getValidAccessToken P (sample_manager, toy_world)) = Threw ReauthenticationRequired /\
  fst (@refreshAccessToken P (sample_manager, toy_world)) = Threw NoRefreshToken.
Proof. cbv zeta. repeat split; vm_compute; reflexivity. Qed.

(* ===================================================================== *)
(** * Part III: further properties of the code                             *)
(* ===================================================================== *)

(** ** Random strings and comparison ([utils/crypto.ts]) *)

(** Lists, three elements at a time. *)
Lemma list_ind3 {A : Type} (Q : list A -> Prop) :
  Q [] -> (forall a, Q [a]) -> (forall a b, Q [a; b]) ->
  (forall a b c rest, Q rest -> Q (a :: b :: c :: rest)) ->
  forall l, Q l.
Proof.
  intros H0 H1 H2 H3.
  fix IH 1. intros [|a [|b [|c rest]]]; [exact H0 | apply H1 | apply H2 | apply H3, IH].
Qed.

Lemma base64url_digit_alphabet (d : Z) :
  0 <= d < 64 -> is_base64url_char (base64url_digit d) = true.
Proof.
  intros Hd. unfold base64url_digit, is_base64url_char.
  repeat match goal with
         | |- context [if ?c then _ else _] => destruct c eqn:?
         end; lia.
Qed.

Lemma to_base64url_alphabet (bs : list byte) :
  forallb is_base64url_char (to_base64url bs) = true.
Proof.
  induction bs as [|a|a b|a b c rest IH] using list_ind3; [reflexivity| | |].
  - pose proof (Z_of_byte_range a). cbn [to_base64url forallb].
    rewrite !base64url_digit_alphabet by zlia. reflexivity.
  - pose proof (Z_of_byte_range a). pose proof (Z_of_byte_range b).
    cbn [to_base64url forallb].
    rewrite !base64url_digit_alphabet by zlia. reflexivity.
  - pose proof (Z_of_byte_range a). pose proof (Z_of_byte_range b).
    pose proof (Z_of_byte_range c).
    cbn [to_base64url forallb]. rewrite IH.
    rewrite !base64url_digit_alphabet by zlia. reflexivity.
Qed.

Lemma length_to_base64url (bs : list byte) :
  (length bs <= length (to_base64url bs))%nat.
Proof.
  induction bs as [|a|a b|a b c rest IH] using list_ind3; cbn [to_base64url length]; lia.
Qed.

Lemma forallb_firstn {A : Type} (f : A -> bool) (n : nat) (l : list A) :
  forallb f l = true -> forallb f (firstn n l) = true.
Proof.
  revert n. induction l as [|x l IH]; intros [|n]; cbn; auto.
  intros H. apply andb_true_iff in H as [-> H]. cbn. auto.
Qed.

Lemma slice_prefix (s : jsstring) (n : Z) :
  0 <= n -> slice s 0 (Some n) = firstn (Z.to_nat n) s.
Proof.
  intros Hn. unfold slice, slice_index.
  change (0 <? 0) with false. cbv iota.
  destruct (Z.ltb_spec n 0) as [|_]; [lia|].
  rewrite (Z.min_l 0) by lia. change (Z.to_nat 0) with 0%nat. cbn [skipn].
  rewrite Z.sub_0_r.
  destruct (Z.min_spec n (Z.of_nat (length s))) as [[Hlt ->] | [Hge ->]].
  - rewrite Z.max_l by lia. reflexivity.
  - rewrite Z.max_l by lia. rewrite Nat2Z.id.
    rewrite !firstn_all2 by lia. reflexivity.
Qed.

Lemma length_next_bytes (r : Random) (n : nat) : length (next_bytes r n) = n.
Proof. unfold next_bytes. now rewrite length_map, length_seq. Qed.

Lemma generateRandomString_returned (n : Z) (w : World) :
  0 <= n ->
  let s := firstn (Z.to_nat n) (to_base64url (next_bytes (random w) (Z.to_nat n))) in
  generateRandomString n w
  = (Returned s, set_random w (advance (random w) (Z.to_nat n))) /\
  Z.of_nat (length s) = n /\
  forallb is_base64url_char s = true.
Proof.
  intros Hn s. split; [|split].
  - unfold generateRandomString, randomBytes. run. now rewrite slice_prefix.
  - subst s. rewrite length_firstn.
    pose proof (length_to_base64url (next_bytes (random w) (Z.to_nat n))) as H.
    rewrite length_next_bytes in H. lia.
  - apply forallb_firstn, to_base64url_alphabet.
Qed.



Lemma utf8_encode_injective (a b : jsstring) :
  well_formed a = true -> well_formed b = true ->
  utf8_encode a = utf8_encode b -> a = b.
Proof.
  intros Ha Hb H. rewrite <- (utf8_roundtrip a Ha), <- (utf8_roundtrip b Hb). now rewrite H.
Qed.

Lemma timingSafeEqual_true (a b : list byte) :
  timingSafeEqual a b = Fulfilled true <-> a = b.
Proof.
  unfold timingSafeEqual. split.
  - destruct (Nat.eqb _ _); [|discriminate].
    destruct (list_eq_dec Byte.byte_eq_dec a b); [auto|discriminate].
  - intros ->. rewrite Nat.eqb_refl.
    destruct (list_eq_dec Byte.byte_eq_dec b b); [reflexivity|contradiction].
Qed.

(** X2: [secureCompare a b] throws exactly when the two strings have the same
    number of UTF-16 code units but UTF-8 encodings of different lengths;
    it returns [true] exactly when the lengths agree and the UTF-8 encodings
    are equal, which for strings without unpaired surrogates means [a = b],
    while two different unpaired surrogates compare equal. *)
Theorem secureCompare_spec (a b : jsstring) :
  (secureCompare a b = Thrown ERR_CRYPTO_TIMING_SAFE_EQUAL_LENGTH <->
   length a = length b /\ length (utf8_encode a) <> length (utf8_encode b)) /\
  (secureCompare a b = Fulfilled true <->
   length a = length b /\ utf8_encode a = utf8_encode b) /\
  (well_formed a = true -> well_formed b = true ->
   (secureCompare a b = Fulfilled true <-> a = b)) /\
  secureCompare [55296] [56320] = Fulfilled true.
Proof.
  assert (Htrue : secureCompare a b = Fulfilled true <->
                  length a = length b /\ utf8_encode a = utf8_encode b).
  { unfold secureCompare.
    destruct (Nat.eqb_spec (length a) (length b)) as [Hl|Hl]; cbn [negb].
    - rewrite timingSafeEqual_true. tauto.
    - split; [discriminate|tauto]. }
  split; [|split; [exact Htrue|split; [|reflexivity]]].
  - unfold secureCompare, timingSafeEqual.
    destruct (Nat.eqb_spec (length a) (length b)) as [Hl|Hl]; cbn [negb].
    + destruct (Nat.eqb_spec (length (utf8_encode a)) (length (utf8_encode b))) as [Hu|Hu].
      * split; [discriminate|tauto].
      * tauto.
    + split; [discriminate|tauto].
  - intros Ha Hb. rewrite Htrue. split.
    + intros [_ H]. now apply utf8_encode_injective.
    + intros ->. auto.
Qed.

(** The comparison on concrete strings: equal ones, different ones of equal
    length, and an accented letter against a plain one, which makes
    [timingSafeEqual] throw. *)
Example secureCompare_examples :
  secureCompare (js "state-1") (js "state-1") = Fulfilled true /\
  secureCompare (js "state-1") (js "state-2") = Fulfilled false /\
  secureCompare (js "state-1") (js "state") = Fulfilled false /\
  secureCompare [233] (js "e") = Thrown ERR_CRYPTO_TIMING_SAFE_EQUAL_LENGTH.
Proof. repeat split. Qed.

(** ** The envelope ([utils/crypto.ts]) *)

Lemma hex_digit_is_hex (d : Z) : 0 <= d < 16 -> is_hex_digit (hex_digit d) = true.
Proof.
  intros Hd. unfold hex_digit, is_hex_digit.
  destruct (d <? 10) eqn:E;
    repeat match goal with
           | |- context [?a <=? ?b] => destruct (Z.leb_spec a b)
           end; cbn; lia.
Qed.

Lemma to_hex_is_hex (bs : list byte) : forallb is_hex_digit (to_hex bs) = true.
Proof.
  induction bs as [|b bs IH]; [reflexivity|].
  pose proof (Z_of_byte_range b) as Hb. cbn [to_hex forallb].
  rewrite !hex_digit_is_hex, IH by zlia. reflexivity.
Qed.

Section EnvelopeShape.
Context {P : Platform}.

Lemma length_gcm_crypt (key iv_ : list byte) (offset : nat) (input : list byte) :
  length (gcm_crypt key iv_ offset input) = length input.
Proof.
  unfold gcm_crypt. rewrite length_map, length_combine, length_seq. lia.
Qed.

(** X3: [encrypt] always draws 48 random bytes.  With a key of 32 bytes, such
    as [generateKey] returns, it returns an envelope whose [iv] is the 32 hex
    digits of the first 16 bytes drawn, whose [salt] is the 64 hex digits of
    the next 32, and whose [data] has two hex digits for each UTF-8 byte of
    the plaintext and 32 more for the tag, all in lower case; with a key of
    any other length it throws "Invalid key length". *)
Theorem encrypt_envelope_shape (plaintext : jsstring) (key : list byte) (w : World) :
  snd (encrypt plaintext key w) = set_random w (advance (random w) 48) /\
  (length key = 32%nat ->
   exists envelope,
     fst (encrypt plaintext key w) = Returned envelope /\
     iv envelope = to_hex (next_bytes (random w) 16) /\
     salt envelope = to_hex (next_bytes (advance (random w) 16) 32) /\
     length (iv envelope) = 32%nat /\ length (salt envelope) = 64%nat /\
     length (data envelope) = (2 * length (utf8_encode plaintext) + 32)%nat /\
     forallb is_hex_digit (data envelope ++ iv envelope ++ salt envelope) = true) /\
  (length key <> 32%nat -> fst (encrypt plaintext key w) = Threw InvalidKeyLength) /\
  (forall w0, exists generated,
     generateKey w0 = (Returned generated, set_random w0 (advance (random w0) 32)) /\
     length generated = 32%nat).
Proof.
  rewrite encrypt_unfold. cbn [fst snd]. split; [|split; [|split]].
  - unfold advance. cbn [entropy drawn]. now rewrite <- Nat.add_assoc.
  - intros Hkey. rewrite encrypt_with_cases, Hkey.
    change (negb (Z.of_nat 32 =? 32)) with false. cbv iota.
    rewrite length_next_bytes. change (Z.of_nat 16 =? 0) with false. cbv iota zeta.
    eexists. split; [reflexivity|]. cbn [iv salt data].
    rewrite !length_to_hex, !length_next_bytes, length_app, length_gcm_crypt,
      length_gcm_auth_tag.
    repeat split; try lia.
    rewrite !forallb_app, !to_hex_is_hex. reflexivity.
  - intros Hkey. rewrite encrypt_with_cases.
    destruct (Z.eqb_spec (Z.of_nat (length key)) 32) as [H|H]; [lia|reflexivity].
  - intros w0. eexists. split; [reflexivity|]. apply length_next_bytes.
Qed.

End EnvelopeShape.

(** *** What [decrypt] returns and what it refuses *)

Lemma well_formed_scalar (c : Z) (s : jsstring) :
  0 <= c < 55296 \/ 57344 <= c < 65536 ->
  well_formed (c :: s) = well_formed s.
Proof.
  intros Hc. cbn [well_formed]. unfold is_high_surrogate, is_low_surrogate, is_code_unit.
  destruct Hc; decide_tests; reflexivity.
Qed.

Lemma well_formed_pair (c : Z) (s : jsstring) :
  65536 <= c < 1114112 ->
  well_formed (utf16_units c ++ s) = well_formed s.
Proof.
  intros Hc. unfold utf16_units.
  replace (c <? 65536) with false by (symmetry; apply Z.ltb_ge; lia).
  cbn [app well_formed]. unfold is_high_surrogate, is_low_surrogate.
  decide_tests. reflexivity.
Qed.

Lemma well_formed_replacement (s : jsstring) :
  well_formed (replacement_char :: s) = well_formed s.
Proof. apply well_formed_scalar. unfold replacement_char. lia. Qed.

(** Turn the tests a branch was taken on into bounds. *)
Ltac bounds :=
  unfold second_byte_ok, is_continuation in *;
  repeat match goal with
         | H : context [if ?c then _ else _] |- _ => destruct c eqn:?
         end.

Lemma utf8_decode_units_well_formed (n : nat) :
  forall bs, (length bs <= n)%nat -> Forall (fun b => 0 <= b < 256) bs ->
             well_formed (utf8_decode_units bs) = true.
Proof.
  induction n as [|n IH]; intros bs Hlen Hbs.
  - destruct bs; [reflexivity|cbn in Hlen; lia].
  - destruct bs as [|b0 r0]; [reflexivity|].
    cbn [length] in Hlen. inversion Hbs as [|? ? Hb0 Hr0]; subst.
    assert (H0 : well_formed (utf8_decode_units r0) = true) by (apply IH; [lia|assumption]).
    cbn [utf8_decode_units].
    destruct (b0 <? 128) eqn:T0.
    { rewrite well_formed_scalar by lia. exact H0. }
    destruct ((194 <=? b0) && (b0 <=? 223)) eqn:T1.
    { destruct r0 as [|b1 r1]; [reflexivity|].
      cbn [length] in Hlen. inversion Hr0 as [|? ? Hb1 Hr1]; subst.
      destruct (is_continuation b1) eqn:C1.
      - rewrite well_formed_scalar by (bounds; lia). apply IH; [lia|assumption].
      - rewrite well_formed_replacement. exact H0. }
    destruct ((224 <=? b0) && (b0 <=? 239)) eqn:T2.
    { destruct r0 as [|b1 r1]; [reflexivity|].
      cbn [length] in Hlen. inversion Hr0 as [|? ? Hb1 Hr1]; subst.
      destruct (second_byte_ok b0 b1) eqn:S1;
        [|rewrite well_formed_replacement; exact H0].
      assert (H1 : well_formed (utf8_decode_units r1) = true)
        by (apply IH; [lia|assumption]).
      destruct r1 as [|b2 r2]; [reflexivity|].
      cbn [length] in Hlen. inversion Hr1 as [|? ? Hb2 Hr2]; subst.
      destruct (is_continuation b2) eqn:C2.
      - rewrite well_formed_scalar by (bounds; lia). apply IH; [lia|assumption].
      - rewrite well_formed_replacement. exact H1. }
    destruct ((240 <=? b0) && (b0 <=? 244)) eqn:T3.
    { destruct r0 as [|b1 r1]; [reflexivity|].
      cbn [length] in Hlen. inversion Hr0 as [|? ? Hb1 Hr1]; subst.
      destruct (second_byte_ok b0 b1) eqn:S1;
        [|rewrite well_formed_replacement; exact H0].
      assert (H1 : well_formed (utf8_decode_units r1) = true)
        by (apply IH; [lia|assumption]).
      destruct r1 as [|b2 r2]; [reflexivity|].
      cbn [length] in Hlen. inversion Hr1 as [|? ? Hb2 Hr2]; subst.
      destruct (is_continuation b2) eqn:C2;
        [|rewrite well_formed_replacement; exact H1].
      assert (H2 : well_formed (utf8_decode_units r2) = true)
        by (apply IH; [lia|assumption]).
      destruct r2 as [|b3 r3]; [reflexivity|].
      cbn [length] in Hlen. inversion Hr2 as [|? ? Hb3 Hr3]; subst.
      destruct (is_continuation b3) eqn:C3.
      - rewrite well_formed_pair by (bounds; lia). apply IH; [lia|assumption].
      - rewrite well_formed_replacement. exact H2. }
    rewrite well_formed_replacement. exact H0.
Qed.

Lemma utf8_decode_well_formed (bs : list byte) : well_formed (utf8_decode bs) = true.
Proof.
  unfold utf8_decode. apply (utf8_decode_units_well_formed (length (map Z_of_byte bs)));
    [lia|].
  apply Forall_map, Forall_forall. intros b _. apply Z_of_byte_range.
Qed.




Section DecryptFacts.
Context {P : Platform}.


(** What [decrypt] returns has authenticated: the key has 32 bytes and the
    tag stored in the envelope is the tag of the stored ciphertext. *)
Lemma decrypt_returned (envelope : EncryptedData) (key : list byte) (text : jsstring) :
  decrypt envelope key = Returned text ->
  let iv_ := from_hex (iv envelope) in
  let tag := from_hex (slice (data envelope) (- TAG_LENGTH * 2) None) in
  let ciphertext := from_hex (slice (data envelope) 0 (Some (- TAG_LENGTH * 2))) in
  length key = 32%nat /\
  tag = firstn (length tag) (gcm_auth_tag key iv_ (from_hex (salt envelope)) ciphertext) /\
  text = utf8_decode (gcm_crypt key iv_ 0 ciphertext).
Proof.
  unfold decrypt, createDecipheriv, createCipheriv.
  destruct (Z.eqb_spec (Z.of_nat (length key)) 32) as [Hk|]; [|discriminate].
  cbn [negb]. destruct (Z.of_nat (length (from_hex (iv envelope))) =? 0); [discriminate|].
  unfold setAuthTag. destruct (valid_tag_length _); [|discriminate].
  unfold decipher_update, decipher_final, getAuthTag.
  cbn [setAAD fst snd add_cipher_text cipher_key cipher_iv cipher_aad cipher_text
       cipher_auth_tag app length].
  destruct (list_eq_dec _ _ _) as [Heq|]; [|discriminate].
  intros H. apply Returned_injective in H. rewrite app_nil_r in H.
  cbv zeta. repeat split; [lia|exact Heq|now symmetry].
Qed.

(** X5: whatever [decrypt] returns, for any envelope and key, is a string
    without unpaired surrogates; so with a key of 32 bytes the round trip
    through [encrypt] and [decrypt] gives the plaintext back if and only if
    the plaintext has no unpaired surrogate. *)
Theorem decrypt_encrypt_iff_well_formed (plaintext : jsstring) (key : list byte) (w : World) :
  length key = 32%nat ->
  (forall envelope key' text,
     decrypt envelope key' = Returned text -> well_formed text = true) /\
  ((exists envelope,
      fst (encrypt plaintext key w) = Returned envelope /\
      decrypt envelope key = Returned plaintext)
   <-> well_formed plaintext = true).
Proof.
  intros Hkey.
  assert (Hwf : forall envelope key' text,
             decrypt envelope key' = Returned text -> well_formed text = true).
  { intros envelope key' text H. apply decrypt_returned in H as (_ & _ & ->).
    apply utf8_decode_well_formed. }
  split; [exact Hwf|]. split.
  - intros (envelope & _ & H). eapply Hwf, H.
  - intros H. rewrite encrypt_unfold. cbn [fst].
    apply decrypt_encrypt_with; [exact H | exact Hkey | apply next_bytes_nonempty].
Qed.

End DecryptFacts.

Lemma decrypt_encrypt_iff_well_formed_witness :
  (forall envelope key' text,
     @decrypt (toy_platform []) envelope key' = Returned text -> well_formed text = true) /\
  ((exists envelope,
      fst (@encrypt (toy_platform []) (js "secret") toy_key toy_world) = Returned envelope /\
      @decrypt (toy_platform []) envelope toy_key = Returned (js "secret"))
   <-> well_formed (js "secret") = true).
Proof.
  apply (@decrypt_encrypt_iff_well_formed (toy_platform []) (js "secret") toy_key toy_world).
  reflexivity.
Defined.

(** ** The token store, continued ([auth/token-storage.ts]) *)

Lemma hasTokens_run (ts : TokenStorage) (w : World) :
  hasTokens (ts, w)
  = (Returned (match files (fs w) (tokenFilePath ts) with
               | Missing => false
               | _ => true
               end), (ts, w)).
Proof.
  unfold hasTokens. run. unfold fs_access.
  destruct (files (fs w) (tokenFilePath ts)); reflexivity.
Qed.

Lemma clearTokens_run (ts : TokenStorage) (w : World) :
  clearTokens (ts, w)
  = match unlink_fault (fs w) with
    | Some f => (Threw (FailedToClearTokens (fault f)), (ts, w))
    | None =>
        match files (fs w) (tokenFilePath ts) with
        | Missing => (Returned tt, (ts, w))
        | Directory _ => (Threw (FailedToClearTokens (fault EISDIR)), (ts, w))
        | _ => (Returned tt, (ts, set_fs w (set_file (fs w) (tokenFilePath ts) Missing)))
        end
    end.
Proof.
  unfold clearTokens. run. unfold fs_unlink.
  destruct (unlink_fault (fs w)) as [f|]; run.
  - rewrite fault_code. reflexivity.
  - destruct (files (fs w) (tokenFilePath ts)); reflexivity.
Qed.

Section ClearFacts.
Context {P : Platform}.

(** X6: [clearTokens] returns when the token file was removed or was not
    there to begin with; afterwards the file is missing, no other file has
    changed, [hasTokens] answers false and [loadTokens] answers null.  Every
    other failure of [unlink] is thrown as "Failed to clear tokens", wrapping
    its cause, and leaves everything as it was. *)
Theorem clearTokens_spec (ts : TokenStorage) (w : World) :
  let r := clearTokens (ts, w) in
  (fst r = Returned tt ->
   fst (snd r) = ts /\
   files (fs (snd (snd r))) (tokenFilePath ts) = Missing /\
   (forall p, p <> tokenFilePath ts -> files (fs (snd (snd r))) p = files (fs w) p) /\
   fst (hasTokens (snd r)) = Returned false /\
   fst (loadTokens (snd r)) = Returned None) /\
  (forall e, fst r = Threw e ->
   snd r = (ts, w) /\
   exists cause, e = FailedToClearTokens cause /\ code_is cause "ENOENT" = false) /\
  (files (fs w) (tokenFilePath ts) = Missing -> unlink_fault (fs w) = None ->
   r = (Returned tt, (ts, w))).
Proof.
  cbv zeta. rewrite clearTokens_run.
  destruct (unlink_fault (fs w)) as [f|] eqn:Hu.
  - split; [discriminate|]. split; [|discriminate].
    intros e H. injection H as <-. split; [reflexivity|].
    eexists. split; [reflexivity|apply fault_code].
  - destruct (files (fs w) (tokenFilePath ts)) as [|m|f|content m] eqn:Hf.
    + split; [|split; [discriminate|reflexivity]].
      intros _. cbn [fst snd]. rewrite hasTokens_run, loadTokens_run, Hf. auto.
    + split; [discriminate|]. split; [|discriminate].
      intros e H. injection H as <-. split; [reflexivity|].
      eexists. split; reflexivity.
    + split; [|split; discriminate].
      intros _. cbn [fst snd]. rewrite hasTokens_run, loadTokens_run.
      cbn [fs set_fs set_file files]. rewrite String.eqb_refl.
      repeat split. intros p Hp. apply String.eqb_neq in Hp. now rewrite Hp.
    + split; [|split; discriminate].
      intros _. cbn [fst snd]. rewrite hasTokens_run, loadTokens_run.
      cbn [fs set_fs set_file files]. rewrite String.eqb_refl.
      repeat split. intros p Hp. apply String.eqb_neq in Hp. now rewrite Hp.
Qed.


(** X10: the encryption key is derived once.  A call of [getEncryptionKey]
    that returns leaves the key in the storage, and from then on every call
    returns that key without consulting the operating system, whatever host
    and user name the world then has; the first call derives the key from
    the host name, a dash and the user name, and throws only when the user
    name cannot be obtained. *)
Theorem getEncryptionKey_derived_once (ts ts' : TokenStorage) (w w' : World)
        (key : list byte) :
  getEncryptionKey (ts, w) = (Returned key, (ts', w')) ->
  w' = w /\
  (forall w2, getEncryptionKey (ts', w2) = (Returned key, (ts', w2))) /\
  (encryptionKey ts = None ->
   exists user, username (os w) = Some user /\
                key = deriveKey (hostname (os w) ++ js "-" ++ user)
                                (utf8_encode (js "google-tasks-mcp-salt")) 100000) /\
  (forall ts0 w0 e, fst (getEncryptionKey (ts0, w0)) = Threw e ->
                    encryptionKey ts0 = None /\ username (os w0) = None).
Proof.
  intros H. pose proof (getEncryptionKey_returned _ _ _ _ _ H) as (-> & Hc & _ & _).
  split; [reflexivity|]. split; [intros w2; now apply getEncryptionKey_cached|]. split.
  - intros Hn. rewrite getEncryptionKey_run, Hn in H.
    destruct (username (os w)) as [user|]; [|discriminate].
    injection H as <- _. exists user. split; reflexivity.
  - intros ts0 w0 e. rewrite getEncryptionKey_run.
    destruct (encryptionKey ts0); [discriminate|].
    destruct (username (os w0)); [discriminate|]. auto.
Qed.

End ClearFacts.

Lemma getEncryptionKey_derived_once_witness :
  let P := toy_platform [] in
  let key := @machine_key P (js "host") (js "user") in
  let ts' := set_encryptionKey sample_storage (Some key) in
  toy_world = toy_world /\
  (forall w2, @getEncryptionKey P (ts', w2) = (Returned key, (ts', w2))) /\
  (encryptionKey sample_storage = None ->
   exists user, username (os toy_world) = Some user /\
                key = @deriveKey P (hostname (os toy_world) ++ js "-" ++ user)
                                 (utf8_encode (js "google-tasks-mcp-salt")) 100000) /\
  (forall ts0 w0 e, fst (@getEncryptionKey P (ts0, w0)) = Threw e ->
                    encryptionKey ts0 = None /\ username (os w0) = None).
Proof.
  cbv zeta.
  apply (@getEncryptionKey_derived_once (toy_platform []) sample_storage _ toy_world toy_world).
  reflexivity.
Defined.



(** *** Saving: what a failure leaves behind, and what [chmod] may do *)

Section Combinators.
Context {S : Type} (R : S -> S -> Prop).

Lemma keeps_on_throw_frames {A : Type} (c : M S A) : frames R c -> keeps_on_throw R c.
Proof. intros H s e _. apply H. Qed.



Lemma alike_bind {A B : Type} (c : M S A) (k : A -> M S B) :
  alike R c -> (forall a, alike R (k a)) -> alike R (bind c k).
Proof.
  intros Hc Hk s1 s2 H. unfold bind. destruct (Hc s1 s2 H) as [Ho Hs]. rewrite <- Ho.
  destruct (fst (c s1)) as [a|e]; [apply Hk, Hs|]. cbn [fst snd]. auto.
Qed.

Lemma same_outcome_bind {A B : Type} (c : M S A) (k : A -> M S B) :
  alike R c -> (forall a s1 s2, R s1 s2 -> fst (k a s1) = fst (k a s2)) ->
  forall s1 s2, R s1 s2 -> fst (bind c k s1) = fst (bind c k s2).
Proof.
  intros Hc Hk s1 s2 H. unfold bind. destruct (Hc s1 s2 H) as [Ho Hs]. rewrite <- Ho.
  destruct (fst (c s1)) as [a|e]; [apply Hk, Hs|reflexivity].
Qed.

Lemma same_outcome_never_throws (c : M S unit) :
  never_throws c -> forall s1 s2, fst (c s1) = fst (c s2).
Proof.
  intros H s1 s2. destruct (H s1) as [[] ->]. destruct (H s2) as [[] ->]. reflexivity.
Qed.

Lemma alike_ret {A : Type} (a : A) : alike R (ret a).
Proof. intros s1 s2 H. split; [reflexivity|exact H]. Qed.

End Combinators.




Lemma same_but_chmod_refl (w : World) : same_but_chmod w w.
Proof. repeat split. Qed.

Lemma with_chmod_fault_same (w : World) (f : option io_fault) :
  same_but_chmod w (with_chmod_fault w f).
Proof. repeat split. Qed.

Lemma same_but_chmod_set_file (w1 w2 : World) (path : string) (st : FileState) :
  same_but_chmod w1 w2 ->
  same_but_chmod (set_fs w1 (set_file (fs w1) path st)) (set_fs w2 (set_file (fs w2) path st)).
Proof.
  intros (H1 & H2 & H3 & H4 & H5 & H6 & H7 & H8 & H9 & H10).
  unfold same_but_chmod. cbn [set_fs set_file clock random os heap network sockets fs files
                              mkdir_fault write_fault unlink_fault].
  rewrite H7. repeat split; assumption.
Qed.

Section SaveFailureFacts.
Context {P : Platform}.




Lemma setSecurePermissions_never_throws (path : string) :
  never_throws (setSecurePermissions path).
Proof.
  intros [ts w]. unfold setSecurePermissions. run. unfold fs_chmod.
  destruct (chmod_fault (fs w)); run; [eexists; reflexivity|].
  destruct (files (fs w) path); eexists; reflexivity.
Qed.



(** Everything before the [chmod] does the same whether or not the [chmod]
    is going to fail. *)
Lemma ensureConfigDir_alike : alike same_storage_but_chmod ensureConfigDir.
Proof.
  intros [ts w1] [ts2 w2] [Hts Hw]. cbn [fst snd] in Hts, Hw. subst ts2.
  pose proof Hw as (H1 & H2 & H3 & H4 & H5 & H6 & H7 & H8 & H9 & H10).
  unfold ensureConfigDir, same_storage_but_chmod. run. unfold fs_access, fs_mkdir.
  rewrite H7.
  destruct (files (fs w1) (configDir ts)) eqn:Hdir; run; cbn [fst snd]; auto.
  rewrite H8.
  destruct (mkdir_fault (fs w1)); run; cbn [fst snd]; auto.
  rewrite ?H7, Hdir. cbn [fst snd]. split; [reflexivity|]. split; [reflexivity|].
  now apply same_but_chmod_set_file.
Qed.

Lemma getEncryptionKey_alike : alike same_storage_but_chmod getEncryptionKey.
Proof.
  intros [ts w1] [ts2 w2] [Hts Hw]. cbn [fst snd] in Hts, Hw. subst ts2.
  pose proof Hw as (H1 & H2 & H3 & H4 & H5 & H6 & H7 & H8 & H9 & H10).
  rewrite !getEncryptionKey_run, H3. unfold same_storage_but_chmod.
  destruct (encryptionKey ts); [cbn; auto|].
  destruct (username (os w1)); cbn; auto.
Qed.

Lemma read_object_alike (r : ref) : alike same_storage_but_chmod (in_world (read_object r)).
Proof.
  intros [ts w1] [ts2 w2] [Hts Hw]. cbn [fst snd] in Hts, Hw. subst ts2.
  pose proof Hw as (H1 & H2 & H3 & H4 & H5 & H6 & H7 & H8 & H9 & H10).
  unfold in_world, read_object, gets, same_storage_but_chmod. cbn [fst snd].
  rewrite H4. auto.
Qed.

Lemma encrypt_alike (plaintext : jsstring) (key : list byte) :
  alike same_storage_but_chmod (in_world (encrypt plaintext key)).
Proof.
  intros [ts w1] [ts2 w2] [Hts Hw]. cbn [fst snd] in Hts, Hw. subst ts2.
  pose proof Hw as (H1 & H2 & H3 & H4 & H5 & H6 & H7 & H8 & H9 & H10).
  unfold in_world, same_storage_but_chmod. rewrite !encrypt_unfold. cbn [fst snd].
  rewrite H2. split; [reflexivity|]. split; [reflexivity|].
  unfold same_but_chmod. cbn [set_random clock random os heap network sockets fs].
  repeat split; assumption.
Qed.

Lemma this_alike : alike same_storage_but_chmod (@this TokenStorage).
Proof.
  intros [ts w1] [ts2 w2] [Hts Hw]. cbn [fst snd] in Hts, Hw. subst ts2.
  unfold this, gets, same_storage_but_chmod. cbn [fst snd]. auto.
Qed.

Lemma fs_writeFile_alike (path : string) (content : jsstring) (mode : Z) :
  alike same_storage_but_chmod (in_world (fs_writeFile path content mode)).
Proof.
  intros [ts w1] [ts2 w2] [Hts Hw]. cbn [fst snd] in Hts, Hw. subst ts2.
  pose proof Hw as (H1 & H2 & H3 & H4 & H5 & H6 & H7 & H8 & H9 & H10).
  unfold in_world, fs_writeFile, same_storage_but_chmod. cbn [fst snd]. rewrite H9.
  destruct (write_fault (fs w1)); cbn [fst snd]; auto.
  rewrite H7.
  destruct (files (fs w1) path); cbn [fst snd]; auto;
    (split; [reflexivity|]; split; [reflexivity|]; now apply same_but_chmod_set_file).
Qed.

(** A [chmod] that works leaves the file with mode 0o600. *)
Lemma setSecurePermissions_sets_mode (path : string) (ts : TokenStorage) (w : World)
      (content : list byte) (mode : Z) :
  files (fs w) path = File content mode -> chmod_fault (fs w) = None ->
  files (fs (snd (snd (setSecurePermissions path (ts, w))))) path = File content 384.
Proof.
  intros Hf Hc. unfold setSecurePermissions. run. unfold fs_chmod. rewrite Hc, Hf.
  cbn [fst snd fs set_fs set_file files]. now rewrite String.eqb_refl.
Qed.

(** X8: whether [chmod] fails makes no difference to the outcome of
    [saveTokens]: the failure is swallowed.  When [chmod] does not fail, the
    token file of a [saveTokens] that returned has mode 0o600, also when the
    file was there before with another mode. *)
Theorem saveTokens_whatever_chmod (tokens : ref) (ts : TokenStorage) (w : World)
        (f : option io_fault) :
  fst (saveTokens tokens (ts, with_chmod_fault w f)) = fst (saveTokens tokens (ts, w)) /\
  (fst (saveTokens tokens (ts, w)) = Returned tt -> chmod_fault (fs w) = None ->
   exists content,
     files (fs (snd (snd (saveTokens tokens (ts, w))))) (tokenFilePath ts)
     = File content 384).
Proof.
  split.
  - symmetry. unfold saveTokens.
    apply (same_outcome_bind same_storage_but_chmod);
      [exact ensureConfigDir_alike | intros _ |
       split; [reflexivity|apply with_chmod_fault_same]].
    apply same_outcome_bind; [exact getEncryptionKey_alike | intros key].
    apply same_outcome_bind; [apply read_object_alike | intros t].
    apply same_outcome_bind; [apply encrypt_alike | intros envelope].
    apply same_outcome_bind; [exact this_alike | intros self].
    apply same_outcome_bind; [apply fs_writeFile_alike | intros _].
    intros s1 s2 _. apply same_outcome_never_throws, setSecurePermissions_never_throws.
  - intros Hret Hc.
    destruct (saveTokens tokens (ts, w)) as [o [ts' w']] eqn:Hsave. cbn [fst snd] in *.
    subst o. unfold saveTokens in Hsave.
    apply bind_inv in Hsave as ([] & [ts1 w1] & Hdir & H).
    apply ensureConfigDir_returned in Hdir as (-> & Hw1 & _ & Hc1).
    apply bind_inv in H as (key & [ts2 w2] & Hkey & H).
    apply getEncryptionKey_returned in Hkey as (-> & _ & Hpath & _).
    apply bind_inv in H as (t & [ts3 w3] & Hread & H).
    apply in_world_inv in Hread as [Hread ->]. unfold read_object, gets in Hread.
    injection Hread as _ <-.
    apply bind_inv in H as (envelope & [ts4 w4] & Henc & H).
    apply in_world_inv in Henc as [Henc ->]. rewrite encrypt_unfold in Henc.
    injection Henc as _ <-.
    apply bind_inv in H as (self & [ts5 w5] & Hthis & H).
    unfold this, gets in Hthis. injection Hthis as <- <- <-. cbn [fst] in H.
    apply bind_inv in H as ([] & [ts6 w6] & Hwrite & H).
    apply in_world_inv in Hwrite as [Hwrite ->].
    apply fs_writeFile_returned in Hwrite as (_ & Hc6 & mode & Hfile).
    cbn [fs set_random] in Hc6.
    pose proof (setSecurePermissions_sets_mode (tokenFilePath ts2) ts2 w6 _ _ Hfile) as Hm.
    rewrite H in Hm. cbn [snd] in Hm. rewrite <- Hpath. eexists. apply Hm. congruence.
Qed.

End SaveFailureFacts.


(** ** The manager, continued ([auth/oauth-manager.ts]) *)

Lemma fetch_sent (request : HttpRequest) (w : World) :
  sent (network (snd (fetch request w))) = request :: sent (network w).
Proof. unfold fetch. destruct (replies (network w)) as [|[|r] rest]; reflexivity. Qed.

Section PkceFacts.
Context {P : Platform}.

Ltac silent_leaf :=
  first [ apply (frames_in_world nothing_sent); [intros ? ? ? H; exact H | untouched]
        | apply (frames_in_storage (on_world nothing_sent));
          [intros ? ? ? ? H; exact H
          | first [ apply loadTokens_quiet | apply saveTokens_quiet
                  | apply updateTokenExpiry_quiet | apply isTokenExpired_quiet ]]
        | (intros [? ?]; reflexivity) ].

Ltac silent :=
  frames_with (@on_world_refl OAuthManager _ nothing_sent_refl)
              (@on_world_trans OAuthManager _ nothing_sent_trans)
              silent_leaf.

(** What [getAuthorizationUrl] returns and leaves behind. *)
Lemma getAuthorizationUrl_run (m : OAuthManager) (w : World) :
  let verifier_ := firstn 128 (to_base64url (next_bytes (random w) 128)) in
  let pkce := {| verifier := verifier_; challenge := generateSHA256Hash verifier_;
                 method := js "S256" |} in
  let w1 := set_random w (advance (random w) 128) in
  let state := firstn 32 (to_base64url (next_bytes (random w1) 32)) in
  getAuthorizationUrl (m, w)
  = (Returned {| auth_endpoint := "https://accounts.google.com/o/oauth2/v2/auth";
                 auth_params :=
                   [("client_id", clientId (config m));
                    ("redirect_uri", redirectUri (config m));
                    ("response_type", js "code");
                    ("scope", join (js " ") (scopes (config m)));
                    ("code_challenge", challenge pkce);
                    ("code_challenge_method", method pkce);
                    ("access_type", js "offline");
                    ("prompt", js "consent");
                    ("state", state)]%string |},
     (set_currentPKCE m (Some pkce), set_random w1 (advance (random w1) 32))).
Proof.
  cbv zeta. unfold getAuthorizationUrl, generatePKCE, generateRandomString, randomBytes.
  run. rewrite !slice_prefix by lia. reflexivity.
Qed.

(** X12: the authorization URL and the exchange that follows it are bound by
    PKCE.  [getAuthorizationUrl] always returns; the exchange that follows
    sends exactly one request, to the token endpoint, and its [code_verifier]
    is a string of 128 base64url characters whose SHA-256 hash, in base64url,
    is the [code_challenge] of the URL, announced with method S256; the
    request carries the code it was given and the [client_id] and
    [redirect_uri] of the URL. *)
Theorem exchange_sends_verifier_of_challenge (code : jsstring) (m : OAuthManager) (w : World) :
  exists url m1 w1,
    getAuthorizationUrl (m, w) = (Returned url, (m1, w1)) /\
    sent (network w1) = sent (network w) /\
    exists request v,
      sent (network (snd (snd (exchangeCodeForTokens code (m1, w1)))))
      = request :: sent (network w) /\
      req_url request = tokenEndpoint /\
      param "code_verifier" (req_body request) = Some v /\
      length v = 128%nat /\
      forallb is_base64url_char v = true /\
      param "code_challenge" (auth_params url) = Some (generateSHA256Hash v) /\
      param "code_challenge_method" (auth_params url) = Some (js "S256") /\
      param "code" (req_body request) = Some code /\
      param "grant_type" (req_body request) = Some (js "authorization_code") /\
      param "client_id" (req_body request) = param "client_id" (auth_params url) /\
      param "redirect_uri" (req_body request) = param "redirect_uri" (auth_params url).
Proof.
  pose proof (getAuthorizationUrl_run m w) as Hurl. cbv zeta in Hurl.
  destruct (generateRandomString_returned 128 w) as (_ & Hlen & Halpha); [lia|].
  cbv zeta in Hlen, Halpha. change (Z.to_nat 128) with 128%nat in Hlen, Halpha.
  set (v := firstn 128 (to_base64url (next_bytes (random w) 128))) in *.
  eexists _, _, _. split; [exact Hurl|]. split; [reflexivity|].
  match goal with
  | |- context [exchangeCodeForTokens code (?m1, ?w1)] => set (m' := m1); set (w' := w1)
  end.
  unfold exchangeCodeForTokens.
  rewrite (bind_returned _ _ (m', w') (m', w') m') by reflexivity.
  cbn [currentPKCE m' set_currentPKCE].
  match goal with
  | |- context [fetch ?req] => set (request := req)
  end.
  exists request, v.
  split.
  - unfold bind at 1. rewrite !in_world_run. cbn [fst snd].
    pose proof (fetch_sent request w') as Hsent.
    change (sent (network w')) with (sent (network w)) in Hsent.
    destruct (fetch request w') as [[response|e] w2]; cbn [fst snd] in *; [|exact Hsent].
    match goal with
    | |- sent (network (snd (snd (?k (m', w2))))) = _ =>
        assert (Hk : frames (on_world nothing_sent) k)
    end.
    { destruct (negb (resp_ok response)); silent. }
    specialize (Hk (m', w2)). unfold on_world, nothing_sent in Hk. cbn [snd] in Hk.
    rewrite Hk. exact Hsent.
  - repeat split; try reflexivity; try assumption; lia.
Qed.

(** X13: [getValidTokens] and [getValidAccessToken] go the same way and leave
    the same state behind.  Where [getValidTokens] returns a record,
    [getValidAccessToken] returns the access token of that record; where it
    returns null, [getValidAccessToken] throws ("Token refresh failed" when
    the stored record was missing or expired, "No tokens available"
    otherwise); and where it throws, which only a failure to load the stored
    record makes it do, [getValidAccessToken] throws the same error. *)
Theorem getValidTokens_agrees (m : OAuthManager) (w : World) :
  let tokens := getValidTokens (m, w) in
  let access := getValidAccessToken (m, w) in
  snd access = snd tokens /\
  match fst tokens with
  | Returned (Some r) =>
      fst access = Returned (access_token (objects (heap (snd (snd tokens))) r))
  | Returned None =>
      fst access = Threw ReauthenticationRequired \/ fst access = Threw NoTokensAvailable
  | Threw e =>
      fst access = Threw e /\ exists cause, e = FailedToLoadTokens cause
  end.
Proof.
  cbv zeta. unfold getValidTokens, getValidAccessToken.
  assert (Hload : forall s e, fst (in_storage loadTokens s) = Threw e ->
                              exists cause, e = FailedToLoadTokens cause).
  { intros [m0 w0] e. unfold in_storage. cbn [fst snd]. rewrite loadTokens_run.
    destruct (files (fs w0) (tokenFilePath (tokenStorage m0))) as [| | |content mode];
      cbn [fst]; try discriminate; try (intros H; injection H as <-; eauto).
    destruct (JSON_parse_EncryptedData _); [|intros H; injection H as <-; eauto].
    cbv zeta. destruct (fst (getEncryptionKey _)); [|intros H; injection H as <-; eauto].
    destruct (decrypt _ _); [|intros H; injection H as <-; eauto].
    destruct (JSON_parse_TokenSet _); [discriminate|intros H; injection H as <-; eauto]. }
  assert (Hvalid : forall s e, fst (isTokenValid s) = Threw e ->
                               exists cause, e = FailedToLoadTokens cause).
  { intros s e. unfold isTokenValid, bind.
    destruct (fst (in_storage loadTokens s)) as [[t|]|e0] eqn:Hl.
    - destruct (snd (in_storage loadTokens s)) as [m1 w1].
      unfold in_storage. cbn [fst snd].
      destruct (isTokenExpired_run (tokenStorage m1) w1 t) as [w2 ->]. discriminate.
    - discriminate.
    - intros H. injection H as <-. eapply Hload, Hl. }
  specialize (Hvalid (m, w)).
  unfold bind, try_catch.
  destruct (isTokenValid (m, w)) as [[[|]|e] s0]; cbn [fst snd negb] in *.
  - specialize (Hload s0).
    destruct (in_storage loadTokens s0) as [[[r|]|e] [m1 w1]]; cbn [fst snd] in *.
    + unfold in_world, read_object, gets, ret. cbn [fst snd]. split; reflexivity.
    + split; [reflexivity|right; reflexivity].
    + split; [reflexivity|]. split; [reflexivity|]. now apply Hload.
  - destruct (refreshAccessToken s0) as [[r|e] [m1 w1]]; cbn [fst snd].
    + unfold in_world, read_object, gets, ret. cbn [fst snd]. split; reflexivity.
    + split; [reflexivity|left; reflexivity].
  - split; [reflexivity|]. split; [reflexivity|]. now apply Hvalid.
Qed.

End PkceFacts.

(** *** The authentication status and logging out *)

Section StatusFacts.
Context {P : Platform}.

Lemma loadTokens_only_heap (ts : TokenStorage) (w : World) :
  snd (snd (loadTokens (ts, w))) = set_heap w (heap (snd (snd (loadTokens (ts, w))))).
Proof.
  rewrite loadTokens_run.
  destruct (files (fs w) (tokenFilePath ts)); try (now destruct w).
  destruct (JSON_parse_EncryptedData _); [|now destruct w]. cbv zeta.
  destruct (fst (getEncryptionKey _)); [|now destruct w].
  destruct (decrypt _ _); [|now destruct w].
  destruct (JSON_parse_TokenSet _); now destruct w.
Qed.




Lemma in_storage_hasTokens (m : OAuthManager) (w : World) :
  in_storage hasTokens (m, w)
  = (Returned (match files (fs w) (tokenFilePath (tokenStorage m)) with
               | Missing => false
               | _ => true
               end), (m, w)).
Proof.
  unfold in_storage. cbn [fst snd]. rewrite hasTokens_run. cbn [fst snd].
  now rewrite set_tokenStorage_same.
Qed.


Lemma getAuthStatus_missing (m : OAuthManager) (w : World) :
  files (fs w) (tokenFilePath (tokenStorage m)) = Missing ->
  getAuthStatus (m, w)
  = (Returned {| AuthStatus.isAuthenticated := false; AuthStatus.hasValidToken := false;
                 AuthStatus.tokenExpiry := None; AuthStatus.scopes := None |}, (m, w)).
Proof.
  intros Hf. unfold getAuthStatus.
  rewrite (bind_returned _ _ _ _ _ (in_storage_hasTokens m w)), Hf. reflexivity.
Qed.


(** X15: logging out.  After [OAuthManager.clearTokens] has returned,
    [getAuthStatus] reports not authenticated, [isTokenValid] answers false,
    and [getValidTokens] answers null and [getValidAccessToken] throws the
    re-authentication error, both without sending a request. *)
Theorem logged_out_after_clearTokens (m m' : OAuthManager) (w w' : World) :
  manager_clearTokens (m, w) = (Returned tt, (m', w')) ->
  fst (getAuthStatus (m', w'))
  = Returned {| AuthStatus.isAuthenticated := false; AuthStatus.hasValidToken := false;
                AuthStatus.tokenExpiry := None; AuthStatus.scopes := None |} /\
  fst (isTokenValid (m', w')) = Returned false /\
  fst (getValidTokens (m', w')) = Returned None /\
  fst (getValidAccessToken (m', w')) = Threw ReauthenticationRequired /\
  sent (network (snd (snd (getValidTokens (m', w'))))) = sent (network w) /\
  sent (network (snd (snd (getValidAccessToken (m', w'))))) = sent (network w).
Proof.
  intros Hclear. unfold manager_clearTokens in Hclear.
  apply in_storage_inv in Hclear as (ts' & Hclear & ->).
  rewrite clearTokens_run in Hclear.
  assert (Hfile : files (fs w') (tokenFilePath (tokenStorage m)) = Missing /\
                  ts' = tokenStorage m /\ sent (network w') = sent (network w)).
  { destruct (unlink_fault (fs w)); [discriminate|].
    destruct (files (fs w) (tokenFilePath (tokenStorage m))) eqn:Hf;
      try discriminate; injection Hclear as <- <-;
      cbn [fs set_fs set_file files network]; rewrite ?String.eqb_refl; auto. }
  destruct Hfile as (Hfile & -> & Hsent). rewrite set_tokenStorage_same.
  assert (Hload : in_storage loadTokens (m, w') = (Returned None, (m, w'))).
  { erewrite in_storage_returned; [|rewrite loadTokens_run, Hfile; reflexivity].
    now rewrite set_tokenStorage_same. }
  assert (Hvalid : isTokenValid (m, w') = (Returned false, (m, w')))
    by (unfold isTokenValid; now rewrite (bind_returned _ _ _ _ _ Hload)).
  assert (Hrefresh : refreshAccessToken (m, w') = (Threw NoRefreshToken, (m, w')))
    by (unfold refreshAccessToken; now rewrite (bind_returned _ _ _ _ _ Hload)).
  repeat split.
  - now rewrite getAuthStatus_missing.
  - now rewrite Hvalid.
  - unfold getValidTokens. rewrite (bind_returned _ _ _ _ _ Hvalid). cbn [negb].
    unfold try_catch. now rewrite (bind_threw _ _ _ _ _ Hrefresh).
  - unfold getValidAccessToken. rewrite (bind_returned _ _ _ _ _ Hvalid). cbn [negb].
    unfold try_catch. now rewrite (bind_threw _ _ _ _ _ Hrefresh).
  - unfold getValidTokens. rewrite (bind_returned _ _ _ _ _ Hvalid). cbn [negb].
    unfold try_catch. now rewrite (bind_threw _ _ _ _ _ Hrefresh).
  - unfold getValidAccessToken. rewrite (bind_returned _ _ _ _ _ Hvalid). cbn [negb].
    unfold try_catch. now rewrite (bind_threw _ _ _ _ _ Hrefresh).
Qed.

End StatusFacts.

Lemma logged_out_after_clearTokens_witness :
  let P := toy_platform sample_documents in
  let w := world_storing sample_tokens [] in
  let m' := fst (snd (manager_clearTokens (sample_manager, w))) in
  let w' := snd (snd (manager_clearTokens (sample_manager, w))) in
  fst (@getAuthStatus P (m', w'))
  = Returned {| AuthStatus.isAuthenticated := false; AuthStatus.hasValidToken := false;
                AuthStatus.tokenExpiry := None; AuthStatus.scopes := None |} /\
  fst (@isTokenValid P (m', w')) = Returned false /\
  fst (@getValidTokens P (m', w')) = Returned None /\
  fst (@getValidAccessToken P (m', w')) = Threw ReauthenticationRequired /\
  sent (network (snd (snd (@getValidTokens P (m', w'))))) = sent (network w) /\
  sent (network (snd (snd (@getValidAccessToken P (m', w'))))) = sent (network w).
Proof.
  intros P w m' w'.
  refine (@logged_out_after_clearTokens P sample_manager m' w w' _).
  rewrite (surjective_pairing (manager_clearTokens (sample_manager, w))).
  rewrite (surjective_pairing (snd (manager_clearTokens (sample_manager, w)))).
  f_equal; vm_compute; reflexivity.
Defined.

(** *** The callback listener: its port and the request that decides *)

Lemma set_callbackPort_same (m : OAuthManager) : set_callbackPort m (callbackPort m) = m.
Proof. now destruct m. Qed.

Lemma listen_from_busy (k : nat) :
  forall (rest : list ListenOutcome) (server : Server) (m : OAuthManager) (w : World),
    listen_from (busy k ++ rest) server (m, w)
    = listen_from rest server
        (set_callbackPort m (callbackPort m + Z.of_nat k), after_listen_failures k w).
Proof.
  induction k as [|k IH]; intros rest server m w.
  - unfold busy. cbn [repeat app after_listen_failures Z.of_nat].
    now rewrite Z.add_0_r, set_callbackPort_same.
  - unfold busy in *. cbn [repeat app listen_from after_listen_failures]. run.
    change (String.eqb "EADDRINUSE" "EADDRINUSE") with true. cbv iota. run.
    rewrite IH. cbn [callbackPort set_callbackPort].
    replace (callbackPort m + 1 + Z.of_nat k) with (callbackPort m + Z.of_nat (S k)) by lia.
    f_equal. f_equal. now destruct m.
Qed.

Lemma after_listen_failures_sockets (k : nat) :
  forall w,
    listening (sockets (after_listen_failures k w)) = listening (sockets w) /\
    created (sockets (after_listen_failures k w)) = created (sockets w) /\
    sent (network (after_listen_failures k w)) = sent (network w).
Proof.
  induction k as [|k IH]; intros w; [repeat split|].
  cbn [after_listen_failures]. destruct (IH (snd (listen_fails w))) as (H1 & H2 & H3).
  rewrite H1, H2, H3. repeat split.
Qed.

(** X16: [startCallbackServer] moves one port up for every EADDRINUSE.  When
    the first [k] attempts to listen find their port in use, the server ends
    up on the manager's port plus [k], which the call returns and the manager
    keeps; when the attempt after them fails with another error, the call
    throws that error, the server is not listening, and the manager still
    keeps the port it had reached. *)
Theorem startCallbackServer_port (m : OAuthManager) (w : World) (k : nat)
        (rest : list ListenOutcome) :
  listen_script (sockets w) = busy k ++ rest ->
  match rest with
  | ListenError c :: _ => c <> "EADDRINUSE"%string
  | _ => True
  end ->
  let s' := snd (startCallbackServer (m, w)) in
  let server := created (sockets w) in
  let port := callbackPort m + Z.of_nat k in
  callbackPort (fst s') = port /\
  callbackServer (fst s') = Some server /\
  match rest with
  | ListenError c :: _ =>
      fst (startCallbackServer (m, w)) = Threw (SystemError c) /\
      listening (sockets (snd s')) = listening (sockets w)
  | _ =>
      fst (startCallbackServer (m, w)) = Returned port /\
      listening (sockets (snd s')) = (server, port) :: listening (sockets w)
  end.
Proof.
  intros Hscript Hrest. cbv zeta. unfold startCallbackServer. run.
  unfold createServer. cbn [fst snd sockets set_sockets listen_script].
  rewrite Hscript, listen_from_busy.
  match goal with
  | |- context [after_listen_failures k ?w1] =>
      destruct (after_listen_failures_sockets k w1) as (Hl & _ & _);
      cbn [sockets set_sockets listening] in Hl;
      set (w2 := after_listen_failures k w1) in *
  end.
  destruct rest as [|[|c] rest']; cbn [listen_from]; run;
    unfold listen_succeeds, listen_fails, modify;
    cbn [fst snd callbackPort callbackServer set_callbackPort set_callbackServer
         sockets set_sockets listening].
  - rewrite Hl. repeat split.
  - rewrite Hl. repeat split.
  - apply String.eqb_neq in Hrest. rewrite Hrest. run. cbn [fst snd callbackPort
      callbackServer set_callbackPort set_callbackServer sockets set_sockets listening].
    rewrite Hl. repeat split.
Qed.

Lemma startCallbackServer_port_witness :
  let w := with_listen_script toy_world
             [ListenError "EADDRINUSE"; ListenError "EADDRINUSE"; Bound] in
  let s' := snd (startCallbackServer (sample_manager, w)) in
  callbackPort (fst s') = 8080 + Z.of_nat 2 /\
  callbackServer (fst s') = Some (created (sockets w)) /\
  fst (startCallbackServer (sample_manager, w)) = Returned (8080 + Z.of_nat 2) /\
  listening (sockets (snd s'))
  = (created (sockets w), 8080 + Z.of_nat 2) :: listening (sockets w).
Proof.
  exact (startCallbackServer_port sample_manager
           (with_listen_script toy_world
              [ListenError "EADDRINUSE"; ListenError "EADDRINUSE"; Bound])
           2 [Bound] eq_refl I).
Defined.

(** The handler on requests to other paths: each is answered 404 and the
    handler goes on to the next. *)
Lemma handle_requests_elsewhere (others : list IncomingRequest) :
  forall (rest : list IncomingRequest) (w : World),
    Forall elsewhere others ->
    incoming (sockets w) = others ++ rest ->
    exists w',
      handle_requests (others ++ rest) w = handle_requests rest w' /\
      incoming (sockets w') = rest /\
      served (sockets w') = repeat 404 (length others) ++ served (sockets w) /\
      listening (sockets w') = listening (sockets w) /\
      network w' = network w /\ fs w' = fs w.
Proof.
  induction others as [|q others IH]; intros rest w Hall Hin.
  - exists w. repeat split. exact Hin.
  - inversion Hall as [|? ? Hq Hothers]; subst.
    cbn [app handle_requests]. unfold elsewhere in Hq. apply String.eqb_neq in Hq.
    rewrite Hq. unfold bind, next_request, respond, modify. rewrite Hin.
    cbn [app fst snd sockets set_sockets incoming served].
    match goal with
    | |- context [handle_requests (others ++ rest) ?w1] =>
        destruct (IH rest w1 Hothers eq_refl) as (w' & Hrun & Hi & Hs & Hl & Hn & Hf)
    end.
    exists w'. rewrite Hrun. split; [reflexivity|]. split; [exact Hi|].
    cbn [sockets set_sockets served listening network set_sockets fs] in Hs, Hl, Hn, Hf.
    split; [|auto].
    rewrite Hs. cbn [length repeat]. rewrite <- app_comm_cons.
    change (404 :: served (sockets w)) with ([404] ++ served (sockets w)).
    rewrite app_assoc. f_equal. clear. induction (length others); cbn; congruence.
Qed.

(** X17: [waitForCallback] is decided by the first request to
    [/oauth/callback].  Requests to other paths before it are answered 404
    and waited past.  At that request an [error] parameter wins over a
    [code]: with a non-empty [error] the call throws the OAuth error and
    answers 400; otherwise with a non-empty [code] it returns the code and
    answers 200; otherwise it throws "No authorization code received" and
    answers 400.  Later requests are left alone.  If no request to that path
    arrives, the call throws the timeout error; and without a callback server
    it throws at once, reading no request. *)
Theorem waitForCallback_first_callback_decides (m : OAuthManager) (w : World) :
  (callbackServer m = None ->
   waitForCallback (m, w) = (Threw CallbackServerNotStarted, (m, w))) /\
  (callbackServer m <> None -> Forall elsewhere (incoming (sockets w)) ->
   fst (waitForCallback (m, w)) = Threw OAuthCallbackTimeout /\
   served (sockets (snd (snd (waitForCallback (m, w)))))
   = repeat 404 (length (incoming (sockets w))) ++ served (sockets w)) /\
  (forall others request rest,
      callbackServer m <> None ->
      incoming (sockets w) = others ++ request :: rest ->
      Forall elsewhere others ->
      pathname request = "/oauth/callback"%string ->
      let outcome :=
        if truthy_string (query_error request) then
          (Threw (OAuthError (match query_error request with Some e => e | None => [] end)
                             (query_error_description request)), 400)
        else if truthy_string (query_code request) then
          (Returned (match query_code request with Some c => c | None => [] end), 200)
        else (Threw NoAuthorizationCode, 400) in
      fst (waitForCallback (m, w)) = fst outcome /\
      fst (snd (waitForCallback (m, w))) = m /\
      served (sockets (snd (snd (waitForCallback (m, w)))))
      = snd outcome :: repeat 404 (length others) ++ served (sockets w) /\
      incoming (sockets (snd (snd (waitForCallback (m, w))))) = rest).
Proof.
  split; [|split].
  - intros Hs. unfold waitForCallback. run. now rewrite Hs.
  - intros Hs Hall. unfold waitForCallback. run.
    destruct (callbackServer m); [|contradiction]. run.
    destruct (handle_requests_elsewhere (incoming (sockets w)) [] w Hall)
      as (w' & Hrun & _ & Hserved & _); [now rewrite app_nil_r|].
    rewrite app_nil_r in Hrun. rewrite Hrun. cbn [handle_requests throw fst snd].
    split; [reflexivity|exact Hserved].
  - intros others request rest Hs Hin Hall Hpath. cbv zeta.
    unfold waitForCallback. run.
    destruct (callbackServer m); [|contradiction]. run.
    destruct (handle_requests_elsewhere others (request :: rest) w Hall Hin)
      as (w' & Hrun & Hi & Hserved & _).
    rewrite Hin, Hrun. cbn [handle_requests]. rewrite Hpath.
    change (String.eqb "/oauth/callback" "/oauth/callback") with true. cbv iota.
    unfold bind, next_request, respond, modify, throw, ret. rewrite Hi.
    cbn [fst snd sockets set_sockets incoming served].
    destruct (truthy_string (query_error request));
      [|destruct (truthy_string (query_code request))];
      cbn [fst snd sockets set_sockets incoming served]; rewrite Hserved; repeat split.
Qed.

(** *** The redirect URI of a flow, and a refresh that gets no tokens *)

Lemma manager_kept_refl (s : OAuthManager * World) : manager_kept s s.
Proof. repeat split. Qed.

Lemma manager_kept_trans (s1 s2 s3 : OAuthManager * World) :
  manager_kept s1 s2 -> manager_kept s2 s3 -> manager_kept s1 s3.
Proof.
  unfold manager_kept, nothing_sent. intros (H1 & H2 & H3) (H4 & H5 & H6).
  repeat split; congruence.
Qed.

Section RedirectFacts.
Context {P : Platform}.

Lemma generateRandomString_quiet (n : Z) : frames nothing_sent (generateRandomString n).
Proof.
  unfold generateRandomString. frames_with nothing_sent_refl nothing_sent_trans untouched.
Qed.

Lemma handle_requests_quiet (requests : list IncomingRequest) :
  frames nothing_sent (handle_requests requests).
Proof.
  induction requests as [|req rest IH]; cbn [handle_requests];
    frames_with nothing_sent_refl nothing_sent_trans ltac:(first [exact IH | untouched]).
Qed.

Ltac kept_leaf :=
  first [ apply (frames_in_world nothing_sent);
          [intros ? ? ? H; repeat split; exact H
          | first [ apply generateRandomString_quiet | apply handle_requests_quiet
                  | untouched ]]
        | apply (frames_in_storage (on_world nothing_sent));
          [intros ? ? ? ? H; repeat split; exact H
          | first [ apply loadTokens_quiet | apply saveTokens_quiet
                  | apply updateTokenExpiry_quiet | apply isTokenExpired_quiet ]]
        | solve [intros [? ?]; repeat split] ].

Ltac kept := frames_with manager_kept_refl manager_kept_trans kept_leaf.

Lemma getAuthorizationUrl_kept : frames manager_kept getAuthorizationUrl.
Proof. unfold getAuthorizationUrl, generatePKCE. kept. Qed.

Lemma waitForCallback_kept : frames manager_kept waitForCallback.
Proof. unfold waitForCallback. kept. Qed.

Lemma stopCallbackServer_kept : frames manager_kept stopCallbackServer.
Proof.
  intros [m w]. destruct (stopCallbackServer_run m w) as (w' & Hrun & _).
  unfold stopCallbackServer in Hrun |- *. revert Hrun. run.
  destruct (callbackServer m); run; intros _; repeat split.
Qed.

(** [startCallbackServer] returns the port the manager then has, and sends
    nothing. *)
Lemma listen_from_port (script : list ListenOutcome) (server : Server) :
  forall (m : OAuthManager) (w : World),
    let r := listen_from script server (m, w) in
    config (fst (snd r)) = config m /\
    sent (network (snd (snd r))) = sent (network w) /\
    forall port, fst r = Returned port -> callbackPort (fst (snd r)) = port.
Proof.
  induction script as [|[|c] rest IH]; intros m w; cbv zeta.
  - cbn [listen_from]. run. repeat split. intros port H. now injection H.
  - cbn [listen_from]. run. repeat split. intros port H. now injection H.
  - cbn [listen_from]. run. unfold listen_fails, modify. cbn [fst snd].
    destruct (String.eqb c "EADDRINUSE"); run; [|repeat split; discriminate].
    match goal with
    | |- context [listen_from rest server (?m1, ?w1)] =>
        specialize (IH m1 w1); cbv zeta in IH;
        destruct (listen_from rest server (m1, w1)) as [[port|e] [m2 w2]]
    end; cbn [fst snd] in *; exact IH.
Qed.

Lemma startCallbackServer_returned (m m1 : OAuthManager) (w w1 : World) (port : Z) :
  startCallbackServer (m, w) = (Returned port, (m1, w1)) ->
  callbackPort m1 = port /\ config m1 = config m /\ sent (network w1) = sent (network w).
Proof.
  unfold startCallbackServer. run. unfold createServer. cbn [fst snd].
  match goal with
  | |- context [listen_from ?script ?h (?m0, ?w0)] =>
      pose proof (listen_from_port script h m0 w0) as H; cbv zeta in H;
      destruct (listen_from script h (m0, w0)) as [o [m2 w2]]
  end.
  cbn [fst snd] in H. destruct H as (Hc & Hs & Hp).
  intros Heq. injection Heq as -> <- <-. repeat split; auto.
Qed.

(** What an exchange sends, if anything: one request, with the redirect URI
    of the manager's configuration; the configuration and the port stay. *)
Lemma exchangeCodeForTokens_redirect (code : jsstring) :
  frames sends_redirect (exchangeCodeForTokens code).
Proof.
  intros [m w]. unfold sends_redirect.
  destruct (exchangeCodeForTokens code (m, w)) as [o [m' w']] eqn:Hr.
  cbn [fst snd]. revert Hr. unfold exchangeCodeForTokens.
  rewrite (bind_returned _ _ (m, w) (m, w) m) by reflexivity.
  destruct (currentPKCE m) as [pkce|]; [|intros H; injection H as _ <- <-; auto].
  match goal with
  | |- context [fetch ?req] => set (request := req)
  end.
  unfold bind at 1. rewrite !in_world_run. cbn [fst snd].
  pose proof (fetch_sent request w) as Hsent.
  destruct (fetch request w) as [[response|e] w2]; cbn [fst snd] in *.
  - match goal with
    | |- ?k (m, w2) = _ -> _ => assert (Hk : frames manager_kept k)
    end.
    { destruct (negb (resp_ok response)); kept. }
    intros Hr. destruct (Hk (m, w2)) as (Hc & Hp & Hq). rewrite Hr in Hc, Hp, Hq.
    cbn [fst snd] in Hc, Hp, Hq. unfold nothing_sent in Hq.
    split; [exact Hc|]. split; [exact Hp|]. right. exists request.
    split; [congruence|reflexivity].
  - intros H. injection H as _ <- <-. repeat split. right. exists request.
    split; [exact Hsent|reflexivity].
Qed.

Lemma kept_sends_redirect (s s' : OAuthManager * World) :
  manager_kept s s' -> sends_redirect s s'.
Proof. intros (H1 & H2 & H3). repeat split; auto. Qed.

Lemma kept_then_sends_redirect (s1 s2 s3 : OAuthManager * World) :
  manager_kept s1 s2 -> sends_redirect s2 s3 -> sends_redirect s1 s3.
Proof.
  unfold manager_kept, sends_redirect, nothing_sent.
  intros (H1 & H2 & H3) (H4 & H5 & H6). rewrite H1, H2, H3 in *. auto.
Qed.

Lemma sends_redirect_then_kept (s1 s2 s3 : OAuthManager * World) :
  sends_redirect s1 s2 -> manager_kept s2 s3 -> sends_redirect s1 s3.
Proof.
  unfold manager_kept, sends_redirect, nothing_sent.
  intros (H1 & H2 & H3) (H4 & H5 & H6). rewrite H4, H5, H6. auto.
Qed.

(** The flow once its listener is running. *)
Lemma flow_after_listen_redirect :
  frames sends_redirect
    (getAuthorizationUrl ;;;
     authCode <- waitForCallback ;;
     tokens <- exchangeCodeForTokens authCode ;;
     ret tokens).
Proof.
  apply (frames_bind_gen manager_kept sends_redirect);
    [exact kept_sends_redirect | exact kept_then_sends_redirect
    | exact getAuthorizationUrl_kept | intros _].
  apply (frames_bind_gen manager_kept sends_redirect);
    [exact kept_sends_redirect | exact kept_then_sends_redirect
    | exact waitForCallback_kept | intros authCode].
  apply (frames_bind_post sends_redirect manager_kept);
    [exact sends_redirect_then_kept | apply exchangeCodeForTokens_redirect | intros tokens].
  intros s. apply manager_kept_refl.
Qed.

Lemma snd_try_finally {S A : Type} (c : M S A) (f : M S unit) (s : S) :
  snd (try_finally c f s) = snd (f (snd (c s))).
Proof. unfold try_finally. destruct (fst (f (snd (c s)))); reflexivity. Qed.

(** X18: a flow that got its listener running works with the port it bound.
    When [startCallbackServer] returns a port, the manager's redirect URI is
    from then on [http://localhost:<port>/oauth/callback]: [getRedirectUri]
    returns it after the flow, however the flow ends, the manager keeps the
    port, and the flow sends at most one request, whose [redirect_uri] is
    that URI. *)
Theorem completeOAuthFlow_redirectUri (m : OAuthManager) (w : World) (port : Z) :
  fst (startCallbackServer (m, w)) = Returned port ->
  let s' := snd (completeOAuthFlow (m, w)) in
  let uri := js "http://localhost:" ++ decimal port ++ js "/oauth/callback" in
  fst (getRedirectUri s') = Returned uri /\
  callbackPort (fst s') = port /\
  clientId (config (fst s')) = clientId (config m) /\
  (sent (network (snd s')) = sent (network w) \/
   exists request,
     sent (network (snd s')) = request :: sent (network w) /\
     param "redirect_uri" (req_body request) = Some uri).
Proof.
  intros Hstart. cbv zeta.
  destruct (startCallbackServer (m, w)) as [o [m1 w1]] eqn:Hs. cbn [fst] in Hstart. subst o.
  pose proof (startCallbackServer_returned _ _ _ _ _ Hs) as (Hport & Hconfig & Hsent1).
  set (uri := js "http://localhost:" ++ decimal port ++ js "/oauth/callback").
  set (m2 := set_config m1 (set_redirectUri (config m1) uri)).
  unfold completeOAuthFlow. rewrite snd_try_finally.
  rewrite (bind_returned _ _ _ _ _ Hs).
  rewrite (bind_returned _ _ (m1, w1) (m2, w1) tt) by reflexivity.
  destruct (flow_after_listen_redirect (m2, w1)) as (Hc & Hp & Hq).
  revert Hc Hp Hq.
  match goal with
  | |- context [stopCallbackServer ?x] => generalize x
  end.
  intros [m5 w5] Hc Hp Hq.
  cbn [fst snd] in Hc, Hp, Hq |- *.
  destruct (stopCallbackServer_run m5 w5) as (w6 & Hstop & _).
  destruct (stopCallbackServer_kept (m5, w5)) as (_ & _ & Hq6).
  rewrite Hstop in Hq6 |- *. cbn [fst snd] in Hq6 |- *. unfold nothing_sent in Hq6.
  unfold getRedirectUri. run. cbn [config set_callbackServer callbackPort].
  rewrite Hc, Hp, Hq6. subst m2.
  cbn [config set_config redirectUri set_redirectUri clientId callbackPort] in *.
  split; [reflexivity|]. split; [exact Hport|]. split; [now rewrite Hconfig|].
  rewrite <- Hsent1. exact Hq.
Qed.

(** X19: a refresh that gets no tokens leaves the stored ones alone.  When
    the next reply of the token endpoint is a rejection, a response that is
    not ok, or a response without a JSON body, [refreshAccessToken] throws
    and the file system is exactly as it was. *)
Theorem refresh_without_tokens_keeps_files (m : OAuthManager) (w : World) :
  match replies (network w) with
  | Responded response :: _ => resp_ok response = false \/ resp_json response = None
  | _ => True
  end ->
  fs (snd (snd (refreshAccessToken (m, w)))) = fs w /\
  exists e, fst (refreshAccessToken (m, w)) = Threw e.
Proof.
  intros Hreply.
  destruct (refreshAccessToken (m, w)) as [o [m' w']] eqn:Hr. cbn [fst snd].
  revert Hr. unfold refreshAccessToken.
  destruct (in_storage loadTokens (m, w)) as [[[existing|]|e] [m0 w0]] eqn:Hload.
  - pose proof (in_storage_loadTokens_fs _ _ _ _ _ Hload) as Hfs.
    pose proof Hload as Hload0. apply in_storage_inv in Hload0 as (ts0 & Hload0 & ->).
    pose proof (loadTokens_only_heap (tokenStorage m) w) as Hw. rewrite Hload0 in Hw.
    cbn [snd] in Hw.
    assert (Hnet : replies (network w0) = replies (network w)) by (rewrite Hw; reflexivity).
    set (m0 := set_tokenStorage m ts0) in *.
    rewrite (bind_returned _ _ _ _ _ Hload).
    rewrite (bind_returned _ _ (m0, w0) (m0, w0) (objects (heap w0) existing))
      by reflexivity.
    destruct (negb (truthy_string (refresh_token (objects (heap w0) existing))));
      [intros H; injection H as <- _ <-; eauto|].
    rewrite (bind_returned _ _ (m0, w0) (m0, w0) m0) by reflexivity.
    match goal with
    | |- context [fetch ?req] => set (request := req)
    end.
    unfold bind at 1. rewrite !in_world_run. cbn [fst snd].
    unfold fetch. rewrite Hnet.
    destruct (replies (network w)) as [|[|response] rest]; cbn [fst snd];
      [intros H; injection H as <- _ <-; eauto
      |intros H; injection H as <- _ <-; eauto|].
    destruct Hreply as [Hok | Hjson].
    + rewrite Hok. cbn [negb]. intros H. injection H as <- _ <-. eauto.
    + destruct (negb (resp_ok response)); [intros H; injection H as <- _ <-; eauto|].
      unfold bind at 1. rewrite !in_world_run. unfold response_json. rewrite Hjson.
      cbn [throw fst snd]. intros H. injection H as <- _ <-. eauto.
  - pose proof (in_storage_loadTokens_fs _ _ _ _ _ Hload) as Hfs.
    rewrite (bind_returned _ _ _ _ _ Hload). intros H. injection H as <- _ <-. eauto.
  - rewrite (bind_threw _ _ _ _ _ Hload). intros H. injection H as <- _ <-.
    apply in_storage_inv in Hload as (ts0 & Hload & ->).
    pose proof (loadTokens_only_heap (tokenStorage m) w) as Hw. rewrite Hload in Hw.
    cbn [snd] in Hw. rewrite Hw. eauto.
Qed.

End RedirectFacts.

Lemma completeOAuthFlow_redirectUri_witness :
  let P := toy_platform sample_documents in
  let w := with_incoming toy_world [callback_with_error] in
  let s' := snd (@completeOAuthFlow P (sample_manager, w)) in
  let uri := js "http://localhost:" ++ decimal 8080 ++ js "/oauth/callback" in
  fst (getRedirectUri s') = Returned uri /\
  callbackPort (fst s') = 8080 /\
  clientId (config (fst s')) = clientId (config sample_manager) /\
  (sent (network (snd s')) = sent (network w) \/
   exists request,
     sent (network (snd s')) = request :: sent (network w) /\
     param "redirect_uri" (req_body request) = Some uri).
Proof.
  exact (@completeOAuthFlow_redirectUri (toy_platform sample_documents) sample_manager
           (with_incoming toy_world [callback_with_error]) 8080 eq_refl).
Defined.

Lemma refresh_without_tokens_keeps_files_witness :
  let P := toy_platform sample_documents in
  let w := world_storing expired_tokens [Rejected] in
  fs (snd (snd (@refreshAccessToken P (sample_manager, w)))) = fs w /\
  exists e, fst (@refreshAccessToken P (sample_manager, w)) = Threw e.
Proof.
  exact (@refresh_without_tokens_keeps_files (toy_platform sample_documents) sample_manager
           (world_storing expired_tokens [Rejected]) I).
Defined.

(** ** The error handler ([google/error-handler.ts]) *)

(** X20: the retry delay is an exponential backoff with a cap: for attempt
    0, 1, 2, 3 and every attempt from 4 on it is 1000, 2000, 4000, 8000 and
    16000 milliseconds, that is 1000 times 2 to the power min(attempt, 4);
    for a negative attempt it is 1000.  So it lies between 1000 and 16000 and
    never decreases with the attempt. *)
Theorem getRetryDelay_backoff (attempt : Z) :
  getRetryDelay attempt = (if attempt <? 0 then 1000 else 1000 * 2 ^ Z.min attempt 4) /\
  1000 <= getRetryDelay attempt <= 16000 /\
  (forall later, attempt <= later -> getRetryDelay attempt <= getRetryDelay later).
Proof.
  assert (Hform : forall a,
             getRetryDelay a = (if a <? 0 then 1000 else 1000 * 2 ^ Z.min a 4)).
  { intros a. unfold getRetryDelay. change (Z.of_nat (length RETRY_DELAYS)) with 5.
    destruct (Z.ltb_spec a 0) as [Hneg|Hpos].
    - destruct (Z.geb_spec a 5) as [|_]; [lia|].
      unfold at_index. destruct (Z.ltb_spec a 0); [reflexivity|lia].
    - destruct (Z.geb_spec a 5) as [Hbig|Hsmall].
      + rewrite Z.min_r by lia. reflexivity.
      + rewrite Z.min_l by lia.
        assert (Ha : a = 0 \/ a = 1 \/ a = 2 \/ a = 3 \/ a = 4) by lia.
        destruct Ha as [-> | [-> | [-> | [-> | ->]]]]; reflexivity. }
  assert (Hpow : forall k, 0 <= k <= 4 -> 1 <= 2 ^ k <= 16).
  { intros k Hk.
    assert (Hc : k = 0 \/ k = 1 \/ k = 2 \/ k = 3 \/ k = 4) by lia.
    destruct Hc as [-> | [-> | [-> | [-> | ->]]]]; split; vm_compute; intro; discriminate. }
  split; [apply Hform|]. split.
  - rewrite Hform. destruct (attempt <? 0) eqn:E; [lia|].
    apply Z.ltb_ge in E.
    assert (Hk : 0 <= Z.min attempt 4 <= 4) by lia.
    apply Hpow in Hk. generalize dependent (2 ^ Z.min attempt 4). intros; lia.
  - intros later Hle. rewrite !Hform.
    destruct (Z.ltb_spec attempt 0); destruct (Z.ltb_spec later 0).
    + lia.
    + assert (Hk : 0 <= Z.min later 4 <= 4) by lia.
      apply Hpow in Hk. generalize dependent (2 ^ Z.min later 4). intros; lia.
    + lia.
    + apply Z.mul_le_mono_nonneg_l; [lia|].
      apply Z.pow_le_mono_r; lia.
Qed.

(** An error without a response, or with a status that is 0, is neither
    retryable nor a token error, and is parsed into code 500. *)
Lemma parse_without_status (error : ErrorValue) :
  truthy_number (status_of error) = false -> data_error_of error = None ->
  isRetryableError error = false /\ isTokenError error = false /\
  GoogleApiError.code (GoogleApiError.error (parseGoogleApiError error)) = 500 /\
  GoogleApiError.status (GoogleApiError.error (parseGoogleApiError error)) = js "INTERNAL" /\
  GoogleApiError.details (GoogleApiError.error (parseGoogleApiError error)) = Some [] /\
  GoogleApiError.message (GoogleApiError.error (parseGoogleApiError error))
  = (if truthy_string (error_message error) then nullish (error_message error) []
     else js "Unknown error occurred").
Proof.
  intros Hs Hd. unfold isRetryableError, isTokenError, parseGoogleApiError.
  rewrite Hs, Hd. repeat split.
Qed.

(** X24: an error that carries no HTTP status (a network failure, an [Error]
    of the code's own) or the status 0, and no error body, is never retried
    and is no token error; it is parsed into code 500 with status text
    INTERNAL and no details, keeping its message or, when that is empty,
    "Unknown error occurred"; and the message made for the user says that
    the Google API is temporarily unavailable, whatever the error said. *)
Theorem error_without_status (error : ErrorValue) :
  truthy_number (status_of error) = false -> data_error_of error = None ->
  isRetryableError error = false /\ isTokenError error = false /\
  parseGoogleApiError error
  = {| GoogleApiError.error :=
         {| GoogleApiError.code := 500;
            GoogleApiError.message :=
              if truthy_string (error_message error) then nullish (error_message error) []
              else js "Unknown error occurred";
            GoogleApiError.status := js "INTERNAL";
            GoogleApiError.details := Some [] |} |} /\
  createUserFriendlyMessage (parseGoogleApiError error)
  = js "Google API is temporarily unavailable. Please try again." /\
  (forall context,
     error_message (friendly_error error context)
     = Some (js "Google API is temporarily unavailable. Please try again."
             ++ (if truthy_string context then js " during " ++ nullish context [] else []))).
Proof.
  intros Hs Hd.
  assert (Hparse : parseGoogleApiError error
                   = {| GoogleApiError.error :=
                          {| GoogleApiError.code := 500;
                             GoogleApiError.message :=
                               if truthy_string (error_message error)
                               then nullish (error_message error) []
                               else js "Unknown error occurred";
                             GoogleApiError.status := js "INTERNAL";
                             GoogleApiError.details := Some [] |} |}).
  { unfold parseGoogleApiError. rewrite Hs, Hd. reflexivity. }
  destruct (parse_without_status error Hs Hd) as (Hr & Ht & _).
  split; [exact Hr|]. split; [exact Ht|]. split; [exact Hparse|].
  assert (Hfriendly : createUserFriendlyMessage (parseGoogleApiError error)
                      = js "Google API is temporarily unavailable. Please try again.")
    by (rewrite Hparse; reflexivity).
  split; [exact Hfriendly|].
  intros context. unfold friendly_error. cbv zeta. rewrite Hfriendly. reflexivity.
Qed.

Lemma error_without_status_witness :
  let error := new_Error (js "socket hang up") in
  isRetryableError error = false /\ isTokenError error = false /\
  parseGoogleApiError error
  = {| GoogleApiError.error :=
         {| GoogleApiError.code := 500;
            GoogleApiError.message :=
              if truthy_string (error_message error) then nullish (error_message error) []
              else js "Unknown error occurred";
            GoogleApiError.status := js "INTERNAL";
            GoogleApiError.details := Some [] |} |} /\
  createUserFriendlyMessage (parseGoogleApiError error)
  = js "Google API is temporarily unavailable. Please try again." /\
  (forall context,
     error_message (friendly_error error context)
     = Some (js "Google API is temporarily unavailable. Please try again."
             ++ (if truthy_string context then js " during " ++ nullish context [] else []))).
Proof.
  exact (error_without_status (new_Error (js "socket hang up")) eq_refl eq_refl).
Defined.

(** *** [executeWithRetry] *)

Lemma bind_ret_same {S A : Type} (c : Async.t S A) (s : S) :
  (result <~ c ;; Async.ret result) s = c s.
Proof.
  unfold Async.bind. destruct (c s) as [[a|e] s']; reflexivity.
Qed.

(** One turn of the loop, while attempts are left. *)
Lemma retry_loop_turn {S A : Type} (remaining : nat) (attempt : Z)
      (lastError : option ErrorValue) (operation : Async.t (S * Runtime) A)
      (context : option jsstring) (s : S * Runtime) :
  attempt < MAX_RETRIES ->
  retry_loop (Datatypes.S remaining) attempt lastError operation context s
  = match fst (operation s) with
    | Fulfilled a => (Fulfilled a, snd (operation s))
    | Thrown error =>
        if negb (isRetryableError error) || (attempt =? MAX_RETRIES - 1)
        then (Thrown (friendly_error error context), snd (operation s))
        else retry_loop remaining (attempt + 1) (Some error) operation context
               (fst (snd (operation s)),
                {| world := world (snd (snd (operation s)));
                   slept := getRetryDelay attempt :: slept (snd (snd (operation s)));
                   google := google (snd (snd (operation s))) |})
    end.
Proof.
  intros Hlt. cbn [retry_loop].
  destruct (Z.ltb_spec attempt MAX_RETRIES) as [_|]; [|lia].
  unfold Async.catch at 1. rewrite bind_ret_same.
  destruct (fst (operation s)) as [a|error]; [reflexivity|].
  destruct (isRetryableError error); cbn [negb orb]; [|reflexivity].
  destruct (attempt =? MAX_RETRIES - 1); [reflexivity|].
  unfold Async.bind, in_runtime, sleep, Async.modify. cbn [fst snd]. reflexivity.
Qed.

(** What the loop ends with comes from the operation. *)
Lemma retry_loop_outcome {S A : Type} (operation : Async.t (S * Runtime) A)
      (context : option jsstring) :
  forall (remaining : nat) (attempt : Z) (lastError : option ErrorValue) (s : S * Runtime),
    Z.of_nat remaining + attempt = MAX_RETRIES -> (1 <= remaining)%nat ->
    match fst (retry_loop remaining attempt lastError operation context s) with
    | Fulfilled a => exists s0, fst (operation s0) = Fulfilled a
    | Thrown e => exists cause s0,
        fst (operation s0) = Thrown cause /\ e = friendly_error cause context
    end.
Proof.
  induction remaining as [|remaining IH]; intros attempt lastError s Hsum Hpos; [lia|].
  rewrite retry_loop_turn by lia.
  destruct (fst (operation s)) as [a|error] eqn:Hop; cbn [fst].
  - exists s. exact Hop.
  - destruct (negb (isRetryableError error) || (attempt =? MAX_RETRIES - 1)) eqn:Hstop.
    + cbn [fst]. exists error, s. split; [exact Hop|reflexivity].
    + apply Bool.orb_false_iff in Hstop. destruct Hstop as [_ Hlast].
      apply Z.eqb_neq in Hlast. apply IH; lia.
Qed.


(** The loop on a mock. *)
Lemma retry_loop_mock {A : Type} (context : option jsstring) :
  forall (remaining : nat) (attempt : Z) (lastError : option ErrorValue)
         (m : Mock A) (r : Runtime),
    Z.of_nat remaining + attempt = MAX_RETRIES -> (1 <= remaining)%nat ->
    exists retries : nat,
      (retries < remaining)%nat /\
      (forall i, (i < retries)%nat -> retryable_outcome m (called m + i)) /\
      ((Datatypes.S retries < remaining)%nat -> ~ retryable_outcome m (called m + retries)) /\
      retry_loop remaining attempt lastError mock_call context (m, r)
      = (final_outcome (outcomes m (called m + retries)) context,
         ({| outcomes := outcomes m; called := called m + retries + 1 |},
          {| world := world r;
             slept := rev (delays_from attempt retries) ++ slept r;
             google := google r |})).
Proof.
  induction remaining as [|remaining IH]; intros attempt lastError m r Hsum Hpos; [lia|].
  rewrite retry_loop_turn by lia.
  change (mock_call (m, r))
    with (outcomes m (called m),
          ({| outcomes := outcomes m; called := Datatypes.S (called m) |}, r)).
  cbn [fst snd].
  destruct (outcomes m (called m)) as [a|error] eqn:Ho.
  - exists 0%nat. rewrite !Nat.add_0_r. rewrite Ho. cbn [final_outcome delays_from rev app].
    split; [lia|]. split; [intros i Hi; lia|]. split.
    + intros _ (e & He & _). congruence.
    + destruct r; do 3 f_equal; lia.
  - destruct (isRetryableError error) eqn:Hretry; cbn [negb orb].
    + destruct (Z.eqb_spec attempt (MAX_RETRIES - 1)) as [Hlast|Hmore].
      * exists 0%nat. rewrite !Nat.add_0_r. rewrite Ho. cbn [final_outcome delays_from rev app].
        split; [lia|]. split; [intros i Hi; lia|].
        split; [intros Hn; unfold MAX_RETRIES in *; lia|].
        destruct r; do 3 f_equal; lia.
      * destruct (IH (attempt + 1) (Some error)
                     {| outcomes := outcomes m; called := Datatypes.S (called m) |}
                     {| world := world r; slept := getRetryDelay attempt :: slept r;
                        google := google r |})
          as (retries & Hlt & Hbefore & Hstop & Hrun); [lia | unfold MAX_RETRIES in *; lia |].
        cbn [outcomes called world slept google] in Hbefore, Hstop, Hrun.
        exists (Datatypes.S retries). split; [lia|]. split; [|split].
        -- intros [|i] Hi.
           ++ rewrite Nat.add_0_r. exists error. split; assumption.
           ++ replace (called m + Datatypes.S i)%nat with (Datatypes.S (called m) + i)%nat by lia.
              apply Hbefore. lia.
        -- intros Hn.
           replace (called m + Datatypes.S retries)%nat
             with (Datatypes.S (called m) + retries)%nat by lia.
           apply Hstop. lia.
        -- rewrite Hrun.
           replace (called m + Datatypes.S retries)%nat
             with (Datatypes.S (called m) + retries)%nat by lia.
           cbn [delays_from rev]. rewrite <- app_assoc. cbn [app].
           repeat (f_equal; try lia).
    + exists 0%nat. rewrite !Nat.add_0_r. rewrite Ho. cbn [final_outcome delays_from rev app].
      split; [lia|]. split; [intros i Hi; lia|]. split.
      * intros _ (e & He & Hr). congruence.
      * destruct r; do 3 f_equal; lia.
Qed.

(** X22: [executeWithRetry] on a scripted operation.  The operation is
    called again exactly while its outcome is a retryable error and fewer
    than five calls were made: with [retries] the number of retryable
    errors it met before stopping (at most 4), it makes [retries + 1]
    calls, awaits before the retries the delays 1000, 2000, 4000 and 8000
    milliseconds in this order (the fifth delay, 16000, is never awaited),
    and ends with the last outcome: the value returned, or the friendly
    error made from the last error.  It touches nothing else. *)
Theorem executeWithRetry_on_mock {A : Type} (m : Mock A) (r : Runtime)
        (context : option jsstring) :
  exists retries : nat,
    (retries <= 4)%nat /\
    (forall i, (i < retries)%nat -> retryable_outcome m (called m + i)) /\
    ((retries < 4)%nat -> ~ retryable_outcome m (called m + retries)) /\
    executeWithRetry mock_call context (m, r)
    = (final_outcome (outcomes m (called m + retries)) context,
       ({| outcomes := outcomes m; called := called m + retries + 1 |},
        {| world := world r;
           slept := rev (firstn retries [1000; 2000; 4000; 8000]) ++ slept r;
           google := google r |})).
Proof.
  destruct (retry_loop_mock context (Z.to_nat MAX_RETRIES) 0 None m r)
    as (retries & Hlt & Hbefore & Hstop & Hrun); [reflexivity | cbn; lia |].
  change (Z.to_nat MAX_RETRIES) with 5%nat in *.
  exists retries. split; [lia|]. split; [exact Hbefore|]. split; [intros Hn; apply Hstop; lia|].
  unfold executeWithRetry. change (Z.to_nat MAX_RETRIES) with 5%nat. rewrite Hrun.
  assert (Hdelays : delays_from 0 retries = firstn retries [1000; 2000; 4000; 8000]).
  { assert (Hc : (retries = 0 \/ retries = 1 \/ retries = 2 \/ retries = 3 \/ retries = 4)%nat)
      by lia.
    destruct Hc as [-> | [-> | [-> | [-> | ->]]]]; reflexivity. }
  rewrite Hdelays. reflexivity.
Qed.

(** *** The rate limiter *)

Lemma rateLimiter_call_run (limiter : RateLimiter) (r : Runtime) :
  let t1 := readings (clock (world r)) (ticks (clock (world r))) in
  let t2 := readings (clock (world r)) (Datatypes.S (ticks (clock (world r)))) in
  let elapsed := t1 - lastRequestTime limiter in
  rateLimiter_call (limiter, r)
  = (Fulfilled tt,
     ({| lastRequestTime := t2 |},
      {| world := set_clock (world r)
                    {| readings := readings (clock (world r));
                       ticks := Datatypes.S (Datatypes.S (ticks (clock (world r)))) |};
         slept := (if elapsed <? MIN_INTERVAL then [MIN_INTERVAL - elapsed] else [])
                  ++ slept r;
         google := google r |})).
Proof.
  cbv zeta. unfold rateLimiter_call, self, set_self, in_runtime, now, sleep,
    Async.bind, Async.gets, Async.modify, Async.ret, Date_now, set_world.
  cbn [fst snd].
  destruct (readings (clock (world r)) (ticks (clock (world r))) - lastRequestTime limiter
            <? MIN_INTERVAL); cbn; reflexivity.
Qed.

(** X23: a call of the rate limiter never throws.  It reads the clock twice:
    when the first reading is less than 100 ms after the time it remembers,
    it awaits a timer for exactly the missing milliseconds, and otherwise no
    timer; then it remembers the second reading and leaves everything else
    of the runtime alone.  So, when the clock does not run backwards and a
    timer does not fire early, the time it remembers moves on by at least
    100 ms at every call. *)
Theorem rateLimiter_spacing (limiter : RateLimiter) (r : Runtime) :
  let t1 := readings (clock (world r)) (ticks (clock (world r))) in
  let t2 := readings (clock (world r)) (Datatypes.S (ticks (clock (world r)))) in
  let elapsed := t1 - lastRequestTime limiter in
  let waited := if elapsed <? 100 then [100 - elapsed] else [] in
  rateLimiter_call (limiter, r)
  = (Fulfilled tt,
     ({| lastRequestTime := t2 |},
      {| world := set_clock (world r)
                    {| readings := readings (clock (world r));
                       ticks := Datatypes.S (Datatypes.S (ticks (clock (world r)))) |};
         slept := waited ++ slept r;
         google := google r |})) /\
  (t1 + fold_right Z.add 0 waited <= t2 -> lastRequestTime limiter + 100 <= t2).
Proof.
  cbv zeta. split; [apply rateLimiter_call_run|].
  destruct (Z.ltb_spec (readings (clock (world r)) (ticks (clock (world r)))
                        - lastRequestTime limiter) 100); cbn [fold_right]; lia.
Qed.

(** ** The client ([google/tasks-client.ts]) *)

Lemma await_rateLimiter_run (c : GoogleTasksClient) (r : Runtime) :
  let t1 := readings (clock (world r)) (ticks (clock (world r))) in
  let t2 := readings (clock (world r)) (Datatypes.S (ticks (clock (world r)))) in
  let elapsed := t1 - lastRequestTime (rateLimiter c) in
  await_rateLimiter (c, r)
  = (Fulfilled tt,
     (set_rateLimiter c {| lastRequestTime := t2 |},
      {| world := set_clock (world r)
                    {| readings := readings (clock (world r));
                       ticks := Datatypes.S (Datatypes.S (ticks (clock (world r)))) |};
         slept := (if elapsed <? MIN_INTERVAL then [MIN_INTERVAL - elapsed] else [])
                  ++ slept r;
         google := google r |})).
Proof.
  cbv zeta. unfold await_rateLimiter. cbn [fst snd].
  rewrite rateLimiter_call_run. reflexivity.
Qed.

Lemma set_authManager_same (c : GoogleTasksClient) : set_authManager c (authManager c) = c.
Proof. destruct c; reflexivity. Qed.

Lemma set_world_same (r : Runtime) : set_world r (world r) = r.
Proof. destruct r; reflexivity. Qed.

Section ClientFacts.
Context {P : Platform} {H : Host}.

(** Without a token file there are no valid tokens, and nothing is touched. *)
Lemma getValidTokens_missing (m : OAuthManager) (w : World) :
  files (fs w) (tokenFilePath (tokenStorage m)) = Missing ->
  getValidTokens (m, w) = (Returned None, (m, w)).
Proof.
  intros Hfile.
  assert (Hload : in_storage loadTokens (m, w) = (Returned None, (m, w))).
  { erewrite in_storage_returned; [|rewrite loadTokens_run, Hfile; reflexivity].
    now rewrite set_tokenStorage_same. }
  assert (Hvalid : isTokenValid (m, w) = (Returned false, (m, w)))
    by (unfold isTokenValid; now rewrite (bind_returned _ _ _ _ _ Hload)).
  assert (Hrefresh : refreshAccessToken (m, w) = (Threw NoRefreshToken, (m, w)))
    by (unfold refreshAccessToken; now rewrite (bind_returned _ _ _ _ _ Hload)).
  unfold getValidTokens. rewrite (bind_returned _ _ _ _ _ Hvalid). cbn [negb].
  unfold try_catch. now rewrite (bind_threw _ _ _ _ _ Hrefresh).
Qed.

(** [ensureAuthenticated], by what [getValidTokens] gives. *)
Lemma ensureAuthenticated_run (c : GoogleTasksClient) (r : Runtime) :
  let tokens := getValidTokens (authManager c, world r) in
  let c' := set_authManager c (fst (snd tokens)) in
  let r' := set_world r (snd (snd tokens)) in
  ensureAuthenticated (c, r)
  = match fst tokens with
    | Returned (Some t) =>
        (Fulfilled tt,
         (set_oauth2Client c'
            (setCredentials (oauth2Client c')
               (credentials_of (objects (heap (world r')) t))), r'))
    | Returned None => (Thrown not_authenticated, (c', r'))
    | Threw e => (Thrown (auth_error e), (c', r'))
    end.
Proof.
  cbv zeta. unfold ensureAuthenticated, Async.bind at 1, in_manager. cbn [fst snd].
  destruct (fst (getValidTokens (authManager c, world r))) as [[t|]|e]; reflexivity.
Qed.

(** A method behind the check of the tokens refuses when there is no token file. *)
Lemma unauthenticated_refuses {A : Type} (rest : Async.t (GoogleTasksClient * Runtime) A)
      (c : GoogleTasksClient) (r : Runtime) :
  files (fs (world r)) (tokenFilePath (tokenStorage (authManager c))) = Missing ->
  refuses (await_rateLimiter ~;; ensureAuthenticated ~;; rest) (c, r).
Proof.
  intros Hfile. unfold refuses, Async.bind.
  rewrite await_rateLimiter_run. cbn [fst snd].
  rewrite ensureAuthenticated_run. cbn [authManager set_rateLimiter world].
  rewrite getValidTokens_missing by exact Hfile.
  cbn [fst snd]. repeat split.
Qed.

(** [completeTask] is [updateTask] after a reading of the clock. *)
Lemma completeTask_run (taskListId taskId : jsstring) (c : GoogleTasksClient) (r : Runtime) :
  completeTask taskListId taskId (c, r)
  = updateTask {| UpdateTaskParams.taskListId := taskListId;
                  UpdateTaskParams.taskId := taskId;
                  UpdateTaskParams.title := None;
                  UpdateTaskParams.notes := None;
                  UpdateTaskParams.status := Some TaskStatus.completed;
                  UpdateTaskParams.due := None;
                  UpdateTaskParams.completed :=
                    Some (Date_toISOString
                            (readings (clock (world r)) (ticks (clock (world r))))) |}
      (c, set_world r (snd (Date_now (world r)))).
Proof. reflexivity. Qed.

(** X25: a client whose token file does not exist makes no request.  Every
    method that calls the Google Tasks API throws the error "Not
    authenticated. Please authenticate first.", records no call of the API,
    sends nothing to the token endpoint and leaves the credentials of its
    OAuth2 client as they were. *)
Theorem never_logged_in_refuses (c : GoogleTasksClient) (r : Runtime) :
  files (fs (world r)) (tokenFilePath (tokenStorage (authManager c))) = Missing ->
  refuses getTaskLists (c, r) /\
  (forall title, refuses (createTaskList title) (c, r)) /\
  (forall listId title, refuses (updateTaskList listId title) (c, r)) /\
  (forall listId, refuses (deleteTaskList listId) (c, r)) /\
  (forall taskListId showCompleted showDeleted,
      refuses (getTasks taskListId showCompleted showDeleted) (c, r)) /\
  (forall taskListId taskId, refuses (getTask taskListId taskId) (c, r)) /\
  (forall params, refuses (createTask params) (c, r)) /\
  (forall params, refuses (updateTask params) (c, r)) /\
  (forall taskListId taskId, refuses (deleteTask taskListId taskId) (c, r)) /\
  (forall taskListId taskId, refuses (completeTask taskListId taskId) (c, r)) /\
  (forall taskListId taskId, refuses (uncompleteTask taskListId taskId) (c, r)) /\
  (forall params, refuses (moveTask params) (c, r)) /\
  (forall taskListId, refuses (clearCompletedTasks taskListId) (c, r)).
Proof.
  intros Hfile.
  repeat match goal with |- _ /\ _ => split end; intros;
    try (apply unauthenticated_refuses; exact Hfile).
  unfold refuses. rewrite !completeTask_run.
  destruct (unauthenticated_refuses
              (executeWithRetry
                 (data <~ call_api answer_task
                            (tasks_update taskListId taskId
                               (completed_body taskId
                                  (readings (clock (world r)) (ticks (clock (world r)))))) ;;
                  Async.ret data)
                 (Some (js "updating task")))
              c (set_world r (snd (Date_now (world r)))))
    as (H1 & H2 & H3 & H4); [exact Hfile|].
  repeat split; assumption.
Qed.

End ClientFacts.

Lemma never_logged_in_refuses_witness :
  let c := new_GoogleTasksClient sample_manager in
  @refuses (list GoogleTaskList.t)
           (@getTaskLists (toy_platform sample_documents) toy_host) (c, toy_runtime).
Proof.
  exact (proj1 (@never_logged_in_refuses (toy_platform sample_documents) toy_host
                  (new_GoogleTasksClient sample_manager) toy_runtime eq_refl)).
Defined.

(** *** The requests of the methods *)

(** The state after an operation that makes one call. *)
Lemma api_operation_state {X A : Type} (answer : GoogleApi -> nat -> ApiReply X)
      (call : ApiCall) (f : X -> A) (s : GoogleTasksClient * Runtime) :
  let after := snd ((data <~ call_api answer call ;; Async.ret (f data)) s) in
  fst after = fst s /\
  world (snd after) = world (snd s) /\
  calls (google (snd after))
  = (credentials (oauth2Client (fst s)), call) :: calls (google (snd s)).
Proof.
  cbv zeta. unfold Async.bind, call_api. cbn [fst snd].
  destruct (answer (google (snd s)) (length (calls (google (snd s))))); repeat split.
Qed.

(** The calls of the loop of [executeWithRetry] around such an operation. *)
Lemma retry_loop_calls {X A : Type} (answer : GoogleApi -> nat -> ApiReply X)
      (call : ApiCall) (f : X -> A) (context : option jsstring) :
  forall (remaining : nat) (attempt : Z) (lastError : option ErrorValue)
         (s : GoogleTasksClient * Runtime),
    Z.of_nat remaining + attempt = MAX_RETRIES -> (1 <= remaining)%nat ->
    let after := snd (retry_loop remaining attempt lastError
                        (data <~ call_api answer call ;; Async.ret (f data)) context s) in
    exists n : nat,
      (1 <= n <= remaining)%nat /\
      fst after = fst s /\
      world (snd after) = world (snd s) /\
      calls (google (snd after))
      = repeat (credentials (oauth2Client (fst s)), call) n ++ calls (google (snd s)).
Proof.
  induction remaining as [|remaining IH]; intros attempt lastError s Hsum Hpos; [lia|].
  cbv zeta. rewrite retry_loop_turn by lia.
  destruct (api_operation_state answer call f s) as (Hself & Hworld & Hcalls).
  set (operation := data <~ call_api answer call ;; Async.ret (f data)) in *.
  destruct (fst (operation s)) as [a|error].
  - exists 1%nat. cbn [snd repeat app]. split; [lia|]. auto.
  - destruct (negb (isRetryableError error) || (attempt =? MAX_RETRIES - 1)) eqn:Hstop.
    + exists 1%nat. cbn [snd repeat app]. split; [lia|]. auto.
    + apply Bool.orb_false_iff in Hstop. destruct Hstop as [_ Hlast].
      apply Z.eqb_neq in Hlast.
      match goal with
      | |- context [retry_loop remaining (attempt + 1) (Some error) operation context ?s1] =>
          destruct (IH (attempt + 1) (Some error) s1) as (n & Hn & Hself' & Hworld' & Hcalls');
            [lia | unfold MAX_RETRIES in *; lia |]
      end.
      cbn [fst snd world google] in Hself', Hworld', Hcalls'.
      exists (Datatypes.S n). split; [lia|].
      rewrite Hself', Hworld', Hcalls', Hself, Hworld, Hcalls.
      split; [reflexivity|]. split; [reflexivity|].
      cbn [repeat]. rewrite (repeat_cons n). rewrite <- app_assoc. reflexivity.
Qed.

Section Requests.
Context {P : Platform} {H : Host}.

Lemma checked_method_run {A : Type} (rest : Async.t (GoogleTasksClient * Runtime) A)
      (s : GoogleTasksClient * Runtime) :
  (await_rateLimiter ~;; ensureAuthenticated ~;; rest) s
  = match fst (ensureAuthenticated (snd (await_rateLimiter s))) with
    | Fulfilled _ => rest (snd (ensureAuthenticated (snd (await_rateLimiter s))))
    | Thrown e => (Thrown e, snd (ensureAuthenticated (snd (await_rateLimiter s))))
    end.
Proof.
  destruct s as [c r]. unfold Async.bind. rewrite await_rateLimiter_run. reflexivity.
Qed.

Lemma executeWithRetry_throws_plain {S A : Type} (operation : Async.t (S * Runtime) A)
      (context : option jsstring) (s : S * Runtime) (e : ErrorValue) :
  fst (executeWithRetry operation context s) = Thrown e -> error_response e = None.
Proof.
  unfold executeWithRetry. intros He.
  pose proof (retry_loop_outcome operation context (Z.to_nat MAX_RETRIES) 0 None s) as Hout.
  rewrite He in Hout. destruct Hout as (cause & s0 & _ & ->); [reflexivity | cbn; lia |].
  reflexivity.
Qed.

(** A method made of the rate limiter, the check of the tokens and one call
    under [executeWithRetry] sends that call. *)
Lemma method_sends {X A : Type} (answer : GoogleApi -> nat -> ApiReply X)
      (call : ApiCall) (f : X -> A) (context : option jsstring) :
  sends (await_rateLimiter ~;; ensureAuthenticated ~;;
         executeWithRetry (data <~ call_api answer call ;; Async.ret (f data)) context)
        call.
Proof.
  intros [c r]. cbv zeta. rewrite checked_method_run.
  assert (Hlimiter : calls (google (snd (snd (await_rateLimiter (c, r))))) = calls (google r))
    by (rewrite await_rateLimiter_run; reflexivity).
  destruct (snd (await_rateLimiter (c, r))) as [c1 r1]. cbn [fst snd] in *.
  rewrite ensureAuthenticated_run. cbv zeta.
  destruct (fst (getValidTokens (authManager c1, world r1))) as [[t|]|e] eqn:Htokens;
    cbn [fst snd].
  - set (c2 := set_authManager c1 _). set (r2 := set_world r1 _).
    set (c3 := set_oauth2Client c2 _).
    pose proof (retry_loop_calls answer call f context (Z.to_nat MAX_RETRIES) 0 None (c3, r2)
                  eq_refl) as Hloop.
    destruct Hloop as (n & Hn & Hself & Hworld & Hcalls); [cbn; lia|].
    fold (executeWithRetry (data <~ call_api answer call ;; Async.ret (f data)) context (c3, r2))
      in Hself, Hworld, Hcalls.
    cbn [fst snd] in Hself, Hworld, Hcalls.
    exists n. split; [change (Z.to_nat MAX_RETRIES) with 5%nat in Hn; lia|].
    rewrite Hself, Hworld, Hcalls. split; [|split].
    + subst r2. unfold set_world. cbn [google]. rewrite Hlimiter. reflexivity.
    + intros _. exists t. split; [reflexivity|]. subst c3 c2 r2. reflexivity.
    + destruct (fst (executeWithRetry _ context (c3, r2))) as [a|e] eqn:Hrun; [lia|].
      eapply executeWithRetry_throws_plain. exact Hrun.
  - exists 0%nat. split; [lia|]. cbn [repeat app]. split; [|split].
    + unfold set_world. cbn [google]. exact Hlimiter.
    + intros Hn. lia.
    + reflexivity.
  - exists 0%nat. split; [lia|]. cbn [repeat app]. split; [|split].
    + unfold set_world. cbn [google]. exact Hlimiter.
    + intros Hn. lia.
    + reflexivity.
Qed.

(** X26: what each method asks of the Google Tasks API.  In every state a
    method adds to the log of the service only copies of its own request
    (listed below with its parameters), between none and five of them, all
    with the credentials the client holds in the end.  When it returns, it
    made at least one request, and whenever it made one the credentials are
    the access token and the refresh token of the record [getValidTokens]
    gave, with token type Bearer.  An error it throws carries no response.
    [createTask] and [moveTask] send notes, due, parent and previous only
    when they are non-empty strings; [updateTask] sends every field that is
    there, the empty string included; [completeTask] is [updateTask] with
    the status completed and the time of the call. *)
Theorem methods_send_their_request :
  sends getTaskLists (tasklists_list 100) /\
  (forall title, sends (createTaskList title) (tasklists_insert title)) /\
  (forall listId title,
      sends (updateTaskList listId title) (tasklists_update listId listId title)) /\
  (forall listId, sends (deleteTaskList listId) (tasklists_delete listId)) /\
  (forall taskListId showCompleted showDeleted,
      sends (getTasks taskListId showCompleted showDeleted)
            (tasks_list taskListId 100 (nullish showCompleted false)
                        (nullish showDeleted false) false)) /\
  (forall taskListId taskId, sends (getTask taskListId taskId) (tasks_get taskListId taskId)) /\
  (forall params,
      sends (createTask params)
            (tasks_insert (CreateTaskParams.taskListId params)
               {| body_id := None;
                  body_title := Some (CreateTaskParams.title params);
                  body_notes := if truthy_string (CreateTaskParams.notes params)
                                then CreateTaskParams.notes params else None;
                  body_status := None;
                  body_due := if truthy_string (CreateTaskParams.due params)
                              then CreateTaskParams.due params else None;
                  body_completed := None |}
               (if truthy_string (CreateTaskParams.parent params)
                then CreateTaskParams.parent params else None)
               (if truthy_string (CreateTaskParams.previous params)
                then CreateTaskParams.previous params else None))) /\
  (forall params,
      sends (updateTask params)
            (tasks_update (UpdateTaskParams.taskListId params) (UpdateTaskParams.taskId params)
               {| body_id := Some (UpdateTaskParams.taskId params);
                  body_title := UpdateTaskParams.title params;
                  body_notes := UpdateTaskParams.notes params;
                  body_status := UpdateTaskParams.status params;
                  body_due := UpdateTaskParams.due params;
                  body_completed := UpdateTaskParams.completed params |})) /\
  (forall taskListId taskId,
      sends (deleteTask taskListId taskId) (tasks_delete taskListId taskId)) /\
  (forall taskListId taskId,
      sends (uncompleteTask taskListId taskId)
            (tasks_update taskListId taskId
               {| body_id := Some taskId; body_title := None; body_notes := None;
                  body_status := Some TaskStatus.needsAction; body_due := None;
                  body_completed := None |})) /\
  (forall params,
      sends (moveTask params)
            (tasks_move (MoveTaskParams.taskListId params) (MoveTaskParams.taskId params)
               (if truthy_string (MoveTaskParams.parent params)
                then MoveTaskParams.parent params else None)
               (if truthy_string (MoveTaskParams.previous params)
                then MoveTaskParams.previous params else None))) /\
  (forall taskListId, sends (clearCompletedTasks taskListId) (tasks_clear taskListId)) /\
  (forall taskListId taskId c r,
      let date := readings (clock (world r)) (ticks (clock (world r))) in
      let s' := snd (completeTask taskListId taskId (c, r)) in
      exists n : nat,
        (n <= 5)%nat /\
        calls (google (snd s'))
        = repeat (credentials (oauth2Client (fst s')),
                  tasks_update taskListId taskId
                    {| body_id := Some taskId; body_title := None; body_notes := None;
                       body_status := Some TaskStatus.completed; body_due := None;
                       body_completed := Some (Date_toISOString date) |}) n
          ++ calls (google r)).
Proof.
  repeat match goal with |- _ /\ _ => split end; intros;
    try (apply method_sends).
  subst date s'. rewrite completeTask_run.
  match goal with
  | |- context [updateTask ?p ?s] =>
      destruct (method_sends answer_task
                  (tasks_update taskListId taskId
                     (completed_body taskId
                        (readings (clock (world r)) (ticks (clock (world r))))))
                  (fun data => data) (Some (js "updating task")) s)
        as (n & Hn & Hcalls & _)
  end.
  exists n. split; [exact Hn|]. exact Hcalls.
Qed.

End Requests.

(** *** [batchUpdateTasks] *)

Lemma jsstring_eqb_true (a b : jsstring) : jsstring_eqb a b = true <-> a = b.
Proof.
  unfold jsstring_eqb. destruct (list_eq_dec Z.eq_dec a b); split; congruence.
Qed.

Lemma jsstring_eqb_false (a b : jsstring) : jsstring_eqb a b = false <-> a <> b.
Proof.
  unfold jsstring_eqb. destruct (list_eq_dec Z.eq_dec a b); split; congruence.
Qed.

(** An error without a response is parsed into an internal error. *)
Lemma parse_plain (error : ErrorValue) :
  error_response error = None ->
  parseGoogleApiError error
  = internal_error (if truthy_string (error_message error)
                    then nullish (error_message error) []
                    else js "Unknown error occurred").
Proof.
  intros Hplain. unfold parseGoogleApiError, data_error_of, status_of.
  rewrite Hplain. reflexivity.
Qed.

Section Batch.
Context {P : Platform} {H : Host}.

Lemma bind_throws_plain {A B : Type} (c : Async.t (GoogleTasksClient * Runtime) A)
      (f : A -> B) (s : GoogleTasksClient * Runtime) (e : ErrorValue) :
  (forall e', fst (c s) = Thrown e' -> error_response e' = None) ->
  fst ((a <~ c ;; Async.ret (f a)) s) = Thrown e -> error_response e = None.
Proof.
  intros Hc. unfold Async.bind. destruct (fst (c s)) as [a|e'] eqn:Hrun; cbn [fst].
  - discriminate.
  - intros He. injection He as <-. apply Hc. reflexivity.
Qed.

Lemma sends_throws_plain {A : Type} (method : Async.t (GoogleTasksClient * Runtime) A)
      (call : ApiCall) (s : GoogleTasksClient * Runtime) (e : ErrorValue) :
  sends method call -> fst (method s) = Thrown e -> error_response e = None.
Proof.
  intros Hsends He. destruct (Hsends s) as (n & _ & _ & _ & Hend).
  rewrite He in Hend. exact Hend.
Qed.

(** What the [switch] throws carries no response. *)
Lemma batch_switch_throws_plain (operation : BatchOperation.t)
      (s : GoogleTasksClient * Runtime) (e : ErrorValue) :
  fst (batch_switch operation s) = Thrown e -> error_response e = None.
Proof.
  unfold batch_switch.
  destruct (jsstring_eqb (BatchOperation.operation operation) (js "insert")).
  { destruct (negb (truthy_string (task_field operation GoogleTask.title))).
    - intros He. injection He as <-. reflexivity.
    - apply bind_throws_plain. intros e'. eapply sends_throws_plain. apply method_sends. }
  destruct (jsstring_eqb (BatchOperation.operation operation) (js "update")).
  { destruct (negb (truthy_string (BatchOperation.taskId operation))).
    - intros He. injection He as <-. reflexivity.
    - apply bind_throws_plain. intros e'. eapply sends_throws_plain. apply method_sends. }
  destruct (jsstring_eqb (BatchOperation.operation operation) (js "delete")).
  { destruct (negb (truthy_string (BatchOperation.taskId operation))).
    - intros He. injection He as <-. reflexivity.
    - apply (bind_throws_plain _ (fun _ => None)). intros e'.
      eapply sends_throws_plain. apply method_sends. }
  intros He. injection He as <-. reflexivity.
Qed.

(** One turn of the loop of [batchUpdateTasks]. *)
Lemma batch_loop_turn (operation : BatchOperation.t) (rest : list BatchOperation.t)
      (s : GoogleTasksClient * Runtime) :
  exists entry : BatchResult.entry,
    BatchResult.operation entry = BatchOperation.operation operation /\
    entry_shape entry /\
    (match fst (batch_switch operation s) with
     | Fulfilled result => entry = {| BatchResult.operation := BatchOperation.operation operation;
                                      BatchResult.success := true;
                                      BatchResult.result := result;
                                      BatchResult.error := None |}
     | Thrown error => entry = {| BatchResult.operation := BatchOperation.operation operation;
                                  BatchResult.success := false;
                                  BatchResult.result := None;
                                  BatchResult.error := Some (parseGoogleApiError error) |}
     end) /\
    forall results,
      batch_loop (operation :: rest) results s
      = batch_loop rest (results ++ [entry]) (snd (batch_switch operation s)).
Proof.
  cbn [batch_loop]. unfold Async.bind at 1, Async.catch, Async.bind at 1.
  destruct (fst (batch_switch operation s)) as [result|error] eqn:Hswitch; cbn [fst snd Async.ret].
  - eexists. split; [|split; [|split; [reflexivity|]]]; cycle 2.
    + intros results. unfold Async.bind. rewrite Hswitch. reflexivity.
    + reflexivity.
    + left. split; reflexivity.
  - eexists. split; [|split; [|split; [reflexivity|]]]; cycle 2.
    + intros results. unfold Async.bind. rewrite Hswitch. reflexivity.
    + reflexivity.
    + right. split; [reflexivity|]. split; [reflexivity|].
      cbn [BatchResult.error]. rewrite parse_plain.
      * eexists. reflexivity.
      * eapply batch_switch_throws_plain. exact Hswitch.
Qed.

(** The loop returns the results it was given followed by one entry for
    each operation, and the state it ends in does not depend on the results
    it was given. *)
Lemma batch_loop_entries :
  forall (operations : list BatchOperation.t) (s : GoogleTasksClient * Runtime),
  exists entries : list BatchResult.entry,
    map BatchResult.operation entries = map BatchOperation.operation operations /\
    Forall entry_shape entries /\
    forall results,
      batch_loop operations results s
      = (Fulfilled (results ++ entries), snd (batch_loop operations [] s)).
Proof.
  induction operations as [|operation rest IH]; intros s.
  - exists []. split; [reflexivity|]. split; [constructor|].
    intros results. rewrite app_nil_r. reflexivity.
  - destruct (batch_loop_turn operation rest s) as (entry & Hname & Hshape & _ & Hturn).
    destruct (IH (snd (batch_switch operation s))) as (entries & Hnames & Hshapes & Hrest).
    exists (entry :: entries). split; [cbn [map]; congruence|].
    split; [constructor; assumption|].
    intros results. rewrite (Hturn results), (Hturn []).
    rewrite (Hrest (results ++ [entry])), (Hrest ([] ++ [entry])).
    cbn [snd]. rewrite <- app_assoc. reflexivity.
Qed.

Lemma batch_loop_app :
  forall (before after : list BatchOperation.t) (s : GoogleTasksClient * Runtime)
         (results : list BatchResult.entry),
    batch_loop (before ++ after) results s
    = match fst (batch_loop before results s) with
      | Fulfilled results' => batch_loop after results' (snd (batch_loop before results s))
      | Thrown e => (Thrown e, snd (batch_loop before results s))
      end.
Proof.
  induction before as [|operation rest IH]; intros after s results.
  - reflexivity.
  - destruct (batch_loop_turn operation rest s) as (entry & _ & _ & He & Hturn).
    destruct (batch_loop_turn operation (rest ++ after) s) as (entry' & _ & _ & He' & Hturn').
    assert (entry' = entry) as ->
        by (destruct (fst (batch_switch operation s)); congruence).
    rewrite <- app_comm_cons, Hturn', Hturn. apply IH.
Qed.

(** X27: [batchUpdateTasks] never throws.  It returns one entry for each
    operation, in the order of the operations and under their names.  An
    entry either reports success and no error, or reports failure with no
    result and an error of code 500 and status INTERNAL with no details:
    whatever went wrong, the status that Google answered included, the
    error of a failed entry never has another code. *)
Theorem batchUpdateTasks_entries (operations : list BatchOperation.t)
        (s : GoogleTasksClient * Runtime) :
  exists entries : list BatchResult.entry,
    fst (batchUpdateTasks operations s)
    = Fulfilled {| BatchResult.operations := entries |} /\
    map BatchResult.operation entries = map BatchOperation.operation operations /\
    Forall (fun entry =>
              (BatchResult.success entry = true /\ BatchResult.error entry = None) \/
              (BatchResult.success entry = false /\ BatchResult.result entry = None /\
               exists message,
                 BatchResult.error entry
                 = Some {| GoogleApiError.error :=
                             {| GoogleApiError.code := 500;
                                GoogleApiError.message := message;
                                GoogleApiError.status := js "INTERNAL";
                                GoogleApiError.details := Some [] |} |}))
           entries.
Proof.
  destruct (batch_loop_entries operations s) as (entries & Hnames & Hshapes & Hloop).
  exists entries. split; [|split; [exact Hnames | exact Hshapes]].
  unfold batchUpdateTasks, Async.bind. rewrite Hloop. reflexivity.
Qed.

(** X28: a batch is run operation by operation, so that running the
    operations [before ++ after] is running [before] and then, from the state
    this leaves, [after]: the entries are those of the first run followed
    by those of the second, and the state is that after the second. *)
Theorem batchUpdateTasks_app (before after : list BatchOperation.t)
        (s : GoogleTasksClient * Runtime) :
  exists first second : list BatchResult.entry,
    fst (batchUpdateTasks before s) = Fulfilled {| BatchResult.operations := first |} /\
    fst (batchUpdateTasks after (snd (batchUpdateTasks before s)))
    = Fulfilled {| BatchResult.operations := second |} /\
    batchUpdateTasks (before ++ after) s
    = (Fulfilled {| BatchResult.operations := first ++ second |},
       snd (batchUpdateTasks after (snd (batchUpdateTasks before s)))).
Proof.
  destruct (batch_loop_entries before s) as (first & _ & _ & Hfirst).
  assert (Hbefore : batchUpdateTasks before s
                    = (Fulfilled {| BatchResult.operations := first |},
                       snd (batch_loop before [] s))).
  { unfold batchUpdateTasks, Async.bind. rewrite Hfirst. reflexivity. }
  destruct (batch_loop_entries after (snd (batch_loop before [] s)))
    as (second & _ & _ & Hsecond).
  assert (Hafter : batchUpdateTasks after (snd (batch_loop before [] s))
                   = (Fulfilled {| BatchResult.operations := second |},
                      snd (batch_loop after [] (snd (batch_loop before [] s))))).
  { unfold batchUpdateTasks, Async.bind. rewrite Hsecond. reflexivity. }
  exists first, second. rewrite Hbefore. cbn [fst snd]. rewrite Hafter. cbn [fst snd].
  split; [reflexivity|]. split; [reflexivity|].
  unfold batchUpdateTasks, Async.bind. rewrite batch_loop_app, Hfirst. cbn [fst snd].
  rewrite Hsecond. reflexivity.
Qed.

(** X29: an operation that lacks what it needs is refused before anything
    is done.  A batch of one insert without a non-empty title, of one update
    or delete without a non-empty task id, or of one operation of another
    name gives one failed entry with the message of the code and leaves the
    client and the runtime exactly as they were: no wait of the rate
    limiter, no look at the tokens, no call of the API. *)
Theorem batch_refuses_incomplete (operation : BatchOperation.t)
        (s : GoogleTasksClient * Runtime) :
  let name := BatchOperation.operation operation in
  let failed message :=
    (Fulfilled
       {| BatchResult.operations :=
            [{| BatchResult.operation := name;
                BatchResult.success := false;
                BatchResult.result := None;
                BatchResult.error :=
                  Some {| GoogleApiError.error :=
                            {| GoogleApiError.code := 500;
                               GoogleApiError.message := message;
                               GoogleApiError.status := js "INTERNAL";
                               GoogleApiError.details := Some [] |} |} |}] |},
     s) in
  (name = js "insert" ->
   truthy_string (task_field operation GoogleTask.title) = false ->
   batchUpdateTasks [operation] s = failed (js "Task title is required for insert operation")) /\
  (name = js "update" ->
   truthy_string (BatchOperation.taskId operation) = false ->
   batchUpdateTasks [operation] s = failed (js "Task ID is required for update operation")) /\
  (name = js "delete" ->
   truthy_string (BatchOperation.taskId operation) = false ->
   batchUpdateTasks [operation] s = failed (js "Task ID is required for delete operation")) /\
  (name <> js "insert" -> name <> js "update" -> name <> js "delete" ->
   batchUpdateTasks [operation] s = failed (js "Unknown operation: " ++ name)).
Proof.
  cbv zeta.
  assert (Hrun : forall message,
             batch_switch operation s = (Thrown (new_Error message), s) ->
             truthy_string (Some message) = true ->
             batchUpdateTasks [operation] s
             = (Fulfilled
                  {| BatchResult.operations :=
                       [{| BatchResult.operation := BatchOperation.operation operation;
                           BatchResult.success := false;
                           BatchResult.result := None;
                           BatchResult.error := Some (internal_error message) |}] |}, s)).
  { intros message Hswitch Htruthy.
    unfold batchUpdateTasks. cbn [batch_loop].
    unfold Async.bind, Async.catch. rewrite Hswitch. cbn [fst snd Async.ret app].
    rewrite parse_plain by reflexivity. cbn [error_message new_Error].
    rewrite Htruthy. reflexivity. }
  repeat split.
  - intros Hname Htitle. apply Hrun; [|reflexivity].
    unfold batch_switch. rewrite Hname, Htitle. reflexivity.
  - intros Hname Hid. apply Hrun; [|reflexivity].
    unfold batch_switch. rewrite Hname, Hid. reflexivity.
  - intros Hname Hid. apply Hrun; [|reflexivity].
    unfold batch_switch. rewrite Hname, Hid. reflexivity.
  - intros Hinsert Hupdate Hdelete. apply Hrun; [|reflexivity].
    unfold batch_switch.
    apply jsstring_eqb_false in Hinsert, Hupdate, Hdelete.
    rewrite Hinsert, Hupdate, Hdelete. reflexivity.
Qed.

End Batch.

